(** * check-quota: the endpoint discovery pipeline of [src/check-quota.ts]

    A shallow embedding of the process locator (lines 37-85 of [main]),
    the port discoverer ([getListeningPorts]), the port prober ([testPort])
    and the orchestration in [main], followed by the properties of each.

    Conventions of the embedding:
    - a JavaScript string is a [string]; its characters stand for code units
      below 256, which covers the plain-text output of the system tools;
    - a JavaScript number that comes out of [parseInt] is a [jsnum]: [NaN] or
      an integer.  The embedding of [parseInt] is exact; the function of the
      script returns a double, which is that integer as long as it is below
      2^53 (digit runs of at most 15 digits).  Statements that give the value
      of a digit run carry that bound, the others speak of [parseInt] on both
      sides;
    - external commands and HTTPS requests are answered by a [World], and
      every one of them is recorded in a log of operations.  Within the
      fan-out of the discovery the log lists the commands branch after
      branch, where the real branches interleave: of that part of a log the
      statements give the members, not their order.  The probe requests are
      issued one after the other before the first of them is awaited, in
      the order of the port list. *)

From Stdlib Require Import String Ascii List ZArith Lia Bool Arith DecimalString.
Import ListNotations.
Open Scope string_scope.
Open Scope list_scope.

(** ** JavaScript primitives used by the script *)

Module Js.

(** Numbers as [parseInt] produces them. *)
Inductive jsnum : Type :=
| NaN
| Num (z : Z).

(** [SameValueZero], the equality of [Map] keys, [Set] members and
    [Array.prototype.includes]: [NaN] equals itself. *)
Definition sameValueZero (a b : jsnum) : bool :=
  match a, b with
  | NaN, NaN => true
  | Num x, Num y => Z.eqb x y
  | _, _ => false
  end.

(** [===] on numbers: [NaN] differs from everything. *)
Definition strictEq (a b : jsnum) : bool :=
  match a, b with
  | Num x, Num y => Z.eqb x y
  | _, _ => false
  end.

Definition isNaN (a : jsnum) : bool :=
  match a with NaN => true | Num _ => false end.

(** White space and line terminators below code unit 256: what [\s] matches
    and what [trim] removes. *)
Definition isWhiteSpace (c : ascii) : bool :=
  let n := nat_of_ascii c in
  (Nat.leb 9 n && Nat.leb n 13) || Nat.eqb n 32 || Nat.eqb n 160.

Definition isDigit (c : ascii) : bool :=
  let n := nat_of_ascii c in Nat.leb 48 n && Nat.leb n 57.

Definition digitVal (c : ascii) : Z := Z.of_nat (nat_of_ascii c) - 48.

Definition isEmpty (s : string) : bool :=
  match s with EmptyString => true | String _ _ => false end.

(** Truthiness of a string: non-empty. *)
Definition truthy (s : string) : bool := negb (isEmpty s).

Fixpoint takeWhile (p : ascii -> bool) (s : string) : string :=
  match s with
  | EmptyString => EmptyString
  | String c s' => if p c then String c (takeWhile p s') else EmptyString
  end.

Fixpoint dropWhile (p : ascii -> bool) (s : string) : string :=
  match s with
  | EmptyString => EmptyString
  | String c s' => if p c then dropWhile p s' else s
  end.

Fixpoint allChars (p : ascii -> bool) (s : string) : bool :=
  match s with
  | EmptyString => true
  | String c s' => p c && allChars p s'
  end.

Definition trimStart (s : string) : string := dropWhile isWhiteSpace s.

(** [trimEnd]: a character is kept when it is not white space or when some
    later character is kept. *)
Fixpoint trimEnd (s : string) : string :=
  match s with
  | EmptyString => EmptyString
  | String c s' =>
      match trimEnd s' with
      | EmptyString => if isWhiteSpace c then EmptyString else String c EmptyString
      | String d r => String c (String d r)
      end
  end.

Definition trim (s : string) : string := trimEnd (trimStart s).

(** [s.startsWith(p)]. *)
Fixpoint startsWith (p s : string) : bool :=
  match p, s with
  | EmptyString, _ => true
  | String a p', String b s' => Ascii.eqb a b && startsWith p' s'
  | String _ _, EmptyString => false
  end.

(** [s.substring(n)]. *)
Fixpoint substringFrom (n : nat) (s : string) : string :=
  match n, s with
  | O, _ => s
  | S k, String _ s' => substringFrom k s'
  | S _, EmptyString => EmptyString
  end.

(** Puts a character in front of the field under construction. *)
Definition consHead (c : ascii) (fields : list string) : list string :=
  match fields with
  | [] => [String c EmptyString]
  | f :: rest => String c f :: rest
  end.

Definition LF : ascii := ascii_of_nat 10.
Definition CR : ascii := ascii_of_nat 13.

(** [s.split('\n')]. *)
Fixpoint splitLF (s : string) : list string :=
  match s with
  | EmptyString => [EmptyString]
  | String c s' =>
      if Ascii.eqb c LF then EmptyString :: splitLF s'
      else consHead c (splitLF s')
  end.

(** [s.split('\r\n')]. *)
Fixpoint splitCRLF (s : string) : list string :=
  match s with
  | EmptyString => [EmptyString]
  | String c s' =>
      match s' with
      | String d s'' =>
          if Ascii.eqb c CR && Ascii.eqb d LF
          then EmptyString :: splitCRLF s''
          else consHead c (splitCRLF s')
      | EmptyString => [String c EmptyString]
      end
  end.

(** [s.split(/\s+/)]: [inSep] tells that the previous character belonged to
    a separator, so that a run of white space separates once. *)
Fixpoint splitWsFrom (inSep : bool) (s : string) : list string :=
  match s with
  | EmptyString => [EmptyString]
  | String c s' =>
      if isWhiteSpace c
      then (if inSep then splitWsFrom true s'
            else EmptyString :: splitWsFrom true s')
      else consHead c (splitWsFrom false s')
  end.

Definition splitWs (s : string) : list string := splitWsFrom false s.

(** Value of a run of decimal digits, most significant first. *)
Fixpoint digitsValueFrom (acc : Z) (ds : string) : Z :=
  match ds with
  | EmptyString => acc
  | String c ds' => digitsValueFrom (10 * acc + digitVal c)%Z ds'
  end.

Definition digitsValue (ds : string) : Z := digitsValueFrom 0%Z ds.

(** [parseInt(s, 10)]: leading white space is skipped, one sign is accepted,
    the longest run of digits is read, and there is no number without a
    digit.  The value is the exact integer of the run; it is the number of
    the script when the run denotes less than 2^53 (beyond, the script holds
    the nearest double). *)
Definition parseInt (s : string) : jsnum :=
  let s1 := trimStart s in
  let '(neg, s2) :=
    match s1 with
    | String c r =>
        if Ascii.eqb c "-"%char then (true, r)
        else if Ascii.eqb c "+"%char then (false, r)
        else (false, s1)
    | EmptyString => (false, s1)
    end in
  let ds := takeWhile isDigit s2 in
  if isEmpty ds then NaN
  else Num (if neg then (- digitsValue ds)%Z else digitsValue ds).

(** [parts[0]]: indexing past the end gives [undefined], which [parseInt]
    reads as the text "undefined". *)
Definition firstPart (parts : list string) : string :=
  match parts with
  | [] => "undefined"
  | p :: _ => p
  end.

(** [String(n)] for the numbers above, as in a template literal: the plain
    decimal digits, which is the spelling of the script below 10^21. *)
Definition numToString (n : jsnum) : string :=
  match n with
  | NaN => "NaN"
  | Num z =>
      match z with
      | Z0 => "0"
      | Zpos p => NilEmpty.string_of_uint (Pos.to_uint p)
      | Zneg p => String "-"%char (NilEmpty.string_of_uint (Pos.to_uint p))
      end
  end.

End Js.

Import Js.

(** ** Process Locator (main, lines 18-85) *)

Inductive Platform : Type := Darwin | Win32 | Linux.

(** Lines 18-20. *)
Definition processName (platform : Platform) : string :=
  match platform with
  | Darwin => "language_server_macos"
  | Win32 => "language_server_windows_x64.exe"
  | Linux => "language_server_linux"
  end.

Definition dquote : string := String (ascii_of_nat 34) EmptyString.

(** Lines 24-29. *)
Definition psCommand (platform : Platform) : string :=
  match platform with
  | Win32 =>
      "wmic process where " ++ dquote ++ "name='" ++ processName platform ++ "'"
        ++ dquote ++ " get commandline,processid /format:list"
  | _ =>
      "ps -ww -eo pid,args | grep " ++ dquote ++ processName platform ++ dquote
        ++ " | grep -v grep"
  end.

Record ProcessCandidate : Type := mkCandidate {
  pid : jsnum;
  csrfToken : string
}.

(** *** The credential pattern [/--csrf_token[=\s]+([a-f0-9\-]+)/i] *)

Definition csrfFlag : string := "--csrf_token".

Definition toLower (c : ascii) : ascii :=
  let n := nat_of_ascii c in
  if Nat.leb 65 n && Nat.leb n 90 then ascii_of_nat (n + 32) else c.

(** The literal part of the pattern under the [i] flag: letters match in
    either case. *)
Fixpoint startsWithCI (p s : string) : bool :=
  match p, s with
  | EmptyString, _ => true
  | String a p', String b s' =>
      Ascii.eqb (toLower a) (toLower b) && startsWithCI p' s'
  | String _ _, EmptyString => false
  end.

(** The class [[=\s]]. *)
Definition isFlagSep (c : ascii) : bool :=
  Ascii.eqb c "="%char || isWhiteSpace c.

(** The class [[a-f0-9\-]] under the [i] flag. *)
Definition isTokenChar (c : ascii) : bool :=
  let n := nat_of_ascii (toLower c) in
  (Nat.leb 97 n && Nat.leb n 102) || isDigit c || Ascii.eqb c "-"%char.

(** An attempt of the pattern at the start of [s], giving group 1.  Both
    repetitions are greedy; the two classes share no character, so giving
    back characters of the first can never let the second succeed. *)
Definition csrfTokenHere (s : string) : option string :=
  if startsWithCI csrfFlag s then
    let r := substringFrom (String.length csrfFlag) s in
    let seps := takeWhile isFlagSep r in
    let tok := takeWhile isTokenChar (dropWhile isFlagSep r) in
    if isEmpty seps then None
    else if isEmpty tok then None
    else Some tok
  else None.

(** [s.match(pattern)] followed by [[1]]: the leftmost position at which
    the pattern matches; [None] stands for the [null] of a failed match. *)
Fixpoint csrfTokenMatch (s : string) : option string :=
  match csrfTokenHere s with
  | Some tok => Some tok
  | None =>
      match s with
      | EmptyString => None
      | String _ s' => csrfTokenMatch s'
      end
  end.

(** *** Non-Windows listing (lines 64-76) *)

(** The body of the loop for one line: the candidate it pushes, if any. *)
Definition unixLineCandidate (line : string) : option ProcessCandidate :=
  let parts := splitWs (trim line) in
  let pidVal := parseInt (firstPart parts) in
  let tokenMatch := csrfTokenMatch line in
  match tokenMatch with
  | Some tok =>
      if negb (isNaN pidVal) then Some (mkCandidate pidVal tok) else None
  | None => None
  end.

Definition pushOpt {A : Type} (acc : list A) (o : option A) : list A :=
  match o with
  | Some a => acc ++ [a]
  | None => acc
  end.

Definition unixCandidates (psStdout : string) : list ProcessCandidate :=
  let lines := splitLF (trim psStdout) in
  fold_left (fun candidates line => pushOpt candidates (unixLineCandidate line))
            lines [].

(** *** Windows listing (lines 41-62) *)

Record WmicState : Type := mkWmic {
  currentCmd : string;
  currentPid : string;
  wmicCandidates : list ProcessCandidate
}.

Definition wmicStep (st : WmicState) (line : string) : WmicState :=
  if startsWith "CommandLine=" line then
    mkWmic (substringFrom 12 line) (currentPid st) (wmicCandidates st)
  else if startsWith "ProcessId=" line then
    let curPid := substringFrom 10 line in
    let pushed :=
      if truthy (currentCmd st) && truthy curPid then
        match csrfTokenMatch (currentCmd st) with
        | Some tok => wmicCandidates st ++ [mkCandidate (parseInt curPid) tok]
        | None => wmicCandidates st
        end
      else wmicCandidates st in
    mkWmic EmptyString EmptyString pushed
  else st.

Definition win32Candidates (psStdout : string) : list ProcessCandidate :=
  let lines := filter (fun l => truthy (trim l)) (splitCRLF (trim psStdout)) in
  wmicCandidates
    (fold_left wmicStep lines (mkWmic EmptyString EmptyString [])).

(** Lines 38-77. *)
Definition extractCandidates (platform : Platform) (psStdout : string)
  : list ProcessCandidate :=
  match platform with
  | Win32 => win32Candidates psStdout
  | _ => unixCandidates psStdout
  end.

(** *** Deduplication by pid (line 84) *)

(** [new Map(entries)]: a key keeps the position of its first insertion and
    takes the value of its last. *)
Fixpoint mapSet {V : Type} (m : list (jsnum * V)) (k : jsnum) (v : V)
  : list (jsnum * V) :=
  match m with
  | [] => [(k, v)]
  | (k', v') :: rest =>
      if sameValueZero k' k then (k', v) :: rest
      else (k', v') :: mapSet rest k v
  end.

Definition mapOfEntries {V : Type} (entries : list (jsnum * V))
  : list (jsnum * V) :=
  fold_left (fun m kv => mapSet m (fst kv) (snd kv)) entries [].

Definition mapValues {V : Type} (m : list (jsnum * V)) : list V := map snd m.

Definition uniqueCandidates (candidates : list ProcessCandidate)
  : list ProcessCandidate :=
  mapValues (mapOfEntries (map (fun item => (pid item, item)) candidates)).

(** ** The outside world and the effects of the script *)

(** What an HTTPS request can emit, in the handlers' terms: the response
    callback with its status code, the [error] event, the [timeout] event. *)
Inductive ReqEvent : Type :=
| EvResponse (statusCode : Z)
| EvError
| EvTimeout.

(** The environment of one run.  [execAsync cmd] is the standard output of
    the command, or [None] when the promise of [execAsync] is rejected
    (missing binary, non-zero exit status).  [httpsRequest port token] is the
    sequence of events the request emits; [discoverTime] and [probeTime] are
    the instants at which the branches of the two fan-outs complete. *)
Record World : Type := mkWorld {
  platform : Platform;
  execAsync : string -> option string;
  httpsRequest : jsnum -> string -> list ReqEvent;
  discoverTime : jsnum -> nat;
  probeTime : jsnum -> nat
}.

(** External operations, as recorded in the log. *)
Inductive Op : Type :=
| OpExec (cmd : string)
| OpRequest (port : jsnum) (token : string).

(** The errors thrown in [main], by line, and the rejection of [execAsync]. *)
Inductive Failure : Type :=
| ExecFailed (cmd : string)
| ProcessNotFound          (* line 34 *)
| NoCredentialFound        (* line 80 *)
| NoListeningPort          (* line 109 *)
| NoRespondingEndpoint     (* line 132 *)
| RequestRefused (port : jsnum).  (* thrown by [https.request] itself *)

(** Outcome of an asynchronous computation: a value, an exception, or a
    promise that is never settled. *)
Inductive Res (A : Type) : Type :=
| Ok (a : A)
| Throw (e : Failure)
| Hang.
Arguments Ok {A} a.
Arguments Throw {A} e.
Arguments Hang {A}.

Definition IO (A : Type) : Type := list Op -> Res A * list Op.

Definition ret {A : Type} (a : A) : IO A := fun log => (Ok a, log).

Definition throw {A : Type} (e : Failure) : IO A := fun log => (Throw e, log).

Definition bind {A B : Type} (m : IO A) (k : A -> IO B) : IO B :=
  fun log =>
    match m log with
    | (Ok a, log') => k a log'
    | (Throw e, log') => (Throw e, log')
    | (Hang, log') => (Hang, log')
    end.

Definition tryCatch {A : Type} (m : IO A) (handler : Failure -> IO A) : IO A :=
  fun log =>
    match m log with
    | (Throw e, log') => handler e log'
    | r => r
    end.

Notation "x <- m ;; k" := (bind m (fun x => k))
  (at level 61, m at next level, right associativity).

(** [await execAsync(cmd)] and its [stdout].  A command returns or fails;
    [execAsync] is called without a timeout, and a command that never
    terminates is not represented. *)
Definition exec (w : World) (cmd : string) : IO string :=
  fun log =>
    (match execAsync w cmd with
     | Some stdout => Ok stdout
     | None => Throw (ExecFailed cmd)
     end, log ++ [OpExec cmd]).

(** ** Port Discoverer (getListeningPorts, lines 151-189) *)

Record Command : Type := mkCommand {
  name : string;
  cmd : string
}.

(** Lines 153-163. *)
Definition commands (platform : Platform) (pid : jsnum) : list Command :=
  match platform with
  | Darwin =>
      [mkCommand "lsof" ("lsof -Pan -p " ++ numToString pid ++ " -i")]
  | Win32 =>
      [mkCommand "netstat"
         ("netstat -ano | findstr LISTENING | findstr " ++ numToString pid)]
  | Linux =>
      [mkCommand "ss"
         ("ss -tlnp | grep " ++ dquote ++ "pid=" ++ numToString pid ++ ","
            ++ dquote);
       mkCommand "netstat" ("netstat -tulpn | grep " ++ numToString pid);
       mkCommand "lsof" ("lsof -Pan -p " ++ numToString pid ++ " -i")]
  end.

(** Lines 165-175: the loop over the commands.  The accumulator is
    [portStdout]; an exception of a command is caught and ignored. *)
Fixpoint runCommands (w : World) (cs : list Command) (portStdout : string)
  : IO string :=
  match cs with
  | [] => ret portStdout
  | c :: rest =>
      found <- tryCatch
                 (stdout <- exec w (cmd c) ;;
                  if truthy (trim stdout) then ret (Some stdout) else ret None)
                 (fun _ => ret None) ;;
      match found with
      | Some stdout => ret stdout
      | None => runCommands w rest portStdout
      end
  end.

(** The pattern of line 181 is an alternation of five literal address forms
    (127.0.0.1, localhost, 0.0.0.0, the bracketed ::1 and the star), then a
    colon, then the group of one or more digits.  These are the forms, in the
    order of the alternation. *)
Definition addressForms : list string :=
  ["127.0.0.1"; "localhost"; "0.0.0.0"; "[::1]"; "*"].

(** One alternative at the start of [s], then the colon and the greedy run
    of digits, which is group 1. *)
Definition portAfter (form s : string) : option string :=
  if startsWith form s then
    match substringFrom (String.length form) s with
    | String c r =>
        if Ascii.eqb c ":"%char then
          let ds := takeWhile isDigit r in
          if isEmpty ds then None else Some ds
        else None
    | EmptyString => None
    end
  else None.

Fixpoint firstSome {A B : Type} (f : A -> option B) (l : list A) : option B :=
  match l with
  | [] => None
  | a :: rest =>
      match f a with
      | Some b => Some b
      | None => firstSome f rest
      end
  end.

Definition portHere (s : string) : option string :=
  firstSome (fun form => portAfter form s) addressForms.

(** [line.match(pattern)] followed by [[1]]: leftmost match. *)
Fixpoint portMatch (line : string) : option string :=
  match portHere line with
  | Some ds => Some ds
  | None =>
      match line with
      | EmptyString => None
      | String _ line' => portMatch line'
      end
  end.

(** Lines 180-186: the body of the loop over the lines. *)
Definition addPort (ports : list jsnum) (line : string) : list jsnum :=
  match portMatch line with
  | Some m1 =>
      if truthy m1 then
        let port := parseInt m1 in
        if existsb (sameValueZero port) ports then ports else ports ++ [port]
      else ports
  | None => ports
  end.

(** Lines 177-188. *)
Definition parsePorts (portStdout : string) : list jsnum :=
  if truthy portStdout then fold_left addPort (splitLF portStdout) []
  else [].

Definition getListeningPorts (w : World) (pid : jsnum) : IO (list jsnum) :=
  portStdout <- runCommands w (commands (platform w) pid) EmptyString ;;
  ret (parsePorts portStdout).

(** ** Port Prober (testPort, lines 194-220) *)

(** State of a promise. *)
Inductive Promise (A : Type) : Type :=
| Pending
| Fulfilled (a : A)
| Rejected (e : Failure).
Arguments Pending {A}.
Arguments Fulfilled {A} a.
Arguments Rejected {A} e.

(** [resolve(a)]: only the first settlement counts. *)
Definition resolve {A : Type} (p : Promise A) (a : A) : Promise A :=
  match p with
  | Pending => Fulfilled a
  | _ => p
  end.

(** The three handlers of lines 211-216. *)
Definition testPortHandler (p : Promise bool) (ev : ReqEvent) : Promise bool :=
  match ev with
  | EvResponse statusCode => resolve p (Z.eqb statusCode 200)
  | EvError => resolve p false
  | EvTimeout => resolve p false
  end.

Definition testPortPromise (events : list ReqEvent) : Promise bool :=
  fold_left testPortHandler events Pending.

Definition await {A : Type} (p : Promise A) : Res A :=
  match p with
  | Pending => Hang
  | Fulfilled a => Ok a
  | Rejected e => Throw e
  end.

(** One call issues one request (line 211) and awaits the promise.  The
    call of [https.request] is taken to hand back the request object, whose
    events then drive the handlers: this is the prober on the ports that
    [https.request] accepts.  [testPortChecked] below adds the refusal of the
    other ports. *)
Definition testPort (w : World) (port : jsnum) (token : string) : IO bool :=
  fun log =>
    (await (testPortPromise (httpsRequest w port token)),
     log ++ [OpRequest port token]).

(** ** Promise.all *)

(** Every task is started, in list order, whatever the others do.  The
    log lists the operations of one branch after those of the branch before
    it; the real branches interleave at each [await]. *)
Fixpoint startAll {A : Type} (tasks : list (IO A)) (log : list Op)
  : list (Res A) * list Op :=
  match tasks with
  | [] => ([], log)
  | t :: rest =>
      let '(r, log1) := t log in
      let '(rs, log2) := startAll rest log1 in
      (r :: rs, log2)
  end.

(** A branch of a fan-out once it has run: when it completes, its position
    in the input array, its outcome. *)
Record Completion (A : Type) : Type := mkCompletion {
  doneAt : nat;
  slot : nat;
  outcome : Res A
}.
Arguments mkCompletion {A} doneAt slot outcome.
Arguments doneAt {A} c.
Arguments slot {A} c.
Arguments outcome {A} c.

Fixpoint completionsFrom {A : Type} (i : nat) (l : list (nat * Res A))
  : list (Completion A) :=
  match l with
  | [] => []
  | (t, r) :: rest => mkCompletion t i r :: completionsFrom (S i) rest
  end.

(** Completions in the order of their instants (earlier first; branches that
    complete at the same instant keep the order of the array). *)
Fixpoint insertByTime {A : Type} (c : Completion A) (l : list (Completion A))
  : list (Completion A) :=
  match l with
  | [] => [c]
  | d :: rest =>
      if Nat.leb (doneAt c) (doneAt d) then c :: d :: rest
      else d :: insertByTime c rest
  end.

Definition sortByTime {A : Type} (l : list (Completion A))
  : list (Completion A) :=
  fold_right insertByTime [] l.

Fixpoint update {A : Type} (i : nat) (x : A) (l : list A) : list A :=
  match l, i with
  | [], _ => []
  | _ :: t, O => x :: t
  | h :: t, S k => h :: update k x t
  end.

Fixpoint allSome {A : Type} (l : list (option A)) : option (list A) :=
  match l with
  | [] => Some []
  | Some a :: rest =>
      match allSome rest with
      | Some r => Some (a :: r)
      | None => None
      end
  | None :: _ => None
  end.

(** The aggregate keeps one slot per input promise and the first rejection.
    A fulfilled branch writes its own slot; a branch that never settles does
    nothing. *)
Definition settleOne {A : Type} (st : list (option A) * option Failure)
  (c : Completion A) : list (option A) * option Failure :=
  match outcome c with
  | Ok v => (update (slot c) (Some v) (fst st), snd st)
  | Throw e => (fst st, match snd st with None => Some e | Some e0 => Some e0 end)
  | Hang => st
  end.

Definition settleAll {A : Type} (order : list (Completion A)) (n : nat)
  : Res (list A) :=
  let st := fold_left settleOne order (repeat None n, None) in
  match snd st with
  | Some e => Throw e
  | None =>
      match allSome (fst st) with
      | Some vs => Ok vs
      | None => Hang
      end
  end.

(** [await Promise.all(tasks)], each task given with the instant at which it
    completes. *)
Definition promiseAll {A : Type} (tasks : list (nat * IO A)) : IO (list A) :=
  fun log =>
    let '(rs, log') := startAll (map snd tasks) log in
    (settleAll (sortByTime (completionsFrom 0 (combine (map fst tasks) rs)))
               (List.length rs),
     log').

(** ** Endpoint Resolver (main, lines 13-135) *)

Record PortCandidate : Type := mkPortCandidate {
  port : jsnum;
  token : string;
  ownerPid : jsnum
}.

Record ResolvedEndpoint : Type := mkEndpoint {
  workingPort : jsnum;
  validToken : string
}.

(** Lines 92-99: the branch of one candidate. *)
Definition discoverFor (w : World) (cand : ProcessCandidate)
  : IO (list PortCandidate) :=
  tryCatch
    (ports <- getListeningPorts w (pid cand) ;;
     ret (map (fun p => mkPortCandidate p (csrfToken cand) (pid cand)) ports))
    (fun _ => ret []).

(** [Array.from(new Set(xs))]: members in the order of first insertion. *)
Definition setAdd (s : list jsnum) (x : jsnum) : list jsnum :=
  if existsb (sameValueZero x) s then s else s ++ [x].

Definition setOf (xs : list jsnum) : list jsnum := fold_left setAdd xs [].

(** Line 113. *)
Definition uniquePorts (allPorts : list PortCandidate) : list jsnum :=
  setOf (map port allPorts).

(** Line 118. *)
Definition matchingCandidate (allPorts : list PortCandidate) (p : jsnum)
  : option PortCandidate :=
  find (fun wp => strictEq (port wp) p) allPorts.

(** Lines 117-126: the branch of one port. *)
Definition probeOne (w : World) (allPorts : list PortCandidate) (p : jsnum)
  : IO (option ResolvedEndpoint) :=
  match matchingCandidate allPorts p with
  | None => ret None
  | Some mc =>
      isWorking <- testPort w p (token mc) ;;
      if isWorking then ret (Some (mkEndpoint p (token mc))) else ret None
  end.

Definition notNull {A : Type} (r : option A) : bool :=
  match r with Some _ => true | None => false end.

(** Lines 128-135. *)
Definition selectValid (results : list (option ResolvedEndpoint))
  : IO ResolvedEndpoint :=
  match find notNull results with
  | Some (Some validResult) => ret validResult
  | _ => throw NoRespondingEndpoint
  end.

(** Lines 113-135: deduplication and probing. *)
Definition probeAll (w : World) (allPorts : list PortCandidate)
  : IO (list (option ResolvedEndpoint)) :=
  promiseAll (map (fun p => (probeTime w p, probeOne w allPorts p))
                  (uniquePorts allPorts)).

Definition probeStage (w : World) (allPorts : list PortCandidate)
  : IO ResolvedEndpoint :=
  results <- probeAll w allPorts ;;
  selectValid results.

(** *** The prober with the check of the port *)

(** [https.request] is called inside the executor of the promise (line
    211).  The client validates the port when it opens the socket: a port
    outside 0..65535 makes the call throw, before any handler is registered.
    A port that is not a number, or 0, is replaced by the default port. *)
Definition requestAccepts (port : jsnum) : bool :=
  match port with
  | NaN => true
  | Num z => Z.leb 0 z && Z.ltb z 65536
  end.

(** [new Promise(executor)]: an exception of the executor rejects the
    promise; otherwise the events of the request drive the handlers. *)
Definition testPortCheckedPromise (w : World) (port : jsnum) (token : string)
  : Promise bool :=
  if requestAccepts port then testPortPromise (httpsRequest w port token)
  else Rejected (RequestRefused port).

Definition testPortChecked (w : World) (port : jsnum) (token : string)
  : IO bool :=
  fun log =>
    (await (testPortCheckedPromise w port token),
     log ++ [OpRequest port token]).

Definition probeOneChecked (w : World) (allPorts : list PortCandidate)
  (p : jsnum) : IO (option ResolvedEndpoint) :=
  match matchingCandidate allPorts p with
  | None => ret None
  | Some mc =>
      isWorking <- testPortChecked w p (token mc) ;;
      if isWorking then ret (Some (mkEndpoint p (token mc))) else ret None
  end.

Definition probeAllChecked (w : World) (allPorts : list PortCandidate)
  : IO (list (option ResolvedEndpoint)) :=
  promiseAll (map (fun p => (probeTime w p, probeOneChecked w allPorts p))
                  (uniquePorts allPorts)).

Definition probeStageChecked (w : World) (allPorts : list PortCandidate)
  : IO ResolvedEndpoint :=
  results <- probeAllChecked w allPorts ;;
  selectValid results.

(** Lines 91-102: port discovery for every candidate. *)
Definition discoverStage (w : World) (cands : list ProcessCandidate)
  : IO (list PortCandidate) :=
  pidPortResults <- promiseAll
                      (map (fun cand => (discoverTime w (pid cand),
                                         discoverFor w cand)) cands) ;;
  ret (concat pidPortResults).

(** [main] up to the choice of the working port; what follows (lines
    137-143) fetches and prints the quota.  A [Throw] is the error that the
    handler of line 145 reports before exiting with status 1. *)
Definition main (w : World) : IO ResolvedEndpoint :=
  psStdout <- exec w (psCommand (platform w)) ;;
  if negb (truthy (trim psStdout)) then throw ProcessNotFound
  else
    let candidates := extractCandidates (platform w) psStdout in
    if Nat.eqb (List.length candidates) 0 then throw NoCredentialFound
    else
      allPorts <- discoverStage w (uniqueCandidates candidates) ;;
      if Nat.eqb (List.length allPorts) 0 then throw NoListeningPort
      else probeStage w allPorts.

(** ** The selection rule as the specification words it *)

(** Probe jobs of the run: each unique port with the token it is probed
    with. *)
Definition probeJobs (allPorts : list PortCandidate)
  : list (jsnum * string) :=
  flat_map (fun p => match matchingCandidate allPorts p with
                     | Some mc => [(p, token mc)]
                     | None => []
                     end) (uniquePorts allPorts).

Definition probeSucceeds (w : World) (job : jsnum * string) : bool :=
  match testPortPromise (httpsRequest w (fst job) (snd job)) with
  | Fulfilled true => true
  | _ => false
  end.

Fixpoint insertJob (w : World) (j : jsnum * string)
  (l : list (jsnum * string)) : list (jsnum * string) :=
  match l with
  | [] => [j]
  | k :: rest =>
      if Nat.leb (probeTime w (fst j)) (probeTime w (fst k)) then j :: k :: rest
      else k :: insertJob w j rest
  end.

(** Follows the specification: the first candidate, by completion and not by
    list order, whose probe succeeds. *)
Definition firstSuccessByCompletion (w : World)
  (allPorts : list PortCandidate) : option ResolvedEndpoint :=
  match filter (probeSucceeds w)
               (fold_right (insertJob w) [] (probeJobs allPorts)) with
  | [] => None
  | j :: _ => Some (mkEndpoint (fst j) (snd j))
  end.

(** What the code selects: the first success in the order of the
    deduplicated port list. *)
Definition firstSuccessInListOrder (w : World)
  (allPorts : list PortCandidate) : option ResolvedEndpoint :=
  match filter (probeSucceeds w) (probeJobs allPorts) with
  | [] => None
  | j :: _ => Some (mkEndpoint (fst j) (snd j))
  end.

(** ** Auxiliary notions used in the statements *)

(** [map.get(k)]: the value stored under a key. *)
Fixpoint mapGet {V : Type} (m : list (jsnum * V)) (k : jsnum) : option V :=
  match m with
  | [] => None
  | (k', v) :: rest => if sameValueZero k' k then Some v else mapGet rest k
  end.

(** The last value given for a key in a list of entries. *)
Fixpoint lastFor {V : Type} (entries : list (jsnum * V)) (k : jsnum)
  : option V :=
  match entries with
  | [] => None
  | (k', v) :: rest =>
      match lastFor rest k with
      | Some v' => Some v'
      | None => if sameValueZero k' k then Some v else None
      end
  end.

(** A computation that, from any log, gives outcome [r] and records [ops]. *)
Definition Runs {A : Type} (t : IO A) (r : Res A) (ops : list Op) : Prop :=
  forall log, t log = (r, log ++ ops).

(** The verdict that the handlers of [testPort] draw from one event. *)
Definition eventVerdict (ev : ReqEvent) : bool :=
  match ev with
  | EvResponse statusCode => Z.eqb statusCode 200
  | EvError => false
  | EvTimeout => false
  end.

(** Outcome and operations of the branch of one port (lines 117-126). *)
Definition probeOutcome (w : World) (allPorts : list PortCandidate)
  (p : jsnum) : Res (option ResolvedEndpoint) :=
  match matchingCandidate allPorts p with
  | None => Ok None
  | Some mc =>
      match await (testPortPromise (httpsRequest w p (token mc))) with
      | Ok true => Ok (Some (mkEndpoint p (token mc)))
      | Ok false => Ok None
      | Throw e => Throw e
      | Hang => Hang
      end
  end.

Definition probeOps (allPorts : list PortCandidate) (p : jsnum) : list Op :=
  match matchingCandidate allPorts p with
  | None => []
  | Some mc => [OpRequest p (token mc)]
  end.

Definition jobRequest (job : jsnum * string) : Op :=
  OpRequest (fst job) (snd job).

(** The value of the branch of one port when its request has emitted an
    event. *)
Definition probeValue (w : World) (allPorts : list PortCandidate)
  (p : jsnum) : option ResolvedEndpoint :=
  match matchingCandidate allPorts p with
  | None => None
  | Some mc =>
      if probeSucceeds w (p, token mc) then Some (mkEndpoint p (token mc))
      else None
  end.

Definition isRequestTo (p : jsnum) (op : Op) : bool :=
  match op with
  | OpRequest q _ => sameValueZero q p
  | OpExec _ => false
  end.

Definition pidEntries (candidates : list ProcessCandidate)
  : list (jsnum * ProcessCandidate) :=
  map (fun item => (pid item, item)) candidates.

(** The claim that the resolver returns the first success by completion. *)
Definition SelectsFirstByCompletion (w : World)
  (allPorts : list PortCandidate) : Prop :=
  fst (probeStage w allPorts []) =
  match firstSuccessByCompletion w allPorts with
  | Some e => Ok e
  | None => Throw NoRespondingEndpoint
  end.

(** The same world with other instants of completion for the probes. *)
Definition withProbeTime (w : World) (t : jsnum -> nat) : World :=
  mkWorld (platform w) (execAsync w) (httpsRequest w) (discoverTime w) t.

(** ** Sample runs *)

Definition nl : string := String LF EmptyString.

Definition ssCommand (pidText : string) : string :=
  "ss -tlnp | grep " ++ dquote ++ "pid=" ++ pidText ++ "," ++ dquote.

(** A Linux host with one language server, pid 777, listening on two ports
    that both answer 200; the probe of the second port completes first. *)
Definition raceListing : string :=
  "  777 /opt/x/language_server_linux --csrf_token abcd-1234-ef00 --port 1" ++ nl.

Definition raceSockets : string :=
  "LISTEN 0 4096 127.0.0.1:42100 0.0.0.0:* pid=777," ++ nl ++
  "LISTEN 0 4096 127.0.0.1:42101 0.0.0.0:* pid=777," ++ nl.

Definition raceWorld : World :=
  mkWorld Linux
    (fun c =>
       if String.eqb c (psCommand Linux) then Some raceListing
       else if String.eqb c (ssCommand "777") then Some raceSockets
       else None)
    (fun p _ => [EvResponse 200])
    (fun _ => 0)
    (fun p => match p with Num 42100 => 9 | _ => 1 end).

Definition racePorts : list PortCandidate :=
  [mkPortCandidate (Num 42100) "abcd-1234-ef00" (Num 777);
   mkPortCandidate (Num 42101) "abcd-1234-ef00" (Num 777)].

(** Three candidates, two of which report port 42100. *)
Definition sharedPorts : list PortCandidate :=
  [mkPortCandidate (Num 42101) "bbbb" (Num 2);
   mkPortCandidate (Num 42100) "aaaa" (Num 1);
   mkPortCandidate (Num 42100) "cccc" (Num 3)].

(** A listing in which pid 123 appears on two lines. *)
Definition twiceListing : string :=
  "  123 /opt/x/language_server_linux --csrf_token abcd-1234-ef00" ++ nl ++
  "  456 /opt/y/language_server_linux --csrf_token=99-aa" ++ nl ++
  "  123 /opt/x/language_server_linux --csrf_token 0123-4567" ++ nl.

(** A Linux host whose language server was started without the flag. *)
Definition noTokenListing : string :=
  "  777 /opt/x/language_server_linux --port 1" ++ nl.

Definition noTokenWorld : World :=
  mkWorld Linux
    (fun c => if String.eqb c (psCommand Linux) then Some noTokenListing
              else None)
    (fun _ _ => [EvError])
    (fun _ => 0)
    (fun _ => 0).

(** The claim that a run without candidates ends with the process-not-found
    error. *)
Definition ZeroCandidatesGiveProcessNotFound (w : World) : Prop :=
  forall psStdout,
    execAsync w (psCommand (platform w)) = Some psStdout ->
    extractCandidates (platform w) psStdout = [] ->
    fst (main w []) = Throw ProcessNotFound.

(** A command whose invocation fails or whose output is blank. *)
Definition failedOrBlank (w : World) (c : Command) : bool :=
  match execAsync w (cmd c) with
  | None => true
  | Some stdout => negb (truthy (trim stdout))
  end.

Definition execOp (c : Command) : Op := OpExec (cmd c).

(** A tool that has a successor in the list is piped through grep, which
    prints the matching lines only and fails when there is none: when such a
    tool returns a text that is not empty, the text is not made of white
    space alone. *)
Definition printsNoBlankText (w : World) (c : Command) : bool :=
  match execAsync w (cmd c) with
  | Some stdout => implb (truthy stdout) (truthy (trim stdout))
  | None => true
  end.

Definition filteredToolsPrintMatches (w : World) (pid : jsnum) : bool :=
  forallb (printsNoBlankText w) (removelast (commands (platform w) pid)).

(** A tool that fails or returns the empty string. *)
Definition failedOrEmpty (w : World) (c : Command) : Prop :=
  execAsync w (cmd c) = None \/ execAsync w (cmd c) = Some EmptyString.

Definition netstatListen : string :=
  "tcp 0 0 127.0.0.1:8080 0.0.0.0:* LISTEN 777/language_ser" ++ nl.

(** A Linux host on which [ss] finds no socket of the process (grep fails)
    and [netstat] prints a listening socket. *)
Definition fallbackWorld : World :=
  mkWorld Linux
    (fun c =>
       if String.eqb c "netstat -tulpn | grep 777"
       then Some netstatListen
       else None)
    (fun _ _ => [EvError])
    (fun _ => 0)
    (fun _ => 0).

(** The claim that every discovered port lies between 1 and 65535. *)
Definition DiscoveredPortsInRange (w : World) (pid : jsnum) : Prop :=
  forall ports p,
    fst (getListeningPorts w pid []) = Ok ports ->
    In p ports ->
    exists z, p = Num z /\ (1 <= z <= 65535)%Z.

(** A Linux host whose socket tool prints port numbers outside that range. *)
Definition wideSockets : string :=
  "LISTEN 0 128 127.0.0.1:70000 0.0.0.0:* pid=777," ++ nl ++
  "LISTEN 0 128 *:0 *:* pid=777," ++ nl.

Definition wideWorld : World :=
  mkWorld Linux
    (fun c => if String.eqb c (ssCommand "777") then Some wideSockets
              else None)
    (fun _ _ => [EvError])
    (fun _ => 0)
    (fun _ => 0).

(** Two listening sockets, as the socket tools of Linux print them. *)
Definition listeningText : string :=
  "tcp 0 0 127.0.0.1:4050 0.0.0.0:* LISTEN 777/language_ser" ++ nl ++
  "tcp 0 0 0.0.0.0:9090 0.0.0.0:* LISTEN 777/language_ser" ++ nl.

(** A connection of the process to another local service, as lsof prints
    it. *)
Definition establishedLine : string :=
  "language_ 777 me 12u IPv4 0x3 0t0 TCP 127.0.0.1:52344->127.0.0.1:443 (ESTABLISHED)".

(** A macOS host: lsof lists one listening socket and that connection. *)
Definition lsofOutput : string :=
  "COMMAND PID USER FD TYPE DEVICE SIZE/OFF NODE NAME" ++ nl ++
  "language_ 777 me 10u IPv4 0x1 0t0 TCP 127.0.0.1:42100 (LISTEN)" ++ nl ++
  establishedLine ++ nl.

Definition darwinWorld : World :=
  mkWorld Darwin
    (fun c => if String.eqb c "lsof -Pan -p 777 -i" then Some lsofOutput
              else None)
    (fun _ _ => [EvError])
    (fun _ => 0)
    (fun _ => 0).

(** Position of the first occurrence of the flag in a line, letters taken
    in either case. *)
Fixpoint flagIndex (s : string) : option nat :=
  if startsWithCI csrfFlag s then Some 0
  else match s with
       | EmptyString => None
       | String _ s' => option_map S (flagIndex s')
       end.

Definition headSatisfies (p : ascii -> bool) (s : string) : bool :=
  match s with
  | EmptyString => false
  | String c _ => p c
  end.

(** A lowercase hexadecimal digit or a hyphen. *)
Definition isLowerHexOrHyphen (c : ascii) : bool :=
  let n := nat_of_ascii c in
  (Nat.leb 97 n && Nat.leb n 102) || isDigit c || Ascii.eqb c "-"%char.

(** The claim that every extracted token is made of lowercase hexadecimal
    digits and hyphens. *)
Definition TokensAreLowercaseHex : Prop :=
  forall platform psStdout c,
    In c (extractCandidates platform psStdout) ->
    allChars isLowerHexOrHyphen (csrfToken c) = true.

(** A listing whose token is written in capitals. *)
Definition capitalsListing : string :=
  "  42 /opt/x/language_server_linux --csrf_token ABCD-12 --port 1" ++ nl.

(** [s.includes(needle)]. *)
Fixpoint containsStr (needle s : string) : bool :=
  startsWith needle s
  || match s with
     | EmptyString => false
     | String _ s' => containsStr needle s'
     end.

(** The marker of the listening state in the output of the socket tools
    (LISTEN for ss, netstat and lsof, LISTENING for the Windows netstat). *)
Definition hasListeningMarker (line : string) : bool :=
  containsStr "LISTEN" line.

(** The claim that the parser collects ports only from lines that carry the
    listening marker. *)
Definition CollectsOnlyFromListeningLines : Prop :=
  forall portStdout p,
    In p (parsePorts portStdout) ->
    exists line ds,
      In line (splitLF portStdout)
      /\ hasListeningMarker line = true
      /\ portMatch line = Some ds
      /\ p = parseInt ds.

(** ** Pure reading of the stages *)

(** The ports that one line contributes. *)
Definition linePorts (line : string) : list jsnum :=
  match portMatch line with
  | Some ds => [parseInt ds]
  | None => []
  end.

(** The text that the loop of lines 165-175 leaves in [portStdout]. *)
Fixpoint chosenOutput (w : World) (cs : list Command) (acc : string)
  : string :=
  match cs with
  | [] => acc
  | c :: rest =>
      match execAsync w (cmd c) with
      | Some stdout =>
          if truthy (trim stdout) then stdout else chosenOutput w rest acc
      | None => chosenOutput w rest acc
      end
  end.

(** The commands that the loop invokes: up to the first one whose output
    is kept. *)
Fixpoint triedCommands (w : World) (cs : list Command) : list Command :=
  match cs with
  | [] => []
  | c :: rest =>
      c :: (if failedOrBlank w c then triedCommands w rest else [])
  end.

Definition discoveredPorts (w : World) (pid : jsnum) : list jsnum :=
  parsePorts (chosenOutput w (commands (platform w) pid) EmptyString).

Definition portCandidatesOf (w : World) (cand : ProcessCandidate)
  : list PortCandidate :=
  map (fun p => mkPortCandidate p (csrfToken cand) (pid cand))
      (discoveredPorts w (pid cand)).

Definition discoverOps (w : World) (cand : ProcessCandidate) : list Op :=
  map execOp (triedCommands w (commands (platform w) (pid cand))).

(** A probe job whose request never emits an event. *)
Definition isSilent (w : World) (job : jsnum * string) : bool :=
  match httpsRequest w (fst job) (snd job) with
  | [] => true
  | _ :: _ => false
  end.

Definition isExecOp (op : Op) : bool :=
  match op with
  | OpExec _ => true
  | OpRequest _ _ => false
  end.

(** The process candidates and the port candidates of a run whose listing
    is [psStdout]. *)
Definition runCandidates (w : World) (psStdout : string)
  : list ProcessCandidate :=
  uniqueCandidates (extractCandidates (platform w) psStdout).

Definition runPorts (w : World) (psStdout : string) : list PortCandidate :=
  flat_map (portCandidatesOf w) (runCandidates w psStdout).

(** The host of [raceWorld] when both ports refuse the probe: one answers
    403, the other lets the request time out. *)
Definition deafWorld : World :=
  mkWorld Linux
    (execAsync raceWorld)
    (fun p _ => match p with
                | Num 42100 => [EvResponse 403]
                | _ => [EvTimeout; EvError]
                end)
    (fun _ => 0)
    (fun _ => 0).

(** The lines of a Windows listing that the loop of lines 45-62 reads. *)
Definition wmicLines (psStdout : string) : list string :=
  filter (fun l => truthy (trim l)) (splitCRLF (trim psStdout)).

Definition countStarting (prefix : string) (lines : list string) : nat :=
  List.length (filter (startsWith prefix) lines).

Definition pendingCmd (st : WmicState) : nat :=
  if truthy (currentCmd st) then 1 else 0.

(** A line of a Windows listing that is neither a command line nor a
    process id. *)
Definition isOtherLine (line : string) : bool :=
  negb (startsWith "CommandLine=" line) && negb (startsWith "ProcessId=" line).

(** Candidate [c] pairs a ProcessId line of [lines] with the nearest
    CommandLine line before it. *)
Definition PairedIn (lines : list string) (c : ProcessCandidate) : Prop :=
  exists before cl between pl after,
    lines = before ++ ("CommandLine=" ++ cl)%string
                   :: between ++ ("ProcessId=" ++ pl)%string :: after
    /\ forallb isOtherLine between = true
    /\ csrfTokenMatch cl = Some (csrfToken c)
    /\ pid c = parseInt pl.

(** A Windows listing of one process, in the list format of wmic. *)
Definition wmicListing : string :=
  "CommandLine=C:\x\language_server_windows_x64.exe --csrf_token abcd-12"
    ++ String CR (String LF EmptyString)
    ++ "ProcessId=4321" ++ String CR (String LF EmptyString).

(** ** Quota Fetcher (fetchUserStatus, lines 225-266) *)

(** What the request of the fetcher can emit: the response callback with
    its status code, a chunk of the body, the end of the body, the [error]
    event of the request. *)
Inductive FetchEvent : Type :=
| FvResponse (statusCode : Z)
| FvData (chunk : string)
| FvEnd
| FvError.

(** The rejections of lines 255, 258 and 262. *)
Inductive FetchError : Type :=
| JsonParseFailed
| ApiRequestFailed (statusCode : Z)
| RequestError.

(** State of a promise that is rejected with an error of type [E]. *)
Inductive Settled (A E : Type) : Type :=
| Unsettled
| ResolvedWith (a : A)
| RejectedWith (e : E).
Arguments Unsettled {A E}.
Arguments ResolvedWith {A E} a.
Arguments RejectedWith {A E} e.

(** [resolve] and [reject]: only the first settlement counts. *)
Definition settle {A E : Type} (p next : Settled A E) : Settled A E :=
  match p with
  | Unsettled => next
  | _ => p
  end.

(** The promise, and the response under way with its status code and the
    text gathered in [data]. *)
Record FetchState (J : Type) : Type := mkFetch {
  fetchPromise : Settled J FetchError;
  fetchResponse : option (Z * string)
}.
Arguments mkFetch {J} fetchPromise fetchResponse.
Arguments fetchPromise {J} f.
Arguments fetchResponse {J} f.

(** Lines 250-260: the handler of [end].  [jsonParse] stands for
    [JSON.parse], [None] for the exception it throws. *)
Definition fetchOnEnd {J : Type} (jsonParse : string -> option J)
  (statusCode : Z) (data : string) : Settled J FetchError :=
  if Z.eqb statusCode 200 then
    match jsonParse data with
    | Some v => ResolvedWith v
    | None => RejectedWith JsonParseFailed
    end
  else RejectedWith (ApiRequestFailed statusCode).

(** Lines 247-262: the handlers.  Chunks and the end of the body are heard
    only once the response callback has registered its listeners. *)
Definition fetchHandler {J : Type} (jsonParse : string -> option J)
  (st : FetchState J) (ev : FetchEvent) : FetchState J :=
  match ev with
  | FvResponse statusCode =>
      mkFetch (fetchPromise st) (Some (statusCode, EmptyString))
  | FvData chunk =>
      match fetchResponse st with
      | Some (statusCode, data) =>
          mkFetch (fetchPromise st) (Some (statusCode, (data ++ chunk)%string))
      | None => st
      end
  | FvEnd =>
      match fetchResponse st with
      | Some (statusCode, data) =>
          mkFetch (settle (fetchPromise st) (fetchOnEnd jsonParse statusCode data))
                  (fetchResponse st)
      | None => st
      end
  | FvError =>
      mkFetch (settle (fetchPromise st) (RejectedWith RequestError))
              (fetchResponse st)
  end.

(** The promise of [fetchUserStatus(port, token)] once the request has
    emitted the events that the server gives for that port and token. *)
Definition fetchUserStatus {J : Type} (jsonParse : string -> option J)
  (server : jsnum -> string -> list FetchEvent) (port : jsnum)
  (token : string) : Settled J FetchError :=
  fetchPromise
    (fold_left (fetchHandler jsonParse) (server port token)
               (mkFetch Unsettled None)).

(** ** main up to the fetch (lines 13-140) *)

Inductive RunFailure : Type :=
| ResolverFailed (e : Failure)
| FetchFailed (e : FetchError).

Inductive RunOp : Type :=
| CoreOp (op : Op)
| OpFetch (port : jsnum) (token : string).

(** [main] through line 140: the resolver, then one call of the fetcher
    with the working port and its token.  An error of either is what the
    handler of line 145 reports. *)
Definition mainWithFetch {J : Type} (jsonParse : string -> option J)
  (w : World) (server : jsnum -> string -> list FetchEvent)
  : Settled J RunFailure * list RunOp :=
  match main w [] with
  | (Ok validResult, log) =>
      (match fetchUserStatus jsonParse server (workingPort validResult)
                             (validToken validResult) with
       | Unsettled => Unsettled
       | ResolvedWith quotaData => ResolvedWith quotaData
       | RejectedWith e => RejectedWith (FetchFailed e)
       end,
       map CoreOp log
         ++ [OpFetch (workingPort validResult) (validToken validResult)])
  | (Throw e, log) => (RejectedWith (ResolverFailed e), map CoreOp log)
  | (Hang, log) => (Unsettled, map CoreOp log)
  end.

(** The text of a body received in chunks. *)
Definition joinChunks (chunks : list string) : string :=
  fold_right String.append EmptyString chunks.

Definition isBodyEvent (ev : FetchEvent) : bool :=
  match ev with
  | FvResponse _ => true
  | FvData _ => true
  | FvEnd => false
  | FvError => false
  end.

Definition isFetchOp (op : RunOp) : bool :=
  match op with
  | OpFetch _ _ => true
  | CoreOp _ => false
  end.

(** A server that answers 200 and sends its body in two chunks, and a
    stand-in for [JSON.parse] that accepts any text opening with a brace. *)
Definition chunkedServer (port : jsnum) (token : string) : list FetchEvent :=
  [FvResponse 200; FvData "{userStatus:"; FvData "{}}"; FvEnd].

Definition bracesParse (text : string) : option string :=
  if startsWith "{" text then Some text else None.

(** A server that sends the head of a response and then stalls. *)
Definition stallingServer (port : jsnum) (token : string) : list FetchEvent :=
  [FvResponse 200; FvData "{"].

(** Position of the leftmost match of the port pattern in a line. *)
Fixpoint portIndex (line : string) : option nat :=
  match portHere line with
  | Some _ => Some 0
  | None =>
      match line with
      | EmptyString => None
      | String _ line' => option_map S (portIndex line')
      end
  end.

(** A line of the Windows netstat: local address, foreign address, state,
    pid. *)
Definition netstatWindowsLine : string :=
  "  TCP    127.0.0.1:42100    0.0.0.0:0    LISTENING    4321".

(** The host of [raceWorld] when no probe request ever emits an event: the
    servers accept the connection and keep the socket busy without
    completing a response, so that the idle timeout never fires. *)
Definition silentWorld : World :=
  mkWorld Linux (execAsync raceWorld) (fun _ _ => []) (fun _ => 0) (fun _ => 0).

(** The same host when port 42100 answers 200 and port 42101 stays silent. *)
Definition halfSilentWorld : World :=
  mkWorld Linux
    (execAsync raceWorld)
    (fun p _ => match p with
                | Num 42100 => [EvResponse 200]
                | _ => []
                end)
    (fun _ => 0)
    (fun _ => 0).

(** The claim that the prober answers true when the request receives a
    response of status 200 and false in every other case. *)
Definition ProbeAnswersTrueOrFalse (w : World) (p : jsnum) (tok : string)
  : Prop :=
  fst (testPortChecked w p tok []) =
  Ok (match httpsRequest w p tok with
      | EvResponse statusCode :: _ => Z.eqb statusCode 200
      | _ => false
      end).

(** The claim that the promise of the prober always settles by resolving
    to a boolean. *)
Definition ProbeAlwaysResolves (w : World) (p : jsnum) (tok : string)
  : Prop :=
  exists b, fst (testPortChecked w p tok []) = Ok b.

(** * Properties *)

(** ** Equality of numbers *)

Lemma sameValueZero_eq (a b : jsnum) : sameValueZero a b = true <-> a = b.
Proof.
  destruct a as [|x], b as [|y]; simpl; split; intro H;
    try reflexivity; try discriminate.
  - apply Z.eqb_eq in H. now subst.
  - injection H as ->. apply Z.eqb_refl.
Qed.

Lemma sameValueZero_refl (a : jsnum) : sameValueZero a a = true.
Proof. now apply sameValueZero_eq. Qed.

Lemma sameValueZero_neq (a b : jsnum) : sameValueZero a b = false <-> a <> b.
Proof.
  split.
  - intros H E. apply sameValueZero_eq in E. congruence.
  - intro H. destruct (sameValueZero a b) eqn:E; [|reflexivity].
    apply sameValueZero_eq in E. contradiction.
Qed.

Lemma strictEq_Num (a : jsnum) (z : Z) : strictEq a (Num z) = true <-> a = Num z.
Proof.
  destruct a as [|x]; simpl; split; intro H; try discriminate.
  - apply Z.eqb_eq in H. now subst.
  - injection H as ->. apply Z.eqb_refl.
Qed.

(** ** The Map of line 84 *)

Section MapModel.
Variable V : Type.

Lemma mapGet_mapSet (m : list (jsnum * V)) (k k' : jsnum) (v : V) :
  mapGet (mapSet m k v) k' =
  if sameValueZero k k' then Some v else mapGet m k'.
Proof.
  induction m as [|[k0 v0] m IH]; simpl.
  - reflexivity.
  - destruct (sameValueZero k0 k) eqn:E0; simpl.
    + apply sameValueZero_eq in E0. subst k0.
      destruct (sameValueZero k k'); reflexivity.
    + rewrite IH. destruct (sameValueZero k0 k') eqn:E1; [|reflexivity].
      apply sameValueZero_eq in E1. subst k0.
      destruct (sameValueZero k k') eqn:E2; [|reflexivity].
      apply sameValueZero_eq in E2. subst k.
      rewrite sameValueZero_refl in E0. discriminate.
Qed.

Lemma mapSet_keys (m : list (jsnum * V)) (k k' : jsnum) (v : V) :
  In k' (map fst (mapSet m k v)) <-> k' = k \/ In k' (map fst m).
Proof.
  induction m as [|[k0 v0] m IH]; simpl.
  - intuition congruence.
  - destruct (sameValueZero k0 k) eqn:E0; simpl.
    + apply sameValueZero_eq in E0. subst k0. intuition congruence.
    + rewrite IH. intuition congruence.
Qed.

Lemma mapSet_NoDup (m : list (jsnum * V)) (k : jsnum) (v : V) :
  NoDup (map fst m) -> NoDup (map fst (mapSet m k v)).
Proof.
  induction m as [|[k0 v0] m IH]; simpl; intro H.
  - constructor; [intros []|constructor].
  - inversion H as [|? ? Hn Hd]; subst.
    destruct (sameValueZero k0 k) eqn:E0; simpl.
    + constructor; assumption.
    + constructor; [|now apply IH].
      rewrite mapSet_keys. intros [E|HIn]; [|contradiction].
      subst k0. rewrite sameValueZero_refl in E0. discriminate.
Qed.

Lemma mapOfEntries_from (entries m : list (jsnum * V)) (k : jsnum) :
  mapGet (fold_left (fun m kv => mapSet m (fst kv) (snd kv)) entries m) k =
  match lastFor entries k with
  | Some v => Some v
  | None => mapGet m k
  end.
Proof.
  revert m. induction entries as [|[k0 v0] entries IH]; intro m; simpl.
  - reflexivity.
  - rewrite IH. destruct (lastFor entries k); [reflexivity|].
    rewrite mapGet_mapSet. destruct (sameValueZero k0 k); reflexivity.
Qed.

Lemma mapOfEntries_NoDup_from (entries m : list (jsnum * V)) :
  NoDup (map fst m) ->
  NoDup (map fst (fold_left (fun m kv => mapSet m (fst kv) (snd kv)) entries m)).
Proof.
  revert m. induction entries as [|kv entries IH]; intros m H; simpl.
  - assumption.
  - apply IH. now apply mapSet_NoDup.
Qed.

Lemma mapOfEntries_get (entries : list (jsnum * V)) (k : jsnum) :
  mapGet (mapOfEntries entries) k = lastFor entries k.
Proof.
  unfold mapOfEntries. rewrite mapOfEntries_from. simpl.
  destruct (lastFor entries k); reflexivity.
Qed.

Lemma mapOfEntries_NoDup (entries : list (jsnum * V)) :
  NoDup (map fst (mapOfEntries entries)).
Proof. apply mapOfEntries_NoDup_from. constructor. Qed.

(** In a map, the entries under one key are the one that [mapGet] finds. *)
Lemma filter_key_NoDup (m : list (jsnum * V)) (k : jsnum) :
  NoDup (map fst m) ->
  filter (fun kv => sameValueZero (fst kv) k) m =
  match mapGet m k with
  | Some v => [(k, v)]
  | None => []
  end.
Proof.
  induction m as [|[k0 v0] m IH]; simpl; intro H.
  - reflexivity.
  - inversion H as [|? ? Hn Hd]; subst.
    destruct (sameValueZero k0 k) eqn:E0.
    + apply sameValueZero_eq in E0. subst k0. f_equal.
      rewrite IH by assumption.
      destruct (mapGet m k) eqn:G; [|reflexivity].
      exfalso. apply Hn. clear -G.
      induction m as [|[k1 v1] m IHm]; simpl in *; [discriminate|].
      destruct (sameValueZero k1 k) eqn:E1.
      * left. now apply sameValueZero_eq.
      * right. now apply IHm.
    + now apply IH.
Qed.

Lemma mapGet_In (m : list (jsnum * V)) (k : jsnum) (v : V) :
  mapGet m k = Some v -> In (k, v) m.
Proof.
  induction m as [|[k0 v0] m IH]; simpl; [discriminate|].
  destruct (sameValueZero k0 k) eqn:E0.
  - intro H. injection H as ->. apply sameValueZero_eq in E0. subst. now left.
  - intro H. right. now apply IH.
Qed.

Lemma mapOfEntries_In_from (entries m : list (jsnum * V)) (kv : jsnum * V) :
  In kv (fold_left (fun m kv => mapSet m (fst kv) (snd kv)) entries m) ->
  In kv m \/ In kv entries.
Proof.
  revert m. induction entries as [|[k0 v0] entries IH]; intros m H; simpl in *.
  - now left.
  - apply IH in H. destruct H as [H|H]; [|now right; right].
    assert (In kv m \/ kv = (k0, v0)) as [G|G].
    { clear -H. induction m as [|[k1 v1] m IHm]; simpl in *.
      - destruct H as [H|[]]. now right.
      - destruct (sameValueZero k1 k0) eqn:E.
        + apply sameValueZero_eq in E. subst k1.
          destruct H as [H|H]; [now right | now left; right].
        + destruct H as [H|H]; [now left; left|].
          apply IHm in H. tauto. }
    + now left.
    + right. left. now symmetry.
Qed.
End MapModel.

Lemma lastFor_In {V : Type} (entries : list (jsnum * V)) (k : jsnum) (v : V) :
  lastFor entries k = Some v -> In (k, v) entries.
Proof.
  induction entries as [|[k0 v0] entries IH]; simpl; [discriminate|].
  destruct (lastFor entries k) as [v'|] eqn:L.
  - intro H. injection H as ->. right. now apply IH.
  - destruct (sameValueZero k0 k) eqn:E; [|discriminate].
    intro H. injection H as ->. apply sameValueZero_eq in E. subst. now left.
Qed.

Lemma lastFor_found {V : Type} (entries : list (jsnum * V)) (k : jsnum) (v : V) :
  In (k, v) entries -> exists v', lastFor entries k = Some v'.
Proof.
  induction entries as [|[k0 v0] entries IH]; simpl; [intros []|].
  intros [H|H].
  - injection H as -> ->. rewrite sameValueZero_refl.
    destruct (lastFor entries k); eauto.
  - destruct (IH H) as [v' ->]. eauto.
Qed.

Lemma pidEntries_In (candidates : list ProcessCandidate) kv :
  In kv (pidEntries candidates) -> fst kv = pid (snd kv) /\ In (snd kv) candidates.
Proof.
  unfold pidEntries. rewrite in_map_iff. intros [c [<- H]]. simpl. auto.
Qed.

(** The deduplicated list holds, for a pid, the last candidate listed for
    it and nothing else. *)
Lemma uniqueCandidates_filter (candidates : list ProcessCandidate) (p : jsnum) :
  filter (fun c => sameValueZero (pid c) p) (uniqueCandidates candidates) =
  match lastFor (pidEntries candidates) p with
  | Some c => [c]
  | None => []
  end.
Proof.
  unfold uniqueCandidates, mapValues. fold (pidEntries candidates).
  set (m := mapOfEntries (pidEntries candidates)).
  assert (Hm : forall kv, In kv m -> fst kv = pid (snd kv)).
  { intros kv H. unfold m, mapOfEntries in H.
    apply mapOfEntries_In_from in H. destruct H as [[]|H].
    now apply pidEntries_In in H. }
  transitivity (map snd (filter (fun kv => sameValueZero (fst kv) p) m)).
  - clear -Hm. induction m as [|kv m IH]; simpl; [reflexivity|].
    rewrite (Hm kv) by now left.
    destruct (sameValueZero (pid (snd kv)) p); simpl;
      rewrite IH; auto; intros; apply Hm; now right.
  - rewrite filter_key_NoDup by apply mapOfEntries_NoDup.
    unfold m. rewrite mapOfEntries_get.
    destruct (lastFor (pidEntries candidates) p); reflexivity.
Qed.

(** C8.  Whatever the platform and the raw process listing, if a pid is
    carried by N >= 1 of the extracted candidates, the deduplicated
    candidate list of line 84 has exactly one entry for that pid; this entry
    is one of the extracted candidates of that pid (the last one listed). *)
Theorem uniqueCandidates_one_entry_per_pid
  (platform : Platform) (psStdout : string) (p : jsnum) (N : nat) :
  List.length (filter (fun c => sameValueZero (pid c) p)
                      (extractCandidates platform psStdout)) = N ->
  1 <= N ->
  exists c,
    filter (fun c => sameValueZero (pid c) p)
           (uniqueCandidates (extractCandidates platform psStdout)) = [c]
    /\ pid c = p
    /\ In c (extractCandidates platform psStdout)
    /\ lastFor (pidEntries (extractCandidates platform psStdout)) p = Some c.
Proof.
  set (cands := extractCandidates platform psStdout).
  intros HN Hpos.
  destruct (filter (fun c => sameValueZero (pid c) p) cands) as [|c0 rest] eqn:F.
  - simpl in HN. lia.
  - assert (H0 : In c0 (filter (fun c => sameValueZero (pid c) p) cands))
      by (rewrite F; now left).
    apply filter_In in H0. destruct H0 as [Hin Hpid].
    apply sameValueZero_eq in Hpid.
    assert (He : In (p, c0) (pidEntries cands)).
    { unfold pidEntries. apply in_map_iff. exists c0. now rewrite Hpid. }
    destruct (lastFor_found _ _ _ He) as [c Hc].
    exists c. rewrite uniqueCandidates_filter, Hc.
    apply lastFor_In in Hc. apply pidEntries_In in Hc. simpl in Hc.
    destruct Hc as [Hp Hc]. auto.
Qed.

(** ** Promise.all: the result follows the order of the array *)

Lemma update_length {B : Type} (i : nat) (x : B) (l : list B) :
  List.length (update i x l) = List.length l.
Proof.
  revert i. induction l as [|h t IH]; intros [|i]; simpl; auto.
Qed.

Lemma update_nth_error {B : Type} (i : nat) (x : B) (l : list B) (j : nat) :
  nth_error (update i x l) j =
  if Nat.eqb i j
  then match nth_error l j with Some _ => Some x | None => None end
  else nth_error l j.
Proof.
  revert i j. induction l as [|h t IH]; intros i j.
  - destruct i, j; simpl; try reflexivity. now destruct (Nat.eqb i j).
  - destruct i, j; simpl; try reflexivity. apply IH.
Qed.

Section PromiseAll.
Context {A : Type}.

Lemma insertByTime_In (c d : Completion A) (l : list (Completion A)) :
  In d (insertByTime c l) <-> d = c \/ In d l.
Proof.
  induction l as [|e l IH]; simpl.
  - intuition.
  - destruct (Nat.leb (doneAt c) (doneAt e)); simpl.
    + intuition.
    + rewrite IH. intuition.
Qed.

Lemma sortByTime_In (d : Completion A) (l : list (Completion A)) :
  In d (sortByTime l) <-> In d l.
Proof.
  induction l as [|e l IH]; simpl.
  - reflexivity.
  - rewrite insertByTime_In, IH. intuition.
Qed.

Lemma allSome_map_Some (vs : list A) : allSome (map Some vs) = Some vs.
Proof.
  induction vs as [|v vs IH]; simpl; [reflexivity|]. now rewrite IH.
Qed.

(** Completions of branches that were all fulfilled. *)
Lemma completions_fulfilled (vs : list A) :
  forall (ts : list nat) (i : nat) (c : Completion (A)),
    In c (completionsFrom i (combine ts (map Ok vs))) ->
    exists v, outcome c = Ok v /\ i <= slot c
              /\ nth_error vs (slot c - i) = Some v.
Proof.
  induction vs as [|v vs IH]; intros ts i c; destruct ts as [|t ts]; simpl;
    try (intros []; fail).
  intros [Hc|Hc].
  - subst c. simpl. exists v. rewrite Nat.sub_diag. auto.
  - destruct (IH ts (S i) c Hc) as [v' [Ho [Hle Hn]]].
    exists v'. split; [assumption|]. split; [lia|].
    replace (slot c - i) with (S (slot c - S i)) by lia. exact Hn.
Qed.

Lemma completions_cover (vs : list A) :
  forall (ts : list nat) (i k : nat),
    List.length ts = List.length vs ->
    k < List.length vs ->
    exists c, In c (completionsFrom i (combine ts (map Ok vs)))
              /\ slot c = i + k.
Proof.
  induction vs as [|v vs IH]; intros [|t ts] i k Hl Hk; simpl in *;
    try lia.
  destruct k as [|k].
  - eexists. split; [left; reflexivity|]. simpl. lia.
  - destruct (IH ts (S i) k) as [c [Hc Hs]]; [lia|lia|].
    exists c. split; [now right|lia].
Qed.

(** While fulfilled branches report, no rejection is recorded, and a slot
    holds nothing but the value of its own branch. *)
Lemma settle_fulfilled_invariant (vs : list A) :
  forall (order : list (Completion A)) (st : list (option A) * option Failure),
    (forall c, In c order ->
               exists v, outcome c = Ok v /\ nth_error vs (slot c) = Some v) ->
    snd st = None ->
    List.length (fst st) = List.length vs ->
    (forall j v, nth_error (fst st) j = Some (Some v) ->
                 nth_error vs j = Some v) ->
    let st' := fold_left settleOne order st in
    snd st' = None
    /\ List.length (fst st') = List.length vs
    /\ (forall j v, nth_error (fst st') j = Some (Some v) ->
                    nth_error vs j = Some v)
    /\ (forall j, j < List.length vs ->
                  (In j (map slot order)
                   \/ exists v, nth_error (fst st) j = Some (Some v)) ->
                  exists v, nth_error (fst st') j = Some (Some v)).
Proof.
  induction order as [|c order IH]; intros st Hord Hrej Hlen Hval; simpl.
  - repeat split; auto. intros j _ [[]|H]. exact H.
  - destruct (Hord c (or_introl eq_refl)) as [v [Ho Hv]].
    assert (Hst : settleOne st c = (update (slot c) (Some v) (fst st), snd st))
      by (unfold settleOne; now rewrite Ho).
    rewrite Hst.
    destruct (IH (update (slot c) (Some v) (fst st), snd st)) as [R [L [W F]]];
      simpl.
    + intros d Hd. apply Hord. now right.
    + assumption.
    + now rewrite update_length.
    + intros j v0. rewrite update_nth_error.
      destruct (Nat.eqb (slot c) j) eqn:E.
      * apply Nat.eqb_eq in E. subst j.
        destruct (nth_error (fst st) (slot c)); [|discriminate].
        intro H. injection H as <-. exact Hv.
      * apply Hval.
    + repeat split; auto.
      intros j Hj Hcov. apply F; [assumption|]. simpl.
      rewrite update_nth_error.
      destruct (Nat.eqb (slot c) j) eqn:E.
      * right. apply Nat.eqb_eq in E. subst j.
        destruct (nth_error (fst st) (slot c)) eqn:N.
        -- eauto.
        -- apply nth_error_None in N. lia.
      * destruct Hcov as [[Hs|Hin]|Hex]; auto.
        apply Nat.eqb_neq in E. contradiction.
Qed.

(** When every branch is fulfilled, the aggregate is fulfilled with the
    values in the order of the array, whatever the instants of completion. *)
Lemma settleAll_fulfilled (ts : list nat) (vs : list A) :
  List.length ts = List.length vs ->
  settleAll (sortByTime (completionsFrom 0 (combine ts (map Ok vs))))
            (List.length vs) = Ok vs.
Proof.
  intro Hl. unfold settleAll.
  set (order := sortByTime (completionsFrom 0 (combine ts (map Ok vs)))).
  destruct (settle_fulfilled_invariant vs order
              (repeat None (List.length vs), None)) as [R [L [W F]]]; simpl.
  - intros c Hc. unfold order in Hc. rewrite sortByTime_In in Hc.
    apply completions_fulfilled in Hc. destruct Hc as [v [Ho [_ Hn]]].
    rewrite Nat.sub_0_r in Hn. eauto.
  - reflexivity.
  - apply repeat_length.
  - intros j v Hj. apply nth_error_In in Hj. apply repeat_spec in Hj.
    discriminate.
  - rewrite R.
    assert (E : fst (fold_left settleOne order
                       (repeat None (List.length vs), None)) = map Some vs).
    { apply nth_error_ext. intro j. rewrite nth_error_map.
      destruct (Nat.lt_ge_cases j (List.length vs)) as [Hj|Hj].
      - destruct (F j Hj) as [v Hv].
        + left. destruct (completions_cover vs ts 0 j Hl Hj) as [c [Hc Hs]].
          apply in_map_iff. exists c. split; [exact Hs|].
          unfold order. now apply sortByTime_In.
        + rewrite Hv. apply W in Hv. now rewrite Hv.
      - assert (N1 : nth_error vs j = None) by now apply nth_error_None.
        rewrite N1. simpl. apply nth_error_None. now rewrite L. }
    rewrite E, allSome_map_Some. reflexivity.
Qed.

(** Without a rejected branch the aggregate is not rejected. *)
Lemma settleAll_not_rejected (order : list (Completion A)) (n : nat) :
  (forall c e, In c order -> outcome c <> Throw e) ->
  forall e, settleAll order n <> Throw e.
Proof.
  intros Hord e. unfold settleAll.
  assert (R : forall st, snd st = None ->
                         snd (fold_left settleOne order st) = None).
  { induction order as [|c order IH]; intros st Hst; simpl; [assumption|].
    apply IH.
    - intros d e0 Hd. apply Hord. now right.
    - unfold settleOne. destruct (outcome c) eqn:Ho; simpl; auto.
      exfalso. apply (Hord c e0); [now left|assumption]. }
  rewrite R by reflexivity.
  destruct (allSome _); discriminate.
Qed.
End PromiseAll.

(** ** The prober *)

Lemma settled_stays (events : list ReqEvent) (b : bool) :
  fold_left testPortHandler events (Fulfilled b) = Fulfilled b.
Proof.
  induction events as [|ev events IH]; simpl; [reflexivity|].
  destruct ev; simpl; exact IH.
Qed.

Lemma testPortPromise_first (ev : ReqEvent) (rest : list ReqEvent) :
  testPortPromise (ev :: rest) = Fulfilled (eventVerdict ev).
Proof.
  unfold testPortPromise. simpl. destruct ev; simpl; apply settled_stays.
Qed.

Lemma testPortPromise_cases (events : list ReqEvent) :
  (events = [] /\ testPortPromise events = Pending)
  \/ (exists ev rest, events = ev :: rest
                      /\ testPortPromise events = Fulfilled (eventVerdict ev)).
Proof.
  destruct events as [|ev rest].
  - left. split; reflexivity.
  - right. exists ev, rest. split; [reflexivity|apply testPortPromise_first].
Qed.

(** ** The probing fan-out *)

Lemma startAll_runs {A X : Type} (f : X -> IO A) (r : X -> Res A)
  (o : X -> list Op) (xs : list X) :
  (forall x, In x xs -> Runs (f x) (r x) (o x)) ->
  forall log, startAll (map f xs) log = (map r xs, log ++ flat_map o xs).
Proof.
  induction xs as [|x xs IH]; intros H log; simpl.
  - now rewrite app_nil_r.
  - rewrite (H x (or_introl eq_refl) log).
    rewrite IH by (intros y Hy; apply H; now right).
    now rewrite <- app_assoc.
Qed.

Lemma probeOne_runs (w : World) (allPorts : list PortCandidate) (p : jsnum) :
  Runs (probeOne w allPorts p) (probeOutcome w allPorts p) (probeOps allPorts p).
Proof.
  intro log. unfold probeOne, probeOutcome, probeOps.
  destruct (matchingCandidate allPorts p) as [mc|].
  - unfold bind, testPort.
    destruct (await (testPortPromise (httpsRequest w p (token mc)))) as [[|]| |];
      reflexivity.
  - unfold ret. now rewrite app_nil_r.
Qed.

Lemma probeOps_jobs (allPorts : list PortCandidate) (ps : list jsnum) :
  flat_map (probeOps allPorts) ps =
  map jobRequest
      (flat_map (fun p => match matchingCandidate allPorts p with
                          | Some mc => [(p, token mc)]
                          | None => []
                          end) ps).
Proof.
  induction ps as [|p ps IH]; simpl; [reflexivity|].
  rewrite map_app, IH. unfold probeOps at 1.
  destruct (matchingCandidate allPorts p); reflexivity.
Qed.

(** The probing stage issues one request per probe job, in list order, and
    settles its aggregate from the outcomes of the branches. *)
Lemma probeAll_unfold (w : World) (allPorts : list PortCandidate)
  (log : list Op) :
  probeAll w allPorts log =
  (settleAll
     (sortByTime
        (completionsFrom 0
           (combine (map (probeTime w) (uniquePorts allPorts))
                    (map (probeOutcome w allPorts) (uniquePorts allPorts)))))
     (List.length (uniquePorts allPorts)),
   log ++ map jobRequest (probeJobs allPorts)).
Proof.
  unfold probeAll, promiseAll, probeJobs.
  rewrite !map_map. simpl.
  rewrite (startAll_runs (probeOne w allPorts) (probeOutcome w allPorts)
             (probeOps allPorts))
    by (intros; apply probeOne_runs).
  rewrite probeOps_jobs, length_map.
  replace (map (fun x => probeTime w x) (uniquePorts allPorts))
    with (map (probeTime w) (uniquePorts allPorts)) by reflexivity.
  reflexivity.
Qed.

Lemma probeOutcome_settled (w : World) (allPorts : list PortCandidate)
  (p : jsnum) :
  (forall mc, matchingCandidate allPorts p = Some mc ->
              httpsRequest w p (token mc) <> []) ->
  probeOutcome w allPorts p = Ok (probeValue w allPorts p).
Proof.
  unfold probeOutcome, probeValue, probeSucceeds. intro H.
  destruct (matchingCandidate allPorts p) as [mc|]; [|reflexivity].
  simpl. specialize (H mc eq_refl).
  destruct (testPortPromise_cases (httpsRequest w p (token mc)))
    as [[E _]|[ev [rest [_ E]]]]; [contradiction|].
  rewrite E. simpl. destruct (eventVerdict ev); reflexivity.
Qed.

Lemma probeJobs_In (allPorts : list PortCandidate) (p : jsnum)
  (mc : PortCandidate) :
  In p (uniquePorts allPorts) ->
  matchingCandidate allPorts p = Some mc ->
  In (p, token mc) (probeJobs allPorts).
Proof.
  intros Hp Hm. unfold probeJobs. apply in_flat_map. exists p.
  split; [assumption|]. rewrite Hm. now left.
Qed.

Lemma find_probeValue (w : World) (allPorts : list PortCandidate)
  (ps : list jsnum) :
  find notNull (map (probeValue w allPorts) ps) =
  match filter (probeSucceeds w)
               (flat_map (fun p => match matchingCandidate allPorts p with
                                   | Some mc => [(p, token mc)]
                                   | None => []
                                   end) ps) with
  | [] => None
  | j :: _ => Some (Some (mkEndpoint (fst j) (snd j)))
  end.
Proof.
  induction ps as [|p ps IH]; simpl; [reflexivity|].
  destruct (matchingCandidate allPorts p) as [mc|] eqn:M; simpl.
  - destruct (probeSucceeds w (p, token mc)) eqn:PS.
    + replace (probeValue w allPorts p)
        with (Some (mkEndpoint p (token mc)))
        by (unfold probeValue; now rewrite M, PS).
      reflexivity.
    + replace (probeValue w allPorts p) with (@None ResolvedEndpoint)
        by (unfold probeValue; now rewrite M, PS).
      exact IH.
  - replace (probeValue w allPorts p) with (@None ResolvedEndpoint)
      by (unfold probeValue; now rewrite M).
    exact IH.
Qed.

Lemma probeStage_result (w : World) (allPorts : list PortCandidate)
  (log : list Op) :
  (forall j, In j (probeJobs allPorts) -> httpsRequest w (fst j) (snd j) <> []) ->
  fst (probeStage w allPorts log) =
  match firstSuccessInListOrder w allPorts with
  | Some e => Ok e
  | None => Throw NoRespondingEndpoint
  end.
Proof.
  intro H. unfold probeStage, bind. rewrite probeAll_unfold.
  assert (E : map (probeOutcome w allPorts) (uniquePorts allPorts) =
              map Ok (map (probeValue w allPorts) (uniquePorts allPorts))).
  { rewrite map_map. apply map_ext_in. intros p Hp.
    apply probeOutcome_settled. intros mc Hm.
    apply (H (p, token mc)). now apply probeJobs_In. }
  rewrite E.
  replace (List.length (uniquePorts allPorts))
    with (List.length (map (probeValue w allPorts) (uniquePorts allPorts)))
    by apply length_map.
  rewrite settleAll_fulfilled by now rewrite !length_map.
  unfold selectValid, firstSuccessInListOrder, probeJobs.
  rewrite find_probeValue.
  destruct (filter _ _); reflexivity.
Qed.

(** ** Selection of the working port *)

Lemma probeStage_time_independent (w : World) (t : jsnum -> nat)
  (allPorts : list PortCandidate) (log : list Op) :
  (forall j, In j (probeJobs allPorts) -> httpsRequest w (fst j) (snd j) <> []) ->
  fst (probeStage (withProbeTime w t) allPorts log) =
  fst (probeStage w allPorts log).
Proof.
  intro H. rewrite !probeStage_result by exact H. reflexivity.
Qed.

(** C1 (as amended).  When every probe request emits an event, the resolver
    returns the first probe job, in the order of the deduplicated port list,
    whose probe succeeds, and fails with the no-responding-endpoint error
    when none does; the instants at which the probes complete have no
    influence on the result.  In particular, if exactly one job succeeds,
    its (port, token) is returned wherever it sits in the list. *)
Theorem probeStage_selects_first_in_list_order
  (w : World) (allPorts : list PortCandidate) (log : list Op) :
  (forall j, In j (probeJobs allPorts) -> httpsRequest w (fst j) (snd j) <> []) ->
  fst (probeStage w allPorts log) =
    match firstSuccessInListOrder w allPorts with
    | Some e => Ok e
    | None => Throw NoRespondingEndpoint
    end
  /\ (forall t, fst (probeStage (withProbeTime w t) allPorts log) =
                fst (probeStage w allPorts log))
  /\ (forall j, filter (probeSucceeds w) (probeJobs allPorts) = [j] ->
                fst (probeStage w allPorts log) =
                Ok (mkEndpoint (fst j) (snd j))).
Proof.
  intro H. split; [now apply probeStage_result|]. split.
  - intro t. now apply probeStage_time_independent.
  - intros j Hj. rewrite probeStage_result by exact H.
    unfold firstSuccessInListOrder. now rewrite Hj.
Qed.

Lemma probeStage_selects_first_in_list_order_witness :
  fst (probeStage raceWorld racePorts []) =
    match firstSuccessInListOrder raceWorld racePorts with
    | Some e => Ok e
    | None => Throw NoRespondingEndpoint
    end
  /\ (forall t, fst (probeStage (withProbeTime raceWorld t) racePorts []) =
                fst (probeStage raceWorld racePorts []))
  /\ (forall j, filter (probeSucceeds raceWorld) (probeJobs racePorts) = [j] ->
                fst (probeStage raceWorld racePorts []) =
                Ok (mkEndpoint (fst j) (snd j))).
Proof.
  apply (probeStage_selects_first_in_list_order raceWorld racePorts []).
  intros j Hj. vm_compute. discriminate.
Defined.

(** C1 (as stated) fails: both ports answer 200 and the probe of port 42101
    completes first, yet the run returns port 42100, the first of the list. *)
Lemma race_counterexample :
  fst (main raceWorld []) = Ok (mkEndpoint (Num 42100) "abcd-1234-ef00")
  /\ fst (discoverStage raceWorld
            (uniqueCandidates (extractCandidates Linux raceListing)) [])
     = Ok racePorts
  /\ firstSuccessByCompletion raceWorld racePorts
     = Some (mkEndpoint (Num 42101) "abcd-1234-ef00")
  /\ ~ SelectsFirstByCompletion raceWorld racePorts.
Proof.
  split; [vm_compute; reflexivity|].
  split; [vm_compute; reflexivity|].
  split; [vm_compute; reflexivity|].
  intro H. vm_compute in H. discriminate.
Qed.

(** ** The verdict of the prober *)

Lemma testPortChecked_accepted (w : World) (p : jsnum) (tok : string) :
  requestAccepts p = true ->
  forall log, testPortChecked w p tok log = testPort w p tok log.
Proof.
  intros H log. unfold testPortChecked, testPortCheckedPromise, testPort.
  now rewrite H.
Qed.

(** A port that [https.request] refuses: the executor throws and the
    promise is rejected. *)
Lemma testPortChecked_refused (w : World) (p : jsnum) (tok : string)
  (log : list Op) :
  requestAccepts p = false ->
  testPortChecked w p tok log =
  (Throw (RequestRefused p), log ++ [OpRequest p tok]).
Proof.
  intro H. unfold testPortChecked, testPortCheckedPromise. now rewrite H.
Qed.

(** C6 (as amended).  For a port that [https.request] accepts, the verdict
    of the prober is that of the first event of its request: true exactly
    when that event is a response with status 200, false for any other
    status, for an error and for the timeout event.  While the request emits
    no event there is no verdict: the probe stays pending.  One call issues
    exactly one request. *)
Theorem testPort_true_iff_status_200
  (w : World) (p : jsnum) (tok : string) (log : list Op) :
  requestAccepts p = true ->
  (forall ev rest,
      httpsRequest w p tok = ev :: rest ->
      (fst (testPortChecked w p tok log) = Ok true <-> ev = EvResponse 200)
      /\ (ev <> EvResponse 200 ->
          fst (testPortChecked w p tok log) = Ok false))
  /\ (httpsRequest w p tok = [] -> fst (testPortChecked w p tok log) = Hang)
  /\ snd (testPortChecked w p tok log) = log ++ [OpRequest p tok].
Proof.
  intro A. rewrite (testPortChecked_accepted w p tok A). unfold testPort.
  cbn [fst snd]. split; [|split].
  - intros ev rest H. rewrite H, testPortPromise_first. simpl.
    assert (V : eventVerdict ev = true <-> ev = EvResponse 200).
    { destruct ev as [sc| |]; simpl; split; intro E; try discriminate.
      - apply Z.eqb_eq in E. now subst.
      - injection E as ->. reflexivity. }
    split.
    + rewrite <- V. split; intro E; [now injection E|now rewrite E].
    + intro N. destruct (eventVerdict ev); [|reflexivity].
      exfalso. apply N. now apply V.
  - intro H. now rewrite H.
  - reflexivity.
Qed.

Lemma testPort_true_iff_status_200_witness :
  (forall ev rest,
      httpsRequest raceWorld (Num 42100) "abcd-1234-ef00" = ev :: rest ->
      (fst (testPortChecked raceWorld (Num 42100) "abcd-1234-ef00" []) = Ok true
       <-> ev = EvResponse 200)
      /\ (ev <> EvResponse 200 ->
          fst (testPortChecked raceWorld (Num 42100) "abcd-1234-ef00" [])
          = Ok false))
  /\ (httpsRequest raceWorld (Num 42100) "abcd-1234-ef00" = [] ->
      fst (testPortChecked raceWorld (Num 42100) "abcd-1234-ef00" []) = Hang)
  /\ snd (testPortChecked raceWorld (Num 42100) "abcd-1234-ef00" [])
     = [] ++ [OpRequest (Num 42100) "abcd-1234-ef00"].
Proof.
  apply (testPort_true_iff_status_200 raceWorld (Num 42100) "abcd-1234-ef00" []).
  reflexivity.
Defined.

(** C6 (as stated) fails: the request to an accepted port emits no event,
    neither a response nor an error nor a timeout, and the prober gives no
    verdict where the claim expects false. *)
Lemma silent_probe_counterexample :
  requestAccepts (Num 42100) = true
  /\ httpsRequest silentWorld (Num 42100) "abcd-1234-ef00" = []
  /\ fst (testPortChecked silentWorld (Num 42100) "abcd-1234-ef00" []) = Hang
  /\ ~ ProbeAnswersTrueOrFalse silentWorld (Num 42100) "abcd-1234-ef00".
Proof.
  split; [reflexivity|]. split; [reflexivity|]. split; [reflexivity|].
  intro H. vm_compute in H. discriminate.
Qed.

(** ** The prober never rejects *)

Lemma await_testPort_not_thrown (events : list ReqEvent) (e : Failure) :
  await (testPortPromise events) <> Throw e.
Proof.
  destruct (testPortPromise_cases events) as [[_ E]|[ev [rest [_ E]]]];
    rewrite E; discriminate.
Qed.

Lemma probeOutcome_not_thrown (w : World) (allPorts : list PortCandidate)
  (p : jsnum) (e : Failure) :
  probeOutcome w allPorts p <> Throw e.
Proof.
  unfold probeOutcome. destruct (matchingCandidate allPorts p) as [mc|];
    [|discriminate].
  pose proof (await_testPort_not_thrown (httpsRequest w p (token mc))) as N.
  destruct (await (testPortPromise (httpsRequest w p (token mc)))) as [[|]|e0|];
    try discriminate.
  exfalso. now apply (N e0).
Qed.

Lemma completions_outcome_In {A : Type} (l : list (nat * Res A)) :
  forall (i : nat) (c : Completion A),
    In c (completionsFrom i l) -> In (outcome c) (map snd l).
Proof.
  induction l as [|[t r] l IH]; intros i c; simpl; [intros []|].
  intros [<-|H]; [now left|right; now apply (IH (S i))].
Qed.

Lemma probeAll_not_rejected (w : World) (allPorts : list PortCandidate)
  (log : list Op) (e : Failure) :
  fst (probeAll w allPorts log) <> Throw e.
Proof.
  rewrite probeAll_unfold. simpl. apply settleAll_not_rejected.
  intros c e0 Hc. rewrite sortByTime_In in Hc.
  apply completions_outcome_In in Hc.
  apply in_map_iff in Hc. destruct Hc as [[t r] [Hr Hin]]. simpl in Hr. subst r.
  apply in_combine_r in Hin. apply in_map_iff in Hin.
  destruct Hin as [p [<- _]]. apply probeOutcome_not_thrown.
Qed.

Lemma probeOneChecked_accepted (w : World) (allPorts : list PortCandidate)
  (p : jsnum) :
  requestAccepts p = true ->
  forall log, probeOneChecked w allPorts p log = probeOne w allPorts p log.
Proof.
  intros H log. unfold probeOneChecked, probeOne.
  destruct (matchingCandidate allPorts p) as [mc|]; [|reflexivity].
  unfold bind. now rewrite (testPortChecked_accepted w p (token mc) H).
Qed.

Lemma startAll_same {A X : Type} (f g : X -> IO A) (xs : list X) :
  (forall x log, In x xs -> f x log = g x log) ->
  forall log, startAll (map f xs) log = startAll (map g xs) log.
Proof.
  induction xs as [|x xs IH]; intros H log; simpl; [reflexivity|].
  rewrite (H x log (or_introl eq_refl)). destruct (g x log) as [r log1].
  rewrite IH; [reflexivity|]. intros y l Hy. apply H. now right.
Qed.

Lemma probeAllChecked_accepted (w : World) (allPorts : list PortCandidate) :
  (forall q, In q (uniquePorts allPorts) -> requestAccepts q = true) ->
  forall log, probeAllChecked w allPorts log = probeAll w allPorts log.
Proof.
  intros H log. unfold probeAllChecked, probeAll, promiseAll.
  rewrite !map_map. simpl.
  rewrite (startAll_same (probeOneChecked w allPorts) (probeOne w allPorts));
    [reflexivity|].
  intros x l Hx. apply probeOneChecked_accepted. now apply H.
Qed.

Lemma probeStageChecked_accepted (w : World) (allPorts : list PortCandidate) :
  (forall q, In q (uniquePorts allPorts) -> requestAccepts q = true) ->
  forall log, probeStageChecked w allPorts log = probeStage w allPorts log.
Proof.
  intros H log. unfold probeStageChecked, probeStage, bind.
  now rewrite (probeAllChecked_accepted w allPorts H).
Qed.

(** C10 (as amended).  For a port that [https.request] accepts, whatever
    the token and the events of the request, the promise of the prober is
    never rejected: every handler resolves it.  It is fulfilled with a
    boolean as soon as the request emits an event and stays pending while
    the request emits none.  Hence, when every port to probe is accepted,
    the aggregate of the probes is never rejected and every probe job of the
    run is issued, whatever the outcomes of the others. *)
Theorem testPort_never_rejects
  (w : World) (p : jsnum) (tok : string) (log : list Op) :
  requestAccepts p = true ->
  (forall e, testPortCheckedPromise w p tok <> Rejected e)
  /\ (forall e, fst (testPortChecked w p tok log) <> Throw e)
  /\ (httpsRequest w p tok <> [] ->
      exists b, fst (testPortChecked w p tok log) = Ok b)
  /\ (httpsRequest w p tok = [] -> fst (testPortChecked w p tok log) = Hang)
  /\ (forall allPorts,
         (forall q, In q (uniquePorts allPorts) -> requestAccepts q = true) ->
         (forall e, fst (probeAllChecked w allPorts log) <> Throw e)
         /\ snd (probeAllChecked w allPorts log) =
            log ++ map jobRequest (probeJobs allPorts)).
Proof.
  intro A. split; [|split; [|split; [|split]]].
  - intro e. unfold testPortCheckedPromise. rewrite A.
    destruct (testPortPromise_cases (httpsRequest w p tok))
      as [[_ E]|[ev [rest [_ E]]]]; rewrite E; discriminate.
  - intro e. rewrite (testPortChecked_accepted w p tok A). unfold testPort.
    simpl. apply await_testPort_not_thrown.
  - intro H. rewrite (testPortChecked_accepted w p tok A). unfold testPort.
    simpl.
    destruct (testPortPromise_cases (httpsRequest w p tok))
      as [[E _]|[ev [rest [_ E]]]]; [contradiction|].
    rewrite E. simpl. eauto.
  - intro H. rewrite (testPortChecked_accepted w p tok A). unfold testPort.
    simpl. now rewrite H.
  - intros allPorts Hall. rewrite (probeAllChecked_accepted w allPorts Hall).
    split.
    + intro e. apply probeAll_not_rejected.
    + rewrite probeAll_unfold. reflexivity.
Qed.

Lemma testPort_never_rejects_witness :
  exists b, fst (testPortChecked raceWorld (Num 42101) "abcd-1234-ef00" []) = Ok b.
Proof.
  destruct (testPort_never_rejects raceWorld (Num 42101) "abcd-1234-ef00" [])
    as [_ [_ [H _]]].
  - reflexivity.
  - apply H. vm_compute. discriminate.
Defined.

(** C10 (as stated) fails: the request to port 42101 emits no event, the
    promise of its probe is never settled, and the run never returns although
    port 42100 has answered 200. *)
Lemma pending_probe_counterexample :
  requestAccepts (Num 42101) = true
  /\ fst (testPortChecked halfSilentWorld (Num 42101) "abcd-1234-ef00" []) = Hang
  /\ fst (testPortChecked halfSilentWorld (Num 42100) "abcd-1234-ef00" [])
     = Ok true
  /\ fst (probeStageChecked halfSilentWorld racePorts []) = Hang
  /\ ~ ProbeAlwaysResolves halfSilentWorld (Num 42101) "abcd-1234-ef00".
Proof.
  split; [reflexivity|]. split; [reflexivity|]. split; [reflexivity|].
  split; [vm_compute; reflexivity|].
  intros [b H]. vm_compute in H. discriminate.
Qed.

(** ** Deduplication of the ports (line 113) and choice of the token *)

Lemma existsb_sameValueZero (x : jsnum) (s : list jsnum) :
  existsb (sameValueZero x) s = true <-> In x s.
Proof.
  rewrite existsb_exists. split.
  - intros [y [Hy E]]. apply sameValueZero_eq in E. now subst.
  - intro H. exists x. split; [assumption|apply sameValueZero_refl].
Qed.

Lemma setAdd_In (s : list jsnum) (x y : jsnum) :
  In y (setAdd s x) <-> In y s \/ y = x.
Proof.
  unfold setAdd. destruct (existsb (sameValueZero x) s) eqn:E.
  - apply existsb_sameValueZero in E. split; [auto|].
    intros [H| ->]; assumption.
  - rewrite in_app_iff. simpl. intuition.
Qed.

Lemma setAdd_NoDup (s : list jsnum) (x : jsnum) :
  NoDup s -> NoDup (setAdd s x).
Proof.
  intro H. unfold setAdd. destruct (existsb (sameValueZero x) s) eqn:E.
  - assumption.
  - apply NoDup_app; [assumption|constructor; [intros []|constructor]|].
    intros a Ha Hx. destruct Hx as [Hx|Hx]; [subst a|contradiction].
    apply existsb_sameValueZero in Ha. congruence.
Qed.

Lemma setOf_from (xs s : list jsnum) :
  NoDup s ->
  NoDup (fold_left setAdd xs s)
  /\ forall y, In y (fold_left setAdd xs s) <-> In y s \/ In y xs.
Proof.
  revert s. induction xs as [|x xs IH]; intros s H; simpl.
  - split; [assumption|]. intuition.
  - destruct (IH (setAdd s x) (setAdd_NoDup s x H)) as [N I].
    split; [assumption|]. intro y. rewrite I, setAdd_In. intuition.
Qed.

Lemma setOf_NoDup (xs : list jsnum) : NoDup (setOf xs).
Proof. apply setOf_from. constructor. Qed.

Lemma setOf_In (xs : list jsnum) (y : jsnum) : In y (setOf xs) <-> In y xs.
Proof.
  unfold setOf. destruct (setOf_from xs [] (NoDup_nil _)) as [_ I].
  rewrite I. simpl. intuition.
Qed.

Lemma filter_member_NoDup (l : list jsnum) (p : jsnum) :
  NoDup l -> In p l -> filter (fun x => sameValueZero x p) l = [p].
Proof.
  induction l as [|x l IH]; simpl; intros N H; [contradiction|].
  inversion N as [|? ? Hx Hl]; subst.
  destruct (sameValueZero x p) eqn:E.
  - apply sameValueZero_eq in E. subst x. f_equal.
    clear -Hx. induction l as [|y l IHl]; simpl; [reflexivity|].
    destruct (sameValueZero y p) eqn:E.
    + apply sameValueZero_eq in E. subst y. exfalso. apply Hx. now left.
    + apply IHl. intro G. apply Hx. now right.
  - destruct H as [->|H]; [now rewrite sameValueZero_refl in E|].
    now apply IH.
Qed.

Lemma matchingCandidate_first (pre post : list PortCandidate)
  (c : PortCandidate) (z : Z) :
  port c = Num z ->
  (forall d, In d pre -> port d <> Num z) ->
  matchingCandidate (pre ++ c :: post) (Num z) = Some c.
Proof.
  intros Hc Hpre. unfold matchingCandidate.
  induction pre as [|d pre IH]; simpl.
  - rewrite Hc. simpl. now rewrite Z.eqb_refl.
  - destruct (strictEq (port d) (Num z)) eqn:E.
    + apply strictEq_Num in E. exfalso. apply (Hpre d); [now left|assumption].
    + apply IH. intros d' Hd'. apply Hpre. now right.
Qed.

Lemma filter_jobs (allPorts : list PortCandidate) (q : jsnum)
  (ps : list jsnum) :
  filter (fun j => sameValueZero (fst j) q)
         (flat_map (fun p => match matchingCandidate allPorts p with
                             | Some mc => [(p, token mc)]
                             | None => []
                             end) ps) =
  flat_map (fun p => match matchingCandidate allPorts p with
                     | Some mc => [(p, token mc)]
                     | None => []
                     end) (filter (fun x => sameValueZero x q) ps).
Proof.
  induction ps as [|p ps IH]; simpl; [reflexivity|].
  rewrite filter_app, IH.
  destruct (sameValueZero p q) eqn:E; simpl;
    destruct (matchingCandidate allPorts p) as [mc|]; simpl;
    rewrite ?E; reflexivity.
Qed.

Lemma filter_requests (q : jsnum) (jobs : list (jsnum * string)) :
  filter (isRequestTo q) (map jobRequest jobs) =
  map jobRequest (filter (fun j => sameValueZero (fst j) q) jobs).
Proof.
  induction jobs as [|j jobs IH]; simpl; [reflexivity|].
  destruct (sameValueZero (fst j) q); simpl; now rewrite IH.
Qed.

(** C9.  Let c be the first element of the flattened candidate list that
    reports port z (other candidates may report it later).  Then the
    deduplicated port list holds z exactly once, exactly one probe job is
    made for z, and the one request sent to z carries the token of c. *)
Theorem probe_uses_first_reporter_token
  (w : World) (pre post : list PortCandidate) (c : PortCandidate) (z : Z) :
  port c = Num z ->
  (forall d, In d pre -> port d <> Num z) ->
  filter (fun x => sameValueZero x (Num z)) (uniquePorts (pre ++ c :: post))
    = [Num z]
  /\ filter (fun j => sameValueZero (fst j) (Num z))
            (probeJobs (pre ++ c :: post))
     = [(Num z, token c)]
  /\ filter (isRequestTo (Num z)) (snd (probeAll w (pre ++ c :: post) []))
     = [OpRequest (Num z) (token c)].
Proof.
  intros Hc Hpre.
  assert (U : filter (fun x => sameValueZero x (Num z))
                     (uniquePorts (pre ++ c :: post)) = [Num z]).
  { apply filter_member_NoDup; [apply setOf_NoDup|].
    apply setOf_In. rewrite map_app, in_app_iff. right. simpl. now left. }
  assert (J : filter (fun j => sameValueZero (fst j) (Num z))
                     (probeJobs (pre ++ c :: post)) = [(Num z, token c)]).
  { unfold probeJobs. rewrite filter_jobs, U. simpl.
    now rewrite (matchingCandidate_first pre post c z Hc Hpre). }
  split; [exact U|]. split; [exact J|].
  rewrite probeAll_unfold. simpl. now rewrite filter_requests, J.
Qed.

Lemma probe_uses_first_reporter_token_witness :
  filter (fun x => sameValueZero x (Num 42100)) (uniquePorts sharedPorts)
    = [Num 42100]
  /\ filter (fun j => sameValueZero (fst j) (Num 42100)) (probeJobs sharedPorts)
     = [(Num 42100, "aaaa")]
  /\ filter (isRequestTo (Num 42100)) (snd (probeAll raceWorld sharedPorts []))
     = [OpRequest (Num 42100) "aaaa"].
Proof.
  apply (probe_uses_first_reporter_token raceWorld
           [mkPortCandidate (Num 42101) "bbbb" (Num 2)]
           [mkPortCandidate (Num 42100) "cccc" (Num 3)]
           (mkPortCandidate (Num 42100) "aaaa" (Num 1)) 42100).
  - reflexivity.
  - intros d Hd. destruct Hd as [Hd|Hd]; [subst d|contradiction].
    simpl. discriminate.
Defined.

Lemma uniqueCandidates_one_entry_per_pid_witness :
  exists c,
    filter (fun c => sameValueZero (pid c) (Num 123))
           (uniqueCandidates (extractCandidates Linux twiceListing)) = [c]
    /\ pid c = Num 123
    /\ In c (extractCandidates Linux twiceListing)
    /\ lastFor (pidEntries (extractCandidates Linux twiceListing)) (Num 123)
       = Some c.
Proof.
  apply (uniqueCandidates_one_entry_per_pid Linux twiceListing (Num 123) 2).
  - vm_compute. reflexivity.
  - lia.
Defined.

(** ** A run without candidates *)

(** C7 (as amended).  When the listing command returns and no candidate is
    extracted from its output, the run ends with an error after that one
    command: no port discovery and no probe is performed.  The error is the
    process-not-found one when the listing is blank and the no-credential one
    when the listing has text. *)
Theorem main_without_candidates (w : World) (psStdout : string) :
  execAsync w (psCommand (platform w)) = Some psStdout ->
  extractCandidates (platform w) psStdout = [] ->
  main w [] =
  (Throw (if truthy (trim psStdout) then NoCredentialFound
          else ProcessNotFound),
   [OpExec (psCommand (platform w))]).
Proof.
  intros He Hc. unfold main, bind, exec. rewrite He. simpl.
  destruct (truthy (trim psStdout)); simpl; [|reflexivity].
  rewrite Hc. reflexivity.
Qed.

Lemma main_without_candidates_witness :
  main noTokenWorld [] =
  (Throw (if truthy (trim noTokenListing) then NoCredentialFound
          else ProcessNotFound),
   [OpExec (psCommand (platform noTokenWorld))]).
Proof.
  apply (main_without_candidates noTokenWorld noTokenListing).
  - reflexivity.
  - vm_compute. reflexivity.
Defined.

(** C7 (as stated) fails: the listing shows the process without the flag, no
    candidate is extracted, and the error is the no-credential one. *)
Lemma zero_candidates_counterexample :
  extractCandidates Linux noTokenListing = []
  /\ main noTokenWorld [] = (Throw NoCredentialFound, [OpExec (psCommand Linux)])
  /\ ~ ZeroCandidatesGiveProcessNotFound noTokenWorld.
Proof.
  split; [vm_compute; reflexivity|]. split; [vm_compute; reflexivity|].
  intro H. specialize (H noTokenListing eq_refl).
  assert (E : extractCandidates (platform noTokenWorld) noTokenListing = [])
    by (vm_compute; reflexivity).
  specialize (H E). vm_compute in H. discriminate.
Qed.

(** ** The fallback over the socket tools *)

Lemma runCommands_skip (w : World) (c : Command) (rest : list Command)
  (acc : string) (log : list Op) :
  failedOrBlank w c = true ->
  runCommands w (c :: rest) acc log =
  runCommands w rest acc (log ++ [OpExec (cmd c)]).
Proof.
  unfold failedOrBlank. intro H. simpl. unfold bind, tryCatch, exec, ret.
  destruct (execAsync w (cmd c)) as [stdout|]; [|reflexivity].
  destruct (truthy (trim stdout)); [discriminate|reflexivity].
Qed.

Lemma runCommands_take (w : World) (c : Command) (rest : list Command)
  (acc out : string) (log : list Op) :
  execAsync w (cmd c) = Some out ->
  truthy (trim out) = true ->
  runCommands w (c :: rest) acc log = (Ok out, log ++ [OpExec (cmd c)]).
Proof.
  intros He Ht. simpl. unfold bind, tryCatch, exec, ret.
  rewrite He, Ht. reflexivity.
Qed.

Lemma runCommands_stop (w : World) (cs1 cs2 : list Command) (c : Command)
  (acc out : string) :
  Forall (fun d => failedOrBlank w d = true) cs1 ->
  execAsync w (cmd c) = Some out ->
  truthy (trim out) = true ->
  forall log,
    runCommands w (cs1 ++ c :: cs2) acc log =
    (Ok out, log ++ map execOp (cs1 ++ [c])).
Proof.
  intros Hf He Ht. induction Hf as [|d cs1 Hd Hf IH]; intro log.
  - apply (runCommands_take w c cs2 acc out log He Ht).
  - rewrite <- app_comm_cons, runCommands_skip by assumption.
    rewrite IH, <- app_assoc. reflexivity.
Qed.

Lemma runCommands_exhaust (w : World) (cs : list Command) (acc : string) :
  Forall (fun d => failedOrBlank w d = true) cs ->
  forall log, runCommands w cs acc log = (Ok acc, log ++ map execOp cs).
Proof.
  intro Hf. induction Hf as [|d cs Hd Hf IH]; intro log.
  - simpl. unfold ret. now rewrite app_nil_r.
  - rewrite runCommands_skip by assumption.
    rewrite IH, <- app_assoc. reflexivity.
Qed.

Lemma runCommands_total (w : World) (cs : list Command) (acc : string) :
  forall log, exists out, fst (runCommands w cs acc log) = Ok out.
Proof.
  induction cs as [|c cs IH]; intro log.
  - exists acc. reflexivity.
  - destruct (failedOrBlank w c) eqn:F.
    + rewrite runCommands_skip by assumption. apply IH.
    + unfold failedOrBlank in F.
      destruct (execAsync w (cmd c)) as [stdout|] eqn:He; [|discriminate].
      exists stdout. rewrite (runCommands_take w c cs acc stdout log He).
      * reflexivity.
      * now destruct (truthy (trim stdout)).
Qed.

Lemma addPort_no_match (ports : list jsnum) (line : string) :
  portMatch line = None -> addPort ports line = ports.
Proof. unfold addPort. now intros ->. Qed.

Lemma parsePorts_no_match (out : string) :
  (forall line, In line (splitLF out) -> portMatch line = None) ->
  parsePorts out = [].
Proof.
  unfold parsePorts. intro H. destruct (truthy out); [|reflexivity].
  induction (splitLF out) as [|line lines IH]; simpl; [reflexivity|].
  rewrite addPort_no_match by (apply H; now left).
  apply IH. intros l Hl. apply H. now right.
Qed.

Lemma trimEnd_blank (s : string) :
  trimEnd s = EmptyString -> allChars isWhiteSpace s = true.
Proof.
  induction s as [|c s IH]; [reflexivity|].
  cbn [trimEnd allChars]. destruct (trimEnd s) as [|d r].
  - destruct (isWhiteSpace c); [|discriminate]. intros _. now apply IH.
  - discriminate.
Qed.

Lemma dropWhile_all (p : ascii -> bool) (s : string) :
  allChars p (dropWhile p s) = true -> allChars p s = true.
Proof.
  induction s as [|c s IH]; [reflexivity|].
  cbn [dropWhile allChars]. destruct (p c) eqn:E.
  - exact IH.
  - cbn [allChars]. now rewrite E.
Qed.

Lemma trim_blank (s : string) :
  truthy (trim s) = false -> allChars isWhiteSpace s = true.
Proof.
  unfold truthy, trim, trimStart. intro H.
  apply dropWhile_all, trimEnd_blank.
  now destruct (trimEnd (dropWhile isWhiteSpace s)).
Qed.

Lemma splitLF_blank (s : string) :
  allChars isWhiteSpace s = true ->
  forall line, In line (splitLF s) -> allChars isWhiteSpace line = true.
Proof.
  induction s as [|c s IH]; cbn [splitLF allChars].
  - intros _ line [<-|[]]. reflexivity.
  - intro H. apply andb_true_iff in H. destruct H as [Hc Hs].
    specialize (IH Hs). destruct (Ascii.eqb c LF).
    + intros line [<-|Hl]; [reflexivity|now apply IH].
    + destruct (splitLF s) as [|f rest]; cbn [consHead].
      * intros line [<-|[]]. cbn [allChars]. now rewrite Hc.
      * intros line [<-|Hl].
        -- cbn [allChars]. rewrite Hc. apply IH. now left.
        -- apply IH. now right.
Qed.

Lemma portHere_blank_head (c : ascii) (r : string) :
  isWhiteSpace c = true -> portHere (String c r) = None.
Proof.
  intro H. unfold portHere, addressForms, portAfter.
  cbn [firstSome startsWith].
  assert (E : Ascii.eqb "1" c = false /\ Ascii.eqb "l" c = false
              /\ Ascii.eqb "0" c = false /\ Ascii.eqb "[" c = false
              /\ Ascii.eqb "*" c = false).
  { destruct c as [[|] [|] [|] [|] [|] [|] [|] [|]];
      try discriminate H; repeat split; reflexivity. }
  destruct E as [E1 [E2 [E3 [E4 E5]]]].
  rewrite E1, E2, E3, E4, E5. reflexivity.
Qed.

Lemma portMatch_blank (line : string) :
  allChars isWhiteSpace line = true -> portMatch line = None.
Proof.
  induction line as [|c r IH]; [reflexivity|].
  cbn [allChars]. intro H. apply andb_true_iff in H. destruct H as [Hc Hr].
  cbn [portMatch]. rewrite (portHere_blank_head c r Hc). now apply IH.
Qed.

Lemma parsePorts_blank (out : string) :
  truthy (trim out) = false -> parsePorts out = [].
Proof.
  intro H. apply parsePorts_no_match. intros line Hl.
  apply portMatch_blank.
  now apply (splitLF_blank out (trim_blank out H)).
Qed.

Lemma In_removelast_middle {A : Type} (l1 l2 : list A) (c : A) :
  l2 <> [] -> In c (removelast (l1 ++ c :: l2)).
Proof.
  intro H. destruct (exists_last H) as [l2' [z ->]].
  replace (l1 ++ c :: l2' ++ [z]) with ((l1 ++ c :: l2') ++ [z])
    by now rewrite <- app_assoc.
  rewrite removelast_last. apply in_or_app. right. now left.
Qed.

Lemma failedOrEmpty_blank (w : World) (c : Command) :
  failedOrEmpty w c -> failedOrBlank w c = true.
Proof.
  unfold failedOrEmpty, failedOrBlank. now intros [->| ->].
Qed.

(** C5.  The tools of a platform are tried in a fixed order (on Linux: ss,
    netstat, lsof).  A tool whose invocation fails is passed over, and so is
    one that returns nothing; the discoverer stops at the first tool that
    returns non-empty output, parses that output and invokes no later tool.
    When every tool fails or prints nothing the result is the empty list,
    and so it is when no line of the output matches; in no case is an error
    raised.  The tools that have a successor are those piped through grep:
    what they return is never white space alone. *)
Theorem getListeningPorts_fallback (w : World) (pid : jsnum) (log : list Op) :
  filteredToolsPrintMatches w pid = true ->
  map name (commands (platform w) pid) =
    match platform w with
    | Darwin => ["lsof"]
    | Win32 => ["netstat"]
    | Linux => ["ss"; "netstat"; "lsof"]
    end
  /\ (forall cs1 c cs2 out,
         commands (platform w) pid = cs1 ++ c :: cs2 ->
         Forall (failedOrEmpty w) cs1 ->
         execAsync w (cmd c) = Some out ->
         out <> EmptyString ->
         getListeningPorts w pid log =
         (Ok (parsePorts out), log ++ map execOp (cs1 ++ [c])))
  /\ (Forall (fun d => failedOrBlank w d = true) (commands (platform w) pid) ->
      getListeningPorts w pid log =
      (Ok [], log ++ map execOp (commands (platform w) pid)))
  /\ (forall out,
         (forall line, In line (splitLF out) -> portMatch line = None) ->
         parsePorts out = [])
  /\ (exists ports, fst (getListeningPorts w pid log) = Ok ports).
Proof.
  intro Env.
  split; [destruct (platform w); reflexivity|].
  split; [|split; [|split]].
  - intros cs1 c cs2 out Hc Hf He Hne.
    assert (Hf' : Forall (fun d => failedOrBlank w d = true) cs1).
    { eapply Forall_impl; [|exact Hf]. apply failedOrEmpty_blank. }
    assert (Hto : truthy out = true) by (destruct out; [contradiction|reflexivity]).
    unfold getListeningPorts, bind. rewrite Hc.
    destruct (truthy (trim out)) eqn:Ht.
    + rewrite (runCommands_stop w cs1 cs2 c EmptyString out Hf' He Ht).
      reflexivity.
    + destruct cs2 as [|c2 cs2].
      * assert (Hall : Forall (fun d => failedOrBlank w d = true) (cs1 ++ [c])).
        { apply Forall_app. split; [exact Hf'|]. constructor; [|constructor].
          unfold failedOrBlank. now rewrite He, Ht. }
        rewrite (runCommands_exhaust w _ EmptyString Hall).
        rewrite (parsePorts_blank out Ht). reflexivity.
      * exfalso. unfold filteredToolsPrintMatches in Env.
        rewrite forallb_forall in Env. rewrite Hc in Env.
        assert (Hin : In c (removelast (cs1 ++ c :: c2 :: cs2)))
          by (apply In_removelast_middle; discriminate).
        specialize (Env c Hin). unfold printsNoBlankText in Env.
        rewrite He, Hto, Ht in Env. discriminate.
  - intro Hf. unfold getListeningPorts, bind.
    rewrite (runCommands_exhaust w _ EmptyString Hf). reflexivity.
  - apply parsePorts_no_match.
  - unfold getListeningPorts, bind.
    destruct (runCommands_total w (commands (platform w) pid) EmptyString log)
      as [out Ho].
    destruct (runCommands w (commands (platform w) pid) EmptyString log)
      as [r log'].
    simpl in Ho. subst r. eexists. reflexivity.
Qed.

Lemma getListeningPorts_fallback_witness :
  getListeningPorts fallbackWorld (Num 777) [] =
  (Ok [Num 8080],
   [OpExec (ssCommand "777"); OpExec "netstat -tulpn | grep 777"]).
Proof.
  destruct (getListeningPorts_fallback fallbackWorld (Num 777) [])
    as [_ [H _]].
  - vm_compute. reflexivity.
  - apply (H [mkCommand "ss" (ssCommand "777")]
             (mkCommand "netstat" "netstat -tulpn | grep 777")
             [mkCommand "lsof" "lsof -Pan -p 777 -i"]
             netstatListen).
    + reflexivity.
    + constructor; [left; reflexivity|constructor].
    + reflexivity.
    + discriminate.
Defined.

(** ** The ports that the parser produces *)

Lemma takeWhile_all (p : ascii -> bool) (s : string) :
  allChars p (takeWhile p s) = true.
Proof.
  induction s as [|c s IH]; simpl; [reflexivity|].
  destruct (p c) eqn:E; simpl; [now rewrite E|reflexivity].
Qed.

Lemma takeWhile_id (p : ascii -> bool) (s : string) :
  allChars p s = true -> takeWhile p s = s.
Proof.
  induction s as [|c s IH]; simpl; [reflexivity|].
  destruct (p c); simpl; [|discriminate]. intro H. now rewrite IH.
Qed.

Lemma digit_is_plain (c : ascii) :
  isDigit c = true ->
  isWhiteSpace c = false
  /\ Ascii.eqb c "-"%char = false
  /\ Ascii.eqb c "+"%char = false.
Proof.
  destruct c as [b0 b1 b2 b3 b4 b5 b6 b7].
  destruct b0, b1, b2, b3, b4, b5, b6, b7; vm_compute; intro H;
    try discriminate; repeat split.
Qed.

Lemma digitVal_nonneg (c : ascii) : isDigit c = true -> (0 <= digitVal c)%Z.
Proof.
  unfold isDigit, digitVal. intro H.
  apply andb_true_iff in H. destruct H as [H _].
  apply Nat.leb_le in H. lia.
Qed.

Lemma digitsValueFrom_nonneg (ds : string) :
  allChars isDigit ds = true ->
  forall acc, (0 <= acc)%Z -> (0 <= digitsValueFrom acc ds)%Z.
Proof.
  induction ds as [|c ds IH]; cbn [allChars digitsValueFrom];
    intros H acc Ha; [assumption|].
  apply andb_true_iff in H. destruct H as [Hc Hds].
  apply IH; [assumption|]. pose proof (digitVal_nonneg c Hc). lia.
Qed.

Lemma parseInt_digits (ds : string) :
  allChars isDigit ds = true ->
  truthy ds = true ->
  parseInt ds = Num (digitsValue ds) /\ (0 <= digitsValue ds)%Z.
Proof.
  intros Hd Ht. split.
  - destruct ds as [|c r]; [discriminate|].
    pose proof Hd as Hd'. simpl in Hd'.
    apply andb_true_iff in Hd'. destruct Hd' as [Hc _].
    destruct (digit_is_plain c Hc) as [Hw [Hm Hp]].
    unfold parseInt, trimStart. simpl dropWhile. rewrite Hw, Hm, Hp.
    rewrite (takeWhile_id isDigit (String c r) Hd). reflexivity.
  - now apply digitsValueFrom_nonneg.
Qed.

Lemma portAfter_digits (form s ds : string) :
  portAfter form s = Some ds ->
  truthy ds = true /\ allChars isDigit ds = true.
Proof.
  unfold portAfter. destruct (startsWith form s); [|discriminate].
  destruct (substringFrom (String.length form) s) as [|c r]; [discriminate|].
  destruct (Ascii.eqb c ":"%char); [|discriminate].
  destruct (isEmpty (takeWhile isDigit r)) eqn:E; [discriminate|].
  intro H. injection H as <-. unfold truthy. rewrite E.
  split; [reflexivity|apply takeWhile_all].
Qed.

Lemma firstSome_found {A B : Type} (f : A -> option B) (l : list A) (b : B) :
  firstSome f l = Some b -> exists a, In a l /\ f a = Some b.
Proof.
  induction l as [|a l IH]; simpl; [discriminate|].
  destruct (f a) as [b'|] eqn:E.
  - intro H. injection H as ->. exists a. auto.
  - intro H. destruct (IH H) as [a' [Hin Ha]]. exists a'. auto.
Qed.

Lemma portMatch_digits (line ds : string) :
  portMatch line = Some ds ->
  truthy ds = true /\ allChars isDigit ds = true.
Proof.
  induction line as [|c line IH]; cbn [portMatch].
  - destruct (portHere EmptyString) as [d|] eqn:E; [|discriminate].
    intro H. injection H as ->. unfold portHere in E.
    apply firstSome_found in E. destruct E as [form [_ E]].
    now apply portAfter_digits in E.
  - destruct (portHere (String c line)) as [d|] eqn:E; [|exact IH].
    intro H. injection H as ->. unfold portHere in E.
    apply firstSome_found in E. destruct E as [form [_ E]].
    now apply portAfter_digits in E.
Qed.

Lemma addPort_In (ports : list jsnum) (line : string) (p : jsnum) :
  In p (addPort ports line) ->
  In p ports \/ exists ds, portMatch line = Some ds /\ p = parseInt ds.
Proof.
  unfold addPort. destruct (portMatch line) as [m1|]; [|auto].
  destruct (truthy m1); [|auto].
  destruct (existsb (sameValueZero (parseInt m1)) ports); [auto|].
  rewrite in_app_iff. simpl. intros [H|[H|[]]]; [auto|].
  right. exists m1. auto.
Qed.

Lemma parsePorts_In (out : string) (p : jsnum) :
  In p (parsePorts out) ->
  exists line ds,
    In line (splitLF out) /\ portMatch line = Some ds /\ p = parseInt ds.
Proof.
  unfold parsePorts. destruct (truthy out); [|intros []].
  assert (G : forall lines acc,
             In p (fold_left addPort lines acc) ->
             In p acc \/ exists line ds,
                 In line lines /\ portMatch line = Some ds /\ p = parseInt ds).
  { induction lines as [|l lines IH]; simpl; intros acc H; [auto|].
    apply IH in H. destruct H as [H|[line [ds [Hl H]]]].
    - apply addPort_In in H. destruct H as [H|[ds H]]; [auto|].
      right. exists l, ds. tauto.
    - right. exists line, ds. tauto. }
  intro H. apply G in H. destruct H as [[]|H]. exact H.
Qed.

Lemma runCommands_source (w : World) (cs : list Command) (acc : string) :
  forall log out,
    fst (runCommands w cs acc log) = Ok out ->
    out = acc
    \/ exists c, In c cs /\ execAsync w (cmd c) = Some out
                 /\ truthy (trim out) = true.
Proof.
  induction cs as [|c cs IH]; intros log out H.
  - left. simpl in H. now injection H.
  - destruct (failedOrBlank w c) eqn:F.
    + rewrite runCommands_skip in H by assumption.
      apply IH in H. destruct H as [H|[d [Hd H]]]; [now left|].
      right. exists d. split; [now right|exact H].
    + unfold failedOrBlank in F.
      destruct (execAsync w (cmd c)) as [stdout|] eqn:He; [|discriminate].
      assert (Ht : truthy (trim stdout) = true)
        by now destruct (truthy (trim stdout)).
      rewrite (runCommands_take w c cs acc stdout log He Ht) in H.
      simpl in H. injection H as <-.
      right. exists c. split; [now left|auto].
Qed.

Lemma digitVal_le_9 (c : ascii) : isDigit c = true -> (digitVal c <= 9)%Z.
Proof.
  unfold isDigit, digitVal. intro H.
  apply andb_true_iff in H. destruct H as [_ H].
  apply Nat.leb_le in H. lia.
Qed.

Lemma digitsValueFrom_bound (ds : string) :
  allChars isDigit ds = true ->
  forall acc,
    (0 <= acc)%Z ->
    (digitsValueFrom acc ds < (acc + 1) * 10 ^ Z.of_nat (String.length ds))%Z.
Proof.
  induction ds as [|c ds IH]; cbn [allChars digitsValueFrom String.length];
    intros H acc Ha; [simpl; lia|].
  apply andb_true_iff in H. destruct H as [Hc Hds].
  pose proof (digitVal_nonneg c Hc) as H0.
  pose proof (digitVal_le_9 c Hc) as H9.
  assert (Hacc : (0 <= 10 * acc + digitVal c)%Z) by lia.
  specialize (IH Hds _ Hacc).
  rewrite Nat2Z.inj_succ, Z.pow_succ_r by lia.
  assert (Hp : (0 < 10 ^ Z.of_nat (String.length ds))%Z)
    by (apply Z.pow_pos_nonneg; lia).
  nia.
Qed.

Lemma digitsValue_below_2_53 (ds : string) :
  allChars isDigit ds = true ->
  String.length ds <= 15 ->
  (0 <= digitsValue ds < 2 ^ 53)%Z.
Proof.
  intros Hd Hl. unfold digitsValue. split.
  - apply digitsValueFrom_nonneg; [assumption|lia].
  - pose proof (digitsValueFrom_bound ds Hd 0%Z (Z.le_refl 0)) as B.
    assert (P : (10 ^ Z.of_nat (String.length ds) <= 10 ^ 15)%Z)
      by (apply Z.pow_le_mono_r; lia).
    assert (Q : (10 ^ 15 < 2 ^ 53)%Z) by reflexivity.
    lia.
Qed.

(** C4 (as amended).  Every port that the discoverer returns is what
    [parseInt] reads from the run of digits that the pattern captured on a
    line of the output of one of the platform's tools.  For a run of at most
    15 digits it is the non-negative integer that the run denotes, which lies
    below 2^53.  No range is applied to that value. *)
Theorem discovered_ports_are_digit_runs
  (w : World) (pid : jsnum) (log : list Op) (ports : list jsnum) (p : jsnum) :
  fst (getListeningPorts w pid log) = Ok ports ->
  In p ports ->
  exists c out line ds,
    In c (commands (platform w) pid)
    /\ execAsync w (cmd c) = Some out
    /\ In line (splitLF out)
    /\ portMatch line = Some ds
    /\ truthy ds = true
    /\ allChars isDigit ds = true
    /\ p = parseInt ds
    /\ (String.length ds <= 15 ->
        p = Num (digitsValue ds) /\ (0 <= digitsValue ds < 2 ^ 53)%Z).
Proof.
  unfold getListeningPorts, bind. intros H Hp.
  destruct (runCommands w (commands (platform w) pid) EmptyString log)
    as [r log'] eqn:R.
  assert (R' : fst (runCommands w (commands (platform w) pid) EmptyString log)
               = r) by now rewrite R.
  destruct r as [out| |]; simpl in H; try discriminate.
  injection H as <-.
  apply runCommands_source in R'.
  destruct R' as [->|[c [Hc [He _]]]]; [destruct Hp|].
  apply parsePorts_In in Hp. destruct Hp as [line [ds [Hl [Hm ->]]]].
  destruct (portMatch_digits line ds Hm) as [Ht Hd].
  exists c, out, line, ds.
  repeat (split; [assumption || reflexivity|]).
  intro Hlen. split.
  - now destruct (parseInt_digits ds Hd Ht) as [-> _].
  - now apply digitsValue_below_2_53.
Qed.

Lemma discovered_ports_are_digit_runs_witness :
  exists c out line ds,
    In c (commands (platform wideWorld) (Num 777))
    /\ execAsync wideWorld (cmd c) = Some out
    /\ In line (splitLF out)
    /\ portMatch line = Some ds
    /\ truthy ds = true
    /\ allChars isDigit ds = true
    /\ Num 70000 = parseInt ds
    /\ (String.length ds <= 15 ->
        Num 70000 = Num (digitsValue ds) /\ (0 <= digitsValue ds < 2 ^ 53)%Z).
Proof.
  apply (discovered_ports_are_digit_runs wideWorld (Num 777) []
           [Num 70000; Num 0] (Num 70000)).
  - vm_compute. reflexivity.
  - simpl. auto.
Defined.

(** C4 (as stated) fails: the tool output names the ports 70000 and 0, and
    the discoverer returns both. *)
Lemma port_range_counterexample :
  getListeningPorts wideWorld (Num 777) [] =
    (Ok [Num 70000; Num 0], [OpExec (ssCommand "777")])
  /\ ~ DiscoveredPortsInRange wideWorld (Num 777).
Proof.
  split; [vm_compute; reflexivity|].
  intro H.
  destruct (H [Num 70000; Num 0] (Num 70000)) as [z [E B]].
  - vm_compute. reflexivity.
  - simpl. auto.
  - injection E as <-. lia.
Qed.

(** ** Lines that are not in the listening state *)

Lemma startsWith_split (form s : string) :
  startsWith form s = true ->
  s = (form ++ substringFrom (String.length form) s)%string.
Proof.
  revert s. induction form as [|a form IH]; intros s H; simpl in *.
  - now destruct s.
  - destruct s as [|b s]; [discriminate|].
    apply andb_true_iff in H. destruct H as [Hab H].
    apply Ascii.eqb_eq in Hab. subst b. simpl. f_equal. now apply IH.
Qed.

Lemma takeWhile_dropWhile (p : ascii -> bool) (s : string) :
  (takeWhile p s ++ dropWhile p s)%string = s.
Proof.
  induction s as [|c s IH]; simpl; [reflexivity|].
  destruct (p c); simpl; [now rewrite IH|reflexivity].
Qed.

Lemma portAfter_shape (form s ds : string) :
  portAfter form s = Some ds ->
  exists rest, s = (form ++ ":" ++ ds ++ rest)%string.
Proof.
  unfold portAfter. destruct (startsWith form s) eqn:Hs; [|discriminate].
  apply startsWith_split in Hs.
  destruct (substringFrom (String.length form) s) as [|c r]; [discriminate|].
  destruct (Ascii.eqb c ":"%char) eqn:Hc; [|discriminate].
  apply Ascii.eqb_eq in Hc. subst c.
  destruct (isEmpty (takeWhile isDigit r)); [discriminate|].
  intro H. injection H as <-. exists (dropWhile isDigit r).
  simpl. now rewrite takeWhile_dropWhile.
Qed.

Lemma portHere_shape (s ds : string) :
  portHere s = Some ds ->
  exists form rest,
    In form addressForms /\ s = (form ++ ":" ++ ds ++ rest)%string.
Proof.
  unfold portHere. intro H. apply firstSome_found in H.
  destruct H as [form [Hin H]]. apply portAfter_shape in H.
  destruct H as [rest H]. exists form, rest. auto.
Qed.

Lemma portMatch_shape (line ds : string) :
  portMatch line = Some ds ->
  exists pre form rest,
    In form addressForms
    /\ line = (pre ++ form ++ ":" ++ ds ++ rest)%string.
Proof.
  induction line as [|c line IH]; cbn [portMatch].
  - destruct (portHere EmptyString) as [d|] eqn:E; [|discriminate].
    intro H. injection H as ->. apply portHere_shape in E.
    destruct E as [form [rest [Hin E']]]. exists EmptyString, form, rest. auto.
  - destruct (portHere (String c line)) as [d|] eqn:E.
    + intro H. injection H as ->. apply portHere_shape in E.
      destruct E as [form [rest [Hin E']]]. exists EmptyString, form, rest. auto.
    + intro H. destruct (IH H) as [pre [form [rest [Hin E']]]].
      exists (String c pre), form, rest. split; [exact Hin|].
      simpl. now rewrite E'.
Qed.

Lemma addPort_keeps (ports : list jsnum) (line : string) (p : jsnum) :
  In p ports -> In p (addPort ports line).
Proof.
  intro H. unfold addPort. destruct (portMatch line) as [m1|]; [|exact H].
  destruct (truthy m1); [|exact H].
  destruct (existsb (sameValueZero (parseInt m1)) ports); [exact H|].
  apply in_app_iff. now left.
Qed.

Lemma addPort_adds (ports : list jsnum) (line ds : string) :
  portMatch line = Some ds -> In (parseInt ds) (addPort ports line).
Proof.
  intro H. unfold addPort. rewrite H.
  destruct (portMatch_digits line ds H) as [-> _].
  destruct (existsb (sameValueZero (parseInt ds)) ports) eqn:E.
  - now apply existsb_sameValueZero.
  - apply in_app_iff. right. now left.
Qed.

Lemma fold_addPort_keeps (lines : list string) (ports : list jsnum)
  (p : jsnum) :
  In p ports -> In p (fold_left addPort lines ports).
Proof.
  revert ports. induction lines as [|l lines IH]; intros ports H; simpl.
  - exact H.
  - apply IH. now apply addPort_keeps.
Qed.

Lemma fold_addPort_adds (lines : list string) (ports : list jsnum)
  (line ds : string) :
  In line lines ->
  portMatch line = Some ds ->
  In (parseInt ds) (fold_left addPort lines ports).
Proof.
  revert ports. induction lines as [|l lines IH]; intros ports Hl Hm; simpl.
  - destruct Hl.
  - destruct Hl as [->|Hl].
    + apply fold_addPort_keeps. now apply addPort_adds.
    + now apply IH.
Qed.

Lemma parsePorts_adds (out line ds : string) :
  In line (splitLF out) ->
  portMatch line = Some ds ->
  In (parseInt ds) (parsePorts out).
Proof.
  intros Hl Hm. unfold parsePorts. destruct out as [|c out].
  - simpl in Hl. destruct Hl as [<-|[]]. discriminate.
  - cbn [truthy isEmpty negb]. now apply fold_addPort_adds with (line := line).
Qed.

(** C2.  The parser does not read the state of a line: the socket tools
    are expected to list listening sockets only, which ss, netstat and the
    Windows netstat are asked to do (the letter l of their options, findstr
    LISTENING) and lsof is not.  On macOS, where lsof is the only tool, the
    line of an established connection of the process carries no listening
    marker and yet gives the port 52344, which the discoverer returns next
    to the listening port 42100.  Text with 127.0.0.1:4050 and 0.0.0.0:9090
    on listening lines gives exactly 4050 and 9090. *)
Theorem getListeningPorts_collects_established_port :
  map cmd (commands Linux (Num 777)) =
    [ssCommand "777"; "netstat -tulpn | grep 777"; "lsof -Pan -p 777 -i"]
  /\ map cmd (commands Win32 (Num 777)) =
       ["netstat -ano | findstr LISTENING | findstr 777"]
  /\ map cmd (commands Darwin (Num 777)) = ["lsof -Pan -p 777 -i"]
  /\ In establishedLine (splitLF lsofOutput)
  /\ hasListeningMarker establishedLine = false
  /\ portMatch establishedLine = Some "52344"
  /\ getListeningPorts darwinWorld (Num 777) [] =
     (Ok [Num 42100; Num 52344], [OpExec "lsof -Pan -p 777 -i"])
  /\ ~ CollectsOnlyFromListeningLines
  /\ parsePorts listeningText = [Num 4050; Num 9090].
Proof.
  split; [reflexivity|]. split; [reflexivity|]. split; [reflexivity|].
  split; [vm_compute; auto|].
  split; [vm_compute; reflexivity|]. split; [vm_compute; reflexivity|].
  split; [vm_compute; reflexivity|]. split; [|vm_compute; reflexivity].
  intro H. destruct (H establishedLine (Num 52344)) as [line [ds [Hl [Hm _]]]].
  - vm_compute. auto.
  - simpl in Hl. destruct Hl as [<-|[]]. vm_compute in Hm. discriminate.
Qed.

(** ** Extraction of the credential *)

Lemma takeWhile_app (p : ascii -> bool) (a b : string) :
  allChars p a = true ->
  headSatisfies p b = false ->
  takeWhile p (a ++ b)%string = a /\ dropWhile p (a ++ b)%string = b.
Proof.
  intros Ha Hb. induction a as [|c a IH]; simpl in *.
  - destruct b as [|d b]; simpl in *; [auto|]. now rewrite Hb.
  - apply andb_true_iff in Ha. destruct Ha as [Hc Ha]. rewrite Hc.
    destruct (IH Ha) as [-> ->]. auto.
Qed.

Lemma substringFrom_app (f s : string) :
  substringFrom (String.length f) (f ++ s)%string = s.
Proof.
  induction f as [|c f IH]; simpl; [now destruct s|exact IH].
Qed.

Lemma token_char_not_sep (c : ascii) :
  isTokenChar c = true -> isFlagSep c = false.
Proof.
  destruct c as [b0 b1 b2 b3 b4 b5 b6 b7].
  destruct b0, b1, b2, b3, b4, b5, b6, b7; vm_compute; intro H;
    try discriminate; reflexivity.
Qed.

Lemma csrfTokenHere_shape (s tok : string) :
  csrfTokenHere s = Some tok ->
  truthy tok = true /\ allChars isTokenChar tok = true.
Proof.
  unfold csrfTokenHere.
  destruct (startsWithCI csrfFlag s); [|discriminate].
  cbv zeta. set (r := substringFrom (String.length csrfFlag) s).
  destruct (isEmpty (takeWhile isFlagSep r)); [discriminate|].
  destruct (isEmpty (takeWhile isTokenChar (dropWhile isFlagSep r))) eqn:E;
    [discriminate|].
  intro H. injection H as <-. unfold truthy. rewrite E.
  split; [reflexivity|apply takeWhile_all].
Qed.

Lemma csrfTokenMatch_here (s tok : string) :
  csrfTokenHere s = Some tok -> csrfTokenMatch s = Some tok.
Proof.
  intro H. destruct s; cbn [csrfTokenMatch]; now rewrite H.
Qed.

Lemma csrfTokenMatch_skip (c : ascii) (s : string) :
  startsWithCI csrfFlag (String c s) = false ->
  csrfTokenMatch (String c s) = csrfTokenMatch s.
Proof.
  intro H. cbn [csrfTokenMatch]. unfold csrfTokenHere at 1. now rewrite H.
Qed.

Lemma csrfTokenMatch_shape (line tok : string) :
  csrfTokenMatch line = Some tok ->
  truthy tok = true /\ allChars isTokenChar tok = true.
Proof.
  induction line as [|c line IH]; cbn [csrfTokenMatch].
  - destruct (csrfTokenHere EmptyString) as [t|] eqn:E; [|discriminate].
    intro H. injection H as ->. now apply csrfTokenHere_shape in E.
  - destruct (csrfTokenHere (String c line)) as [t|] eqn:E; [|exact IH].
    intro H. injection H as ->. now apply csrfTokenHere_shape in E.
Qed.

Lemma flagIndex_zero (s : string) :
  flagIndex s = Some 0 -> startsWithCI csrfFlag s = true.
Proof.
  destruct s as [|c s]; cbn [flagIndex];
    destruct (startsWithCI csrfFlag _); try reflexivity; try discriminate.
  destruct (flagIndex s); discriminate.
Qed.

Lemma flagIndex_succ (c : ascii) (s : string) (n : nat) :
  flagIndex (String c s) = Some (S n) ->
  startsWithCI csrfFlag (String c s) = false /\ flagIndex s = Some n.
Proof.
  cbn [flagIndex]. destruct (startsWithCI csrfFlag (String c s));
    [discriminate|].
  destruct (flagIndex s) as [m|]; [|discriminate].
  simpl. intro H. injection H as ->. auto.
Qed.

Lemma flagIndex_none (c : ascii) (s : string) :
  flagIndex (String c s) = None ->
  startsWithCI csrfFlag (String c s) = false /\ flagIndex s = None.
Proof.
  cbn [flagIndex]. destruct (startsWithCI csrfFlag (String c s));
    [discriminate|].
  destruct (flagIndex s); [discriminate|auto].
Qed.

Lemma csrfTokenMatch_without_flag (line : string) :
  flagIndex line = None -> csrfTokenMatch line = None.
Proof.
  induction line as [|c line IH]; intro H; [reflexivity|].
  apply flagIndex_none in H. destruct H as [Hs Hf].
  rewrite csrfTokenMatch_skip by exact Hs. now apply IH.
Qed.

Lemma csrfTokenMatch_at_first_flag (pre s tok : string) :
  flagIndex (pre ++ s)%string = Some (String.length pre) ->
  csrfTokenHere s = Some tok ->
  csrfTokenMatch (pre ++ s)%string = Some tok.
Proof.
  intros Hf Hh. induction pre as [|c pre IH];
    cbn [String.append String.length] in *.
  - now apply csrfTokenMatch_here.
  - apply flagIndex_succ in Hf. destruct Hf as [Hs Hf].
    rewrite csrfTokenMatch_skip by exact Hs. now apply IH.
Qed.

Lemma csrfTokenHere_flag_value (f seps tok rest : string) :
  startsWithCI csrfFlag (f ++ seps ++ tok ++ rest)%string = true ->
  String.length f = 12 ->
  truthy seps = true -> allChars isFlagSep seps = true ->
  truthy tok = true -> allChars isTokenChar tok = true ->
  headSatisfies isTokenChar rest = false ->
  csrfTokenHere (f ++ seps ++ tok ++ rest)%string = Some tok.
Proof.
  intros Hs Hf Hse Hsa Hte Hta Hr. unfold csrfTokenHere. rewrite Hs.
  cbv zeta.
  replace (String.length csrfFlag) with (String.length f) by now rewrite Hf.
  rewrite substringFrom_app.
  assert (Hh : headSatisfies isFlagSep (tok ++ rest)%string = false).
  { destruct tok as [|c tok]; [discriminate|]. simpl in *.
    apply andb_true_iff in Hta. destruct Hta as [Hc _].
    now apply token_char_not_sep. }
  destruct (takeWhile_app isFlagSep seps (tok ++ rest)%string Hsa Hh)
    as [-> ->].
  destruct (takeWhile_app isTokenChar tok rest Hta Hr) as [-> _].
  unfold truthy in Hse, Hte.
  destruct (isEmpty seps); [discriminate|].
  destruct (isEmpty tok); [discriminate|]. reflexivity.
Qed.

Lemma wmic_pair (st : WmicState) (cmdline pidText : string) :
  wmicCandidates
    (wmicStep (wmicStep st ("CommandLine=" ++ cmdline)%string)
              ("ProcessId=" ++ pidText)%string) =
  if truthy cmdline && truthy pidText then
    match csrfTokenMatch cmdline with
    | Some tok => wmicCandidates st ++ [mkCandidate (parseInt pidText) tok]
    | None => wmicCandidates st
    end
  else wmicCandidates st.
Proof. reflexivity. Qed.

Lemma fold_pushOpt_In {A B : Type} (f : A -> option B) (lines : list A)
  (acc : list B) (c : B) :
  In c (fold_left (fun cs l => pushOpt cs (f l)) lines acc) ->
  In c acc \/ exists l, In l lines /\ f l = Some c.
Proof.
  revert acc. induction lines as [|l lines IH]; intros acc H; simpl in H.
  - now left.
  - apply IH in H. destruct H as [H|[l' [Hl H]]].
    + destruct (f l) as [b|] eqn:E; simpl in H; [|now left].
      apply in_app_iff in H. destruct H as [H|[H|[]]]; [now left|].
      subst b. right. exists l. split; [now left|exact E].
    + right. exists l'. split; [now right|exact H].
Qed.

Lemma unixLineCandidate_token (line : string) (c : ProcessCandidate) :
  unixLineCandidate line = Some c ->
  csrfTokenMatch line = Some (csrfToken c).
Proof.
  unfold unixLineCandidate. destruct (csrfTokenMatch line) as [tok|];
    [|discriminate].
  destruct (negb _); [|discriminate]. intro H. now injection H as <-.
Qed.

Lemma wmicStep_tokens (P : string -> Prop) (st : WmicState) (line : string) :
  (forall s tok, csrfTokenMatch s = Some tok -> P tok) ->
  Forall (fun c => P (csrfToken c)) (wmicCandidates st) ->
  Forall (fun c => P (csrfToken c)) (wmicCandidates (wmicStep st line)).
Proof.
  intros HP H. unfold wmicStep.
  destruct (startsWith "CommandLine=" line); [exact H|].
  destruct (startsWith "ProcessId=" line); [|exact H].
  cbn [wmicCandidates].
  destruct (truthy (currentCmd st) && truthy (substringFrom 10 line));
    [|exact H].
  destruct (csrfTokenMatch (currentCmd st)) as [tok|] eqn:E; [|exact H].
  apply Forall_app. split; [exact H|].
  constructor; [|constructor]. simpl. now apply (HP (currentCmd st)).
Qed.

(** Every candidate of a listing carries a token that the pattern matched. *)
Lemma extractCandidates_tokens (P : string -> Prop) (platform : Platform)
  (psStdout : string) (c : ProcessCandidate) :
  (forall s tok, csrfTokenMatch s = Some tok -> P tok) ->
  In c (extractCandidates platform psStdout) ->
  P (csrfToken c).
Proof.
  intros HP H.
  assert (U : In c (unixCandidates psStdout) -> P (csrfToken c)).
  { unfold unixCandidates. intro G. apply fold_pushOpt_In in G.
    destruct G as [[]|[l [_ G]]].
    apply unixLineCandidate_token in G. now apply (HP l). }
  destruct platform; simpl in H; try now apply U.
  unfold win32Candidates in H.
  assert (F : forall lines st,
             Forall (fun c => P (csrfToken c)) (wmicCandidates st) ->
             Forall (fun c => P (csrfToken c))
                    (wmicCandidates (fold_left wmicStep lines st))).
  { induction lines as [|l lines IH]; intros st Hst; simpl; [exact Hst|].
    apply IH. now apply wmicStep_tokens. }
  specialize (F (filter (fun l => truthy (trim l)) (splitCRLF (trim psStdout)))
                (mkWmic EmptyString EmptyString []) (Forall_nil _)).
  rewrite Forall_forall in F. now apply F.
Qed.

(** C3 (as amended).  Take a line in which the first occurrence of the flag
    (letters in either case) is followed by one or more equal signs or white
    spaces and then by a run of hexadecimal digits of either case and hyphens
    that is as long as possible.  The pattern extracts exactly that run; on a
    non-Windows listing the line yields a candidate as soon as its first
    field is read as a pid, and so does a CommandLine/ProcessId pair of the
    Windows listing.  The token of every candidate of a listing is non-empty
    and made of hexadecimal digits of either case and hyphens.  A line
    without the flag yields no token and no candidate. *)
Theorem csrf_token_extraction :
  (forall pre f seps tok rest,
      flagIndex (pre ++ f ++ seps ++ tok ++ rest)%string
        = Some (String.length pre) ->
      String.length f = 12 ->
      truthy seps = true -> allChars isFlagSep seps = true ->
      truthy tok = true -> allChars isTokenChar tok = true ->
      headSatisfies isTokenChar rest = false ->
      csrfTokenMatch (pre ++ f ++ seps ++ tok ++ rest)%string = Some tok)
  /\ (forall platform psStdout c,
         In c (extractCandidates platform psStdout) ->
         truthy (csrfToken c) = true
         /\ allChars isTokenChar (csrfToken c) = true)
  /\ (forall line tok z,
         csrfTokenMatch line = Some tok ->
         parseInt (firstPart (splitWs (trim line))) = Num z ->
         unixLineCandidate line = Some (mkCandidate (Num z) tok))
  /\ (forall st cmdline pidText tok,
         csrfTokenMatch cmdline = Some tok ->
         truthy pidText = true ->
         wmicCandidates
           (wmicStep (wmicStep st ("CommandLine=" ++ cmdline)%string)
                     ("ProcessId=" ++ pidText)%string)
         = wmicCandidates st ++ [mkCandidate (parseInt pidText) tok])
  /\ (forall line,
         flagIndex line = None ->
         csrfTokenMatch line = None /\ unixLineCandidate line = None)
  /\ (forall st cmdline pidText,
         flagIndex cmdline = None ->
         wmicCandidates
           (wmicStep (wmicStep st ("CommandLine=" ++ cmdline)%string)
                     ("ProcessId=" ++ pidText)%string)
         = wmicCandidates st).
Proof.
  split; [|split; [|split; [|split; [|split]]]].
  - intros pre f seps tok rest Hi Hf Hse Hsa Hte Hta Hr.
    apply csrfTokenMatch_at_first_flag; [exact Hi|].
    apply csrfTokenHere_flag_value; auto.
    clear -Hi. induction pre as [|c pre IH];
      cbn [String.append String.length] in Hi.
    + now apply flagIndex_zero.
    + apply flagIndex_succ in Hi. destruct Hi as [_ Hi]. now apply IH.
  - intros platform psStdout c Hc.
    apply (extractCandidates_tokens
             (fun tok => truthy tok = true /\ allChars isTokenChar tok = true)
             platform psStdout c); [apply csrfTokenMatch_shape|exact Hc].
  - intros line tok z Hm Hp. unfold unixLineCandidate. now rewrite Hm, Hp.
  - intros st cmdline pidText tok Hm Hp. rewrite wmic_pair, Hm, Hp.
    destruct cmdline; [discriminate|reflexivity].
  - intros line Hf. pose proof (csrfTokenMatch_without_flag line Hf) as Hm.
    split; [exact Hm|]. unfold unixLineCandidate. now rewrite Hm.
  - intros st cmdline pidText Hf. rewrite wmic_pair.
    rewrite (csrfTokenMatch_without_flag cmdline Hf).
    now destruct (truthy cmdline && truthy pidText).
Qed.

Lemma csrf_token_extraction_witness :
  csrfTokenMatch
    ("  42 /opt/x/ls " ++ "--CSRF_token" ++ "= " ++ "AbC-12" ++ " --port 1")%string
  = Some "AbC-12".
Proof.
  destruct csrf_token_extraction as [H _].
  apply (H "  42 /opt/x/ls " "--CSRF_token" "= " "AbC-12" " --port 1");
    reflexivity.
Defined.

(** C3 (as stated) fails: the token of this listing is written in capitals,
    and the locator extracts it as it stands. *)
Lemma capitals_counterexample :
  extractCandidates Linux capitalsListing = [mkCandidate (Num 42) "ABCD-12"]
  /\ allChars isLowerHexOrHyphen "ABCD-12" = false
  /\ ~ TokensAreLowercaseHex.
Proof.
  split; [vm_compute; reflexivity|]. split; [vm_compute; reflexivity|].
  intro H.
  specialize (H Linux capitalsListing (mkCandidate (Num 42) "ABCD-12")).
  assert (I : In (mkCandidate (Num 42) "ABCD-12")
                 (extractCandidates Linux capitalsListing))
    by (vm_compute; auto).
  specialize (H I). vm_compute in H. discriminate.
Qed.

(** * Further properties of the pipeline *)

(** ** The parser keeps the order of first appearance *)

Lemma addPort_setAdd (ports : list jsnum) (line : string) :
  addPort ports line = fold_left setAdd (linePorts line) ports.
Proof.
  unfold addPort, linePorts. destruct (portMatch line) as [ds|] eqn:E;
    [|reflexivity].
  destruct (portMatch_digits line ds E) as [-> _]. reflexivity.
Qed.

Lemma fold_addPort_setAdd (lines : list string) (ports : list jsnum) :
  fold_left addPort lines ports =
  fold_left setAdd (flat_map linePorts lines) ports.
Proof.
  revert ports. induction lines as [|l lines IH]; intro ports; simpl.
  - reflexivity.
  - now rewrite fold_left_app, IH, addPort_setAdd.
Qed.

(** X1.  The list that the parser returns is the de-duplication, in the
    order of first appearance, of the ports matched line by line; it holds
    no port twice. *)
Theorem parsePorts_first_appearance_order (portStdout : string) :
  parsePorts portStdout = setOf (flat_map linePorts (splitLF portStdout))
  /\ NoDup (parsePorts portStdout).
Proof.
  assert (E : parsePorts portStdout =
              setOf (flat_map linePorts (splitLF portStdout))).
  { unfold parsePorts, setOf. destruct portStdout as [|c r].
    - reflexivity.
    - cbn [truthy isEmpty negb]. apply fold_addPort_setAdd. }
  split; [exact E|]. rewrite E. apply setOf_NoDup.
Qed.

(** ** The deduplicated candidates *)

Lemma sameValueZero_sym (a b : jsnum) : sameValueZero a b = sameValueZero b a.
Proof.
  destruct (sameValueZero a b) eqn:E.
  - apply sameValueZero_eq in E. subst. now rewrite sameValueZero_refl.
  - destruct (sameValueZero b a) eqn:F; [|reflexivity].
    apply sameValueZero_eq in F. subst. now rewrite sameValueZero_refl in E.
Qed.

Lemma mapSet_keys_setAdd {V : Type} (m : list (jsnum * V)) (k : jsnum) (v : V) :
  map fst (mapSet m k v) = setAdd (map fst m) k.
Proof.
  unfold setAdd. induction m as [|[k0 v0] m IH]; simpl; [reflexivity|].
  rewrite (sameValueZero_sym k k0).
  destruct (sameValueZero k0 k); simpl; [reflexivity|].
  rewrite IH. now destruct (existsb (sameValueZero k) (map fst m)).
Qed.

Lemma mapOfEntries_keys_from {V : Type} (entries m : list (jsnum * V)) :
  map fst (fold_left (fun m kv => mapSet m (fst kv) (snd kv)) entries m) =
  fold_left setAdd (map fst entries) (map fst m).
Proof.
  revert m. induction entries as [|kv entries IH]; intro m; simpl.
  - reflexivity.
  - now rewrite IH, mapSet_keys_setAdd.
Qed.

Lemma mapSet_fresh {V : Type} (m : list (jsnum * V)) (k : jsnum) (v : V) :
  ~ In k (map fst m) -> mapSet m k v = m ++ [(k, v)].
Proof.
  induction m as [|[k0 v0] m IH]; simpl; intro H; [reflexivity|].
  destruct (sameValueZero k0 k) eqn:E.
  - apply sameValueZero_eq in E. exfalso. apply H. now left.
  - rewrite IH; [reflexivity|]. intro G. apply H. now right.
Qed.

Lemma mapOfEntries_distinct_from {V : Type} (entries m : list (jsnum * V)) :
  NoDup (map fst (m ++ entries)) ->
  fold_left (fun m kv => mapSet m (fst kv) (snd kv)) entries m = m ++ entries.
Proof.
  revert m. induction entries as [|[k v] entries IH]; intros m H; simpl.
  - now rewrite app_nil_r.
  - assert (F : ~ In k (map fst m)).
    { rewrite map_app in H. simpl in H. apply NoDup_remove_2 in H.
      intro G. apply H. apply in_app_iff. now left. }
    rewrite (mapSet_fresh m k v F), IH.
    + now rewrite <- app_assoc.
    + now rewrite <- app_assoc.
Qed.

Lemma pidEntries_keys (candidates : list ProcessCandidate) :
  map fst (pidEntries candidates) = map pid candidates.
Proof. unfold pidEntries. rewrite map_map. reflexivity. Qed.

Lemma pidEntries_values (candidates : list ProcessCandidate) :
  map snd (pidEntries candidates) = candidates.
Proof. unfold pidEntries. rewrite map_map. simpl. apply map_id. Qed.

Lemma uniqueCandidates_pids (candidates : list ProcessCandidate) :
  map pid (uniqueCandidates candidates) = setOf (map pid candidates).
Proof.
  unfold uniqueCandidates, mapValues. fold (pidEntries candidates).
  set (m := mapOfEntries (pidEntries candidates)).
  transitivity (map fst m).
  - rewrite map_map. apply map_ext_in. intros kv H.
    unfold m, mapOfEntries in H. apply mapOfEntries_In_from in H.
    destruct H as [[]|H]. apply pidEntries_In in H. now destruct H.
  - unfold m, mapOfEntries. rewrite mapOfEntries_keys_from, pidEntries_keys.
    reflexivity.
Qed.

Lemma uniqueCandidates_In (candidates : list ProcessCandidate)
  (c : ProcessCandidate) :
  In c (uniqueCandidates candidates) -> In c candidates.
Proof.
  intro H. unfold uniqueCandidates, mapValues in H.
  apply in_map_iff in H. destruct H as [kv [<- H]].
  unfold mapOfEntries in H. apply mapOfEntries_In_from in H.
  destruct H as [[]|H]. now apply pidEntries_In in H.
Qed.

(** X2.  The pids of the deduplicated candidates are the pids of the input
    in the order of their first occurrence, each once; every deduplicated
    candidate is one of the input; and deduplicating twice changes nothing. *)
Theorem uniqueCandidates_set_of_pids (candidates : list ProcessCandidate) :
  map pid (uniqueCandidates candidates) = setOf (map pid candidates)
  /\ NoDup (map pid (uniqueCandidates candidates))
  /\ (forall c, In c (uniqueCandidates candidates) -> In c candidates)
  /\ uniqueCandidates (uniqueCandidates candidates) = uniqueCandidates candidates.
Proof.
  assert (N : NoDup (map pid (uniqueCandidates candidates)))
    by (rewrite uniqueCandidates_pids; apply setOf_NoDup).
  split; [apply uniqueCandidates_pids|]. split; [exact N|]. split.
  - apply uniqueCandidates_In.
  - set (u := uniqueCandidates candidates) in *.
    unfold uniqueCandidates at 1. unfold mapValues, mapOfEntries.
    fold (pidEntries u).
    rewrite (mapOfEntries_distinct_from (pidEntries u) []).
    + simpl. apply pidEntries_values.
    + simpl. now rewrite pidEntries_keys.
Qed.

(** ** The discovery fan-out *)

Lemma runCommands_pure (w : World) (cs : list Command) (acc : string) :
  forall log,
    runCommands w cs acc log =
    (Ok (chosenOutput w cs acc), log ++ map execOp (triedCommands w cs)).
Proof.
  induction cs as [|c cs IH]; intro log.
  - simpl. unfold ret. now rewrite app_nil_r.
  - destruct (failedOrBlank w c) eqn:F.
    + rewrite runCommands_skip by exact F. rewrite IH.
      cbn [chosenOutput triedCommands map]. rewrite F.
      unfold failedOrBlank in F.
      destruct (execAsync w (cmd c)) as [stdout|].
      * destruct (truthy (trim stdout)); [discriminate|].
        now rewrite <- app_assoc.
      * now rewrite <- app_assoc.
    + cbn [chosenOutput triedCommands map]. rewrite F.
      unfold failedOrBlank in F.
      destruct (execAsync w (cmd c)) as [stdout|] eqn:He; [|discriminate].
      destruct (truthy (trim stdout)) eqn:Ht; [|discriminate].
      now rewrite (runCommands_take w c cs acc stdout log He Ht).
Qed.

Lemma getListeningPorts_pure (w : World) (pid : jsnum) (log : list Op) :
  getListeningPorts w pid log =
  (Ok (discoveredPorts w pid),
   log ++ map execOp (triedCommands w (commands (platform w) pid))).
Proof.
  unfold getListeningPorts, bind. now rewrite runCommands_pure.
Qed.

Lemma discoverFor_runs (w : World) (cand : ProcessCandidate) :
  Runs (discoverFor w cand) (Ok (portCandidatesOf w cand)) (discoverOps w cand).
Proof.
  intro log. unfold discoverFor, tryCatch, bind.
  now rewrite getListeningPorts_pure.
Qed.

Lemma discoverStage_pure (w : World) (cands : list ProcessCandidate)
  (log : list Op) :
  discoverStage w cands log =
  (Ok (flat_map (portCandidatesOf w) cands),
   log ++ flat_map (discoverOps w) cands).
Proof.
  unfold discoverStage, bind, promiseAll. rewrite !map_map. simpl.
  rewrite (startAll_runs (discoverFor w)
             (fun cand => Ok (portCandidatesOf w cand)) (discoverOps w))
    by (intros; apply discoverFor_runs).
  replace (map (fun cand => Ok (portCandidatesOf w cand)) cands)
    with (map (@Ok (list PortCandidate)) (map (portCandidatesOf w) cands))
    by now rewrite map_map.
  replace (List.length (map (@Ok (list PortCandidate))
                            (map (portCandidatesOf w) cands)))
    with (List.length (map (portCandidatesOf w) cands))
    by now rewrite !length_map.
  rewrite settleAll_fulfilled.
  - unfold ret. now rewrite (flat_map_concat_map (portCandidatesOf w)).
  - rewrite !length_map. reflexivity.
Qed.

Lemma triedCommands_prefix (w : World) (cs : list Command) :
  exists rest, cs = triedCommands w cs ++ rest.
Proof.
  induction cs as [|c cs [rest IH]]; simpl.
  - now exists [].
  - destruct (failedOrBlank w c).
    + exists rest. now rewrite <- IH.
    + now exists cs.
Qed.

Lemma commands_count (platform : Platform) (pid : jsnum) :
  1 <= List.length (commands platform pid) <= 3.
Proof. destruct platform; simpl; lia. Qed.

Lemma discoverOps_count (w : World) (cand : ProcessCandidate) :
  1 <= List.length (discoverOps w cand) <= 3.
Proof.
  unfold discoverOps. rewrite length_map.
  pose proof (commands_count (platform w) (pid cand)) as B.
  destruct (triedCommands_prefix w (commands (platform w) (pid cand)))
    as [rest E].
  assert (L : List.length (commands (platform w) (pid cand)) =
              List.length (triedCommands w (commands (platform w) (pid cand)))
              + List.length rest)
    by (rewrite E at 1; apply length_app).
  split; [|lia].
  destruct (commands (platform w) (pid cand)) as [|c cs]; simpl in *; lia.
Qed.

(** X3.  Provided every command invocation returns or fails, the discovery
    stage raises no error: whatever the instants at which the branches
    complete, its result lists the port candidates in the order of the
    process candidates, every port candidate carrying the token and the pid
    of the process candidate for which the port was found.  The operations
    of the stage are those of its branches, in whatever order the branches
    interleave: for each process candidate between one and three commands,
    and nothing else. *)
Theorem discoverStage_in_candidate_order
  (w : World) (cands : list ProcessCandidate) (log : list Op) :
  fst (discoverStage w cands log) = Ok (flat_map (portCandidatesOf w) cands)
  /\ (forall op,
         In op (snd (discoverStage w cands log)) <->
         In op log
         \/ exists cand, In cand cands /\ In op (discoverOps w cand))
  /\ (forall pc,
         In pc (flat_map (portCandidatesOf w) cands) <->
         exists cand,
           In cand cands
           /\ In (port pc) (discoveredPorts w (pid cand))
           /\ token pc = csrfToken cand /\ ownerPid pc = pid cand)
  /\ (forall cand, 1 <= List.length (discoverOps w cand) <= 3)
  /\ (forall op, In op (flat_map (discoverOps w) cands) -> isExecOp op = true).
Proof.
  rewrite discoverStage_pure. cbn [fst snd].
  split; [reflexivity|]. split; [|split; [|split]].
  - intro op. rewrite in_app_iff, in_flat_map. reflexivity.
  - intro pc. rewrite in_flat_map. split.
    + intros [cand [Hc Hp]]. exists cand. split; [exact Hc|].
      unfold portCandidatesOf in Hp. apply in_map_iff in Hp.
      destruct Hp as [p [<- Hp]]. simpl. auto.
    + intros [cand [Hc [Hp [Ht Ho]]]]. exists cand. split; [exact Hc|].
      unfold portCandidatesOf. apply in_map_iff. exists (port pc).
      split; [|exact Hp]. destruct pc as [p t o]. simpl in *. now subst.
  - apply discoverOps_count.
  - intros op H. apply in_flat_map in H. destruct H as [cand [_ H]].
    unfold discoverOps in H. apply in_map_iff in H.
    destruct H as [c [<- _]]. reflexivity.
Qed.

(** ** A branch that never settles *)

Lemma completions_nth {A : Type} (l : list (nat * Res A)) :
  forall (i : nat) (c : Completion A),
    In c (completionsFrom i l) ->
    i <= slot c /\ nth_error l (slot c - i) = Some (doneAt c, outcome c).
Proof.
  induction l as [|[t r] l IH]; intros i c; simpl; [intros []|].
  intros [Hc|Hc].
  - subst c. simpl. rewrite Nat.sub_diag. auto.
  - destruct (IH (S i) c Hc) as [Hle Hn]. split; [lia|].
    replace (slot c - i) with (S (slot c - S i)) by lia. exact Hn.
Qed.

Lemma nth_error_combine {A B : Type} (a : list A) (b : list B) :
  forall k x y,
    nth_error (combine a b) k = Some (x, y) ->
    nth_error a k = Some x /\ nth_error b k = Some y.
Proof.
  revert b. induction a as [|a0 a IH]; intros [|b0 b] k x y; simpl;
    try (destruct k; discriminate).
  destruct k as [|k]; simpl.
  - intro H. injection H as -> ->. auto.
  - apply IH.
Qed.

Lemma settle_slot_untouched {A : Type} (j : nat) :
  forall (order : list (Completion A))
         (st : list (option A) * option Failure),
    nth_error (fst st) j = Some None ->
    (forall c v, In c order -> slot c = j -> outcome c <> Ok v) ->
    nth_error (fst (fold_left settleOne order st)) j = Some None.
Proof.
  induction order as [|c order IH]; intros st Hj Hord; simpl; [exact Hj|].
  apply IH.
  - unfold settleOne. destruct (outcome c) as [v| |] eqn:Ho; simpl; auto.
    rewrite update_nth_error. destruct (Nat.eqb (slot c) j) eqn:E; [|exact Hj].
    apply Nat.eqb_eq in E. exfalso.
    apply (Hord c v); [now left|exact E|exact Ho].
  - intros d v Hd. apply Hord. now right.
Qed.

Lemma allSome_hole {A : Type} (l : list (option A)) (j : nat) :
  nth_error l j = Some None -> allSome l = None.
Proof.
  revert j. induction l as [|o l IH]; intros [|j]; simpl; try discriminate.
  - intro H. now injection H as ->.
  - intro H. destruct o; [|reflexivity]. now rewrite (IH j H).
Qed.

(** When no branch is rejected and one never settles, neither does the
    aggregate. *)
Lemma settleAll_hang {A : Type} (ts : list nat) (rs : list (Res A)) (j : nat) :
  List.length ts = List.length rs ->
  (forall r e, In r rs -> r <> Throw e) ->
  nth_error rs j = Some Hang ->
  settleAll (sortByTime (completionsFrom 0 (combine ts rs))) (List.length rs)
  = Hang.
Proof.
  intros Hl Hno Hj.
  set (order := sortByTime (completionsFrom 0 (combine ts rs))).
  assert (Hsrc : forall c, In c order -> nth_error rs (slot c) = Some (outcome c)).
  { intros c Hc. unfold order in Hc. rewrite sortByTime_In in Hc.
    apply completions_nth in Hc. destruct Hc as [_ Hc].
    rewrite Nat.sub_0_r in Hc. now apply nth_error_combine in Hc. }
  assert (Hnot : forall e, settleAll order (List.length rs) <> Throw e).
  { apply settleAll_not_rejected. intros c e Hc.
    apply Hno. apply (nth_error_In rs (slot c)). now apply Hsrc. }
  assert (Hhole : nth_error
                    (fst (fold_left settleOne order
                            (repeat None (List.length rs), None))) j
                  = Some None).
  { apply settle_slot_untouched; simpl.
    - apply nth_error_repeat. apply nth_error_Some. now rewrite Hj.
    - intros c v Hc Hs Ho. apply Hsrc in Hc. rewrite Hs, Hj in Hc.
      rewrite Ho in Hc. discriminate. }
  unfold settleAll in *.
  destruct (snd (fold_left settleOne order (repeat None (List.length rs), None)))
    as [e|].
  - exfalso. now apply (Hnot e).
  - now rewrite (allSome_hole _ j Hhole).
Qed.

Lemma probeJobs_source (allPorts : list PortCandidate) (j : jsnum * string) :
  In j (probeJobs allPorts) ->
  exists mc,
    In (fst j) (uniquePorts allPorts)
    /\ matchingCandidate allPorts (fst j) = Some mc
    /\ snd j = token mc.
Proof.
  unfold probeJobs. rewrite in_flat_map. intros [p [Hp Hj]].
  destruct (matchingCandidate allPorts p) as [mc|] eqn:M; [|destruct Hj].
  destruct Hj as [<-|[]]. simpl. exists mc. auto.
Qed.

Lemma probeStage_log (w : World) (allPorts : list PortCandidate)
  (log : list Op) :
  snd (probeStage w allPorts log) = log ++ map jobRequest (probeJobs allPorts).
Proof.
  unfold probeStage, bind. rewrite probeAll_unfold.
  destruct (settleAll _ _) as [results| |]; try reflexivity.
  unfold selectValid. destruct (find notNull results) as [[r|]|]; reflexivity.
Qed.

Lemma probeStage_silent (w : World) (allPorts : list PortCandidate)
  (log : list Op) (j : jsnum * string) :
  In j (probeJobs allPorts) ->
  isSilent w j = true ->
  fst (probeStage w allPorts log) = Hang.
Proof.
  intros Hj Hs. destruct (probeJobs_source allPorts j Hj) as [mc [Hp [Hm Ht]]].
  unfold probeStage, bind. rewrite probeAll_unfold.
  destruct (In_nth_error _ _ Hp) as [k Hk].
  replace (List.length (uniquePorts allPorts))
    with (List.length (map (probeOutcome w allPorts) (uniquePorts allPorts)))
    by apply length_map.
  rewrite (settleAll_hang _ _ k).
  - reflexivity.
  - now rewrite !length_map.
  - intros r e Hr. apply in_map_iff in Hr. destruct Hr as [p [<- _]].
    apply probeOutcome_not_thrown.
  - rewrite (map_nth_error _ _ _ Hk). f_equal.
    unfold probeOutcome. rewrite Hm. unfold isSilent in Hs. rewrite Ht in Hs.
    destruct (httpsRequest w (fst j) (token mc)); [reflexivity|discriminate].
Qed.

Lemma probeStage_fst (w : World) (allPorts : list PortCandidate)
  (log : list Op) :
  fst (probeStage w allPorts log) =
  (if existsb (isSilent w) (probeJobs allPorts) then Hang
   else match firstSuccessInListOrder w allPorts with
        | Some e => Ok e
        | None => Throw NoRespondingEndpoint
        end).
Proof.
  destruct (existsb (isSilent w) (probeJobs allPorts)) eqn:E.
  - apply existsb_exists in E. destruct E as [j [Hj Hs]].
    now apply (probeStage_silent w allPorts log j).
  - apply probeStage_result. intros j Hj Hnil.
    assert (S : isSilent w j = true) by (unfold isSilent; now rewrite Hnil).
    assert (T : existsb (isSilent w) (probeJobs allPorts) = true)
      by (apply existsb_exists; eauto).
    congruence.
Qed.

(** X4.  The probing stage in full, when every port to probe is one that
    [https.request] accepts.  Every probe job is requested exactly once, in
    the order of the deduplicated port list, whatever the outcomes.  If the
    request of some job never emits an event the stage never returns, even
    when another port has answered 200; otherwise it returns the first
    success in list order, or the no-responding-endpoint error when there is
    none. *)
Theorem probeStage_outcome
  (w : World) (allPorts : list PortCandidate) (log : list Op) :
  (forall q, In q (uniquePorts allPorts) -> requestAccepts q = true) ->
  fst (probeStageChecked w allPorts log) =
    (if existsb (isSilent w) (probeJobs allPorts) then Hang
     else match firstSuccessInListOrder w allPorts with
          | Some e => Ok e
          | None => Throw NoRespondingEndpoint
          end)
  /\ snd (probeStageChecked w allPorts log) =
     log ++ map jobRequest (probeJobs allPorts).
Proof.
  intro A. rewrite (probeStageChecked_accepted w allPorts A). split.
  - apply probeStage_fst.
  - apply probeStage_log.
Qed.

Lemma probeStage_outcome_witness :
  fst (probeStageChecked halfSilentWorld racePorts []) =
    (if existsb (isSilent halfSilentWorld) (probeJobs racePorts) then Hang
     else match firstSuccessInListOrder halfSilentWorld racePorts with
          | Some e => Ok e
          | None => Throw NoRespondingEndpoint
          end)
  /\ snd (probeStageChecked halfSilentWorld racePorts []) =
     [] ++ map jobRequest (probeJobs racePorts).
Proof.
  apply (probeStage_outcome halfSilentWorld racePorts []).
  intros q Hq. vm_compute in Hq.
  destruct Hq as [<-|[<-|[]]]; reflexivity.
Defined.

(** ** The whole resolver *)

Lemma main_unfold (w : World) :
  main w [] =
  match execAsync w (psCommand (platform w)) with
  | None =>
      (Throw (ExecFailed (psCommand (platform w))),
       [OpExec (psCommand (platform w))])
  | Some psStdout =>
      if negb (truthy (trim psStdout))
      then (Throw ProcessNotFound, [OpExec (psCommand (platform w))])
      else if Nat.eqb (List.length (extractCandidates (platform w) psStdout)) 0
      then (Throw NoCredentialFound, [OpExec (psCommand (platform w))])
      else if Nat.eqb (List.length (runPorts w psStdout)) 0
      then (Throw NoListeningPort,
            [OpExec (psCommand (platform w))]
              ++ flat_map (discoverOps w) (runCandidates w psStdout))
      else probeStage w (runPorts w psStdout)
             ([OpExec (psCommand (platform w))]
                ++ flat_map (discoverOps w) (runCandidates w psStdout))
  end.
Proof.
  unfold main, bind, exec. simpl.
  destruct (execAsync w (psCommand (platform w))) as [psStdout|];
    [|reflexivity].
  destruct (negb (truthy (trim psStdout))); [reflexivity|].
  destruct (Nat.eqb (List.length (extractCandidates (platform w) psStdout)) 0);
    [reflexivity|].
  rewrite discoverStage_pure. fold (runCandidates w psStdout).
  fold (runPorts w psStdout).
  destruct (Nat.eqb (List.length (runPorts w psStdout)) 0); reflexivity.
Qed.

Lemma strictEq_eq (a b : jsnum) : strictEq a b = true -> a = b.
Proof.
  destruct a as [|x], b as [|y]; simpl; try discriminate.
  intro H. apply Z.eqb_eq in H. now subst.
Qed.

Lemma runPorts_source (w : World) (psStdout : string) (pc : PortCandidate) :
  In pc (runPorts w psStdout) ->
  exists cand,
    In cand (extractCandidates (platform w) psStdout)
    /\ token pc = csrfToken cand
    /\ In (port pc) (discoveredPorts w (pid cand)).
Proof.
  unfold runPorts, runCandidates. rewrite in_flat_map.
  intros [cand [Hc Hp]].
  exists cand. split; [now apply uniqueCandidates_In|].
  unfold portCandidatesOf in Hp. apply in_map_iff in Hp.
  destruct Hp as [p [<- Hp]]. simpl. auto.
Qed.

Lemma job_source (w : World) (psStdout : string) (j : jsnum * string) :
  In j (probeJobs (runPorts w psStdout)) ->
  exists cand,
    In cand (extractCandidates (platform w) psStdout)
    /\ snd j = csrfToken cand
    /\ In (fst j) (discoveredPorts w (pid cand)).
Proof.
  intro Hj. destruct (probeJobs_source _ j Hj) as [mc [_ [Hm Ht]]].
  unfold matchingCandidate in Hm. apply find_some in Hm.
  destruct Hm as [Hin He]. apply strictEq_eq in He.
  destruct (runPorts_source w psStdout mc Hin) as [cand [Hc [Htok Hp]]].
  exists cand. split; [exact Hc|]. split; [congruence|]. now rewrite <- He.
Qed.

Lemma probeSucceeds_status (w : World) (j : jsnum * string) :
  probeSucceeds w j = true ->
  exists rest, httpsRequest w (fst j) (snd j) = EvResponse 200 :: rest.
Proof.
  unfold probeSucceeds.
  destruct (testPortPromise_cases (httpsRequest w (fst j) (snd j)))
    as [[_ E]|[ev [rest [Hev E]]]]; rewrite E; [discriminate|].
  destruct (eventVerdict ev) eqn:V; [|discriminate]. intros _.
  exists rest. rewrite Hev. f_equal.
  destruct ev as [sc| |]; simpl in V; try discriminate.
  apply Z.eqb_eq in V. now subst.
Qed.

Lemma firstSuccess_source (w : World) (allPorts : list PortCandidate)
  (e : ResolvedEndpoint) :
  firstSuccessInListOrder w allPorts = Some e ->
  In (workingPort e, validToken e) (probeJobs allPorts)
  /\ probeSucceeds w (workingPort e, validToken e) = true.
Proof.
  unfold firstSuccessInListOrder.
  destruct (filter (probeSucceeds w) (probeJobs allPorts)) as [|j l] eqn:F;
    [discriminate|].
  intro H. injection H as <-. simpl.
  assert (G : In j (filter (probeSucceeds w) (probeJobs allPorts)))
    by (rewrite F; now left).
  apply filter_In in G. now destruct j.
Qed.

Lemma probeStage_success (w : World) (allPorts : list PortCandidate)
  (log : list Op) (e : ResolvedEndpoint) :
  fst (probeStage w allPorts log) = Ok e ->
  firstSuccessInListOrder w allPorts = Some e.
Proof.
  rewrite probeStage_fst.
  destruct (existsb (isSilent w) (probeJobs allPorts)); [discriminate|].
  destruct (firstSuccessInListOrder w allPorts); [|discriminate].
  intro H. now injection H as ->.
Qed.

Lemma probeStage_not_other (w : World) (allPorts : list PortCandidate)
  (log : list Op) (e : Failure) :
  fst (probeStage w allPorts log) = Throw e -> e = NoRespondingEndpoint.
Proof.
  rewrite probeStage_fst.
  destruct (existsb (isSilent w) (probeJobs allPorts)); [discriminate|].
  destruct (firstSuccessInListOrder w allPorts); [discriminate|].
  intro H. now injection H.
Qed.

(** X5.  The only command whose failure [main] reports is the process
    listing: the run ends with the error of a failed command exactly when
    the listing command itself fails, and then nothing else has been run.
    A socket tool that fails never surfaces as an error. *)
Theorem main_reports_only_listing_failure (w : World) (c : string) :
  fst (main w []) = Throw (ExecFailed c) <->
  c = psCommand (platform w) /\ execAsync w (psCommand (platform w)) = None.
Proof.
  rewrite main_unfold. split.
  - destruct (execAsync w (psCommand (platform w))) as [psStdout|].
    + destruct (negb (truthy (trim psStdout))); [discriminate|].
      destruct (Nat.eqb _ 0); [discriminate|].
      destruct (Nat.eqb _ 0); [discriminate|].
      intro H. apply probeStage_not_other in H. discriminate.
    + simpl. intro H. injection H as <-. auto.
  - intros [-> ->]. reflexivity.
Qed.

Lemma length_zero_nil {A : Type} (l : list A) :
  Nat.eqb (List.length l) 0 = true <-> l = [].
Proof.
  destruct l; simpl; split; intro H; try reflexivity; discriminate.
Qed.

(** X6.  [main] ends with the no-listening-port error exactly when the
    listing has text, yields at least one candidate, and no port is found for
    any of the deduplicated candidates.  In that case every operation of the
    run is an external command: no probe request is sent. *)
Theorem main_no_listening_port (w : World) :
  (fst (main w []) = Throw NoListeningPort <->
   exists psStdout,
     execAsync w (psCommand (platform w)) = Some psStdout
     /\ truthy (trim psStdout) = true
     /\ extractCandidates (platform w) psStdout <> []
     /\ forall cand, In cand (runCandidates w psStdout) ->
                     discoveredPorts w (pid cand) = [])
  /\ (fst (main w []) = Throw NoListeningPort ->
      forall op, In op (snd (main w [])) -> isExecOp op = true).
Proof.
  rewrite main_unfold.
  destruct (execAsync w (psCommand (platform w))) as [psStdout|];
    [|split; [split; [discriminate|intros [o [H _]]; discriminate]
             |discriminate]].
  destruct (truthy (trim psStdout)) eqn:T; simpl;
    [|split; [split; [discriminate|]|discriminate];
      intros [o [H [H' _]]]; injection H as <-; congruence].
  destruct (Nat.eqb (List.length (extractCandidates (platform w) psStdout)) 0)
    eqn:C.
  { apply length_zero_nil in C.
    split; [split; [discriminate|]|discriminate].
    intros [o [H [_ [H' _]]]]. injection H as <-. contradiction. }
  assert (C' : extractCandidates (platform w) psStdout <> []).
  { intro E. apply length_zero_nil in E. congruence. }
  assert (P : runPorts w psStdout = [] <->
              forall cand, In cand (runCandidates w psStdout) ->
                           discoveredPorts w (pid cand) = []).
  { unfold runPorts. split.
    - intros E cand Hc.
      destruct (discoveredPorts w (pid cand)) as [|p l] eqn:D; [reflexivity|].
      assert (G : In (mkPortCandidate p (csrfToken cand) (pid cand))
                     (flat_map (portCandidatesOf w) (runCandidates w psStdout))).
      { apply in_flat_map. exists cand. split; [exact Hc|].
        unfold portCandidatesOf. rewrite D. now left. }
      rewrite E in G. destruct G.
    - intro H. induction (runCandidates w psStdout) as [|cand l IH];
        [reflexivity|].
      simpl. unfold portCandidatesOf at 1.
      rewrite (H cand (or_introl eq_refl)). simpl.
      apply IH. intros c Hc. apply H. now right. }
  destruct (Nat.eqb (List.length (runPorts w psStdout)) 0) eqn:L.
  - apply length_zero_nil in L. split.
    + split; [|reflexivity]. intros _. exists psStdout.
      split; [reflexivity|]. split; [exact T|]. split; [exact C'|].
      now apply P.
    + intros _ op Hop. simpl in Hop. destruct Hop as [<-|Hop]; [reflexivity|].
      apply in_flat_map in Hop. destruct Hop as [cand [_ Hop]].
      unfold discoverOps in Hop. apply in_map_iff in Hop.
      destruct Hop as [c0 [<- _]]. reflexivity.
  - split; [split|].
    + intro H. apply probeStage_not_other in H. discriminate.
    + intros [o [H [_ [_ H']]]]. injection H as <-.
      apply P in H'. apply length_zero_nil in H'. congruence.
    + intro H. apply probeStage_not_other in H. discriminate.
Qed.

(** X7.  An endpoint that [main] returns is genuine: its token was
    extracted from a line of the process listing, its port was found by the
    socket tools for the process of that very line, and the probe sent to
    that port with that token was answered with status 200. *)
Theorem main_success_provenance (w : World) (e : ResolvedEndpoint) :
  fst (main w []) = Ok e ->
  exists psStdout cand rest,
    execAsync w (psCommand (platform w)) = Some psStdout
    /\ In cand (extractCandidates (platform w) psStdout)
    /\ validToken e = csrfToken cand
    /\ In (workingPort e) (discoveredPorts w (pid cand))
    /\ httpsRequest w (workingPort e) (validToken e) = EvResponse 200 :: rest
    /\ In (OpRequest (workingPort e) (validToken e)) (snd (main w [])).
Proof.
  rewrite main_unfold.
  destruct (execAsync w (psCommand (platform w))) as [psStdout|];
    [|discriminate].
  destruct (negb (truthy (trim psStdout))); [discriminate|].
  destruct (Nat.eqb _ 0); [discriminate|].
  destruct (Nat.eqb _ 0); [discriminate|].
  intro H. apply probeStage_success in H.
  apply firstSuccess_source in H. destruct H as [Hj Hs].
  destruct (job_source w psStdout _ Hj) as [cand [Hc [Ht Hp]]].
  destruct (probeSucceeds_status w _ Hs) as [rest Hr].
  simpl in Ht, Hp, Hr.
  exists psStdout, cand, rest. repeat split; auto.
  rewrite probeStage_log. apply in_app_iff. right.
  apply in_map_iff. exists (workingPort e, validToken e). auto.
Qed.

Lemma main_success_provenance_witness :
  exists psStdout cand rest,
    execAsync raceWorld (psCommand (platform raceWorld)) = Some psStdout
    /\ In cand (extractCandidates (platform raceWorld) psStdout)
    /\ "abcd-1234-ef00" = csrfToken cand
    /\ In (Num 42100) (discoveredPorts raceWorld (pid cand))
    /\ httpsRequest raceWorld (Num 42100) "abcd-1234-ef00"
       = EvResponse 200 :: rest
    /\ In (OpRequest (Num 42100) "abcd-1234-ef00") (snd (main raceWorld [])).
Proof.
  apply (main_success_provenance raceWorld
           (mkEndpoint (Num 42100) "abcd-1234-ef00")).
  vm_compute. reflexivity.
Defined.

(** X8.  When [main] ends with the no-responding-endpoint error, ports had
    been found, every probe job of the run was requested, and each request
    ended with something other than a response of status 200. *)
Theorem main_no_responding_endpoint (w : World) :
  fst (main w []) = Throw NoRespondingEndpoint ->
  exists psStdout,
    execAsync w (psCommand (platform w)) = Some psStdout
    /\ runPorts w psStdout <> []
    /\ forall j, In j (probeJobs (runPorts w psStdout)) ->
                 In (jobRequest j) (snd (main w []))
                 /\ exists ev rest,
                     httpsRequest w (fst j) (snd j) = ev :: rest
                     /\ ev <> EvResponse 200.
Proof.
  rewrite main_unfold.
  destruct (execAsync w (psCommand (platform w))) as [psStdout|];
    [|discriminate].
  destruct (negb (truthy (trim psStdout))); [discriminate|].
  destruct (Nat.eqb _ 0); [discriminate|].
  destruct (Nat.eqb (List.length (runPorts w psStdout)) 0) eqn:L;
    [discriminate|].
  intro H. exists psStdout. split; [reflexivity|]. split.
  { intro E. apply length_zero_nil in E. congruence. }
  intros j Hj. split.
  { rewrite probeStage_log. apply in_app_iff. right. now apply in_map. }
  rewrite probeStage_fst in H.
  destruct (existsb (isSilent w) (probeJobs (runPorts w psStdout))) eqn:S;
    [discriminate|].
  unfold firstSuccessInListOrder in H.
  destruct (filter (probeSucceeds w) (probeJobs (runPorts w psStdout)))
    as [|j0 l] eqn:F; [|discriminate].
  assert (Hs : isSilent w j = false).
  { destruct (isSilent w j) eqn:Sj; [|reflexivity].
    assert (T : existsb (isSilent w) (probeJobs (runPorts w psStdout)) = true)
      by (apply existsb_exists; eauto).
    congruence. }
  assert (Hf : probeSucceeds w j = false).
  { destruct (probeSucceeds w j) eqn:Pj; [|reflexivity].
    assert (G : In j (filter (probeSucceeds w)
                             (probeJobs (runPorts w psStdout))))
      by (apply filter_In; auto).
    rewrite F in G. destruct G. }
  unfold isSilent in Hs. unfold probeSucceeds in Hf.
  destruct (httpsRequest w (fst j) (snd j)) as [|ev rest]; [discriminate|].
  exists ev, rest. split; [reflexivity|].
  rewrite testPortPromise_first in Hf. intros ->. simpl in Hf. discriminate.
Qed.

Lemma main_no_responding_endpoint_witness :
  exists psStdout,
    execAsync deafWorld (psCommand (platform deafWorld)) = Some psStdout
    /\ runPorts deafWorld psStdout <> []
    /\ forall j, In j (probeJobs (runPorts deafWorld psStdout)) ->
                 In (jobRequest j) (snd (main deafWorld []))
                 /\ exists ev rest,
                     httpsRequest deafWorld (fst j) (snd j) = ev :: rest
                     /\ ev <> EvResponse 200.
Proof.
  apply (main_no_responding_endpoint deafWorld).
  vm_compute. reflexivity.
Defined.

Lemma flat_map_length_le {A B : Type} (f : A -> list B) (n : nat)
  (l : list A) :
  (forall a, List.length (f a) <= n) ->
  List.length (flat_map f l) <= n * List.length l.
Proof.
  intro H. induction l as [|a l IH]; simpl; [lia|].
  rewrite length_app. pose proof (H a). lia.
Qed.

Lemma probeJobs_ports_from (allPorts : list PortCandidate) (ps : list jsnum) :
  NoDup ps ->
  NoDup (map fst (flat_map (fun p => match matchingCandidate allPorts p with
                                     | Some mc => [(p, token mc)]
                                     | None => []
                                     end) ps))
  /\ forall q, In q (map fst (flat_map
                                (fun p => match matchingCandidate allPorts p with
                                          | Some mc => [(p, token mc)]
                                          | None => []
                                          end) ps)) -> In q ps.
Proof.
  induction ps as [|p ps IH]; intro N; simpl.
  - split; [constructor|intros q []].
  - inversion N as [|? ? Hp Hps]; subst. destruct (IH Hps) as [Nd Sub].
    destruct (matchingCandidate allPorts p) as [mc|]; simpl.
    + split.
      * constructor; [|exact Nd]. intro G. apply Hp. now apply Sub.
      * intros q [<-|G]; [now left|right; now apply Sub].
    + split; [exact Nd|]. intros q G. right. now apply Sub.
Qed.

(** X9.  The trace of a run whose listing command returns.  The listing
    command comes first, then the socket tools (at most three for each
    deduplicated candidate), then the probe requests: no probe is sent
    before the last tool has run.  The requests go to pairwise different
    ports, and each carries a token extracted from the listing to a port
    found for the process of that token: a token is never sent to a port
    that was not found for its own process.  The port of a request is the
    value handed to [https.request]; where the client library puts its
    default port in the place of the value 0, the connection itself goes to
    that default port. *)
Theorem main_trace_shape (w : World) (psStdout : string) :
  execAsync w (psCommand (platform w)) = Some psStdout ->
  exists tools jobs,
    snd (main w []) =
      OpExec (psCommand (platform w)) :: tools ++ map jobRequest jobs
    /\ (forall op, In op tools -> isExecOp op = true)
    /\ List.length tools <= 3 * List.length (runCandidates w psStdout)
    /\ NoDup (map fst jobs)
    /\ forall j, In j jobs ->
                 exists cand,
                   In cand (extractCandidates (platform w) psStdout)
                   /\ snd j = csrfToken cand
                   /\ In (fst j) (discoveredPorts w (pid cand)).
Proof.
  intro He. rewrite main_unfold, He.
  assert (Tools : forall op,
             In op (flat_map (discoverOps w) (runCandidates w psStdout)) ->
             isExecOp op = true).
  { intros op Hop. apply in_flat_map in Hop. destruct Hop as [cand [_ Hop]].
    unfold discoverOps in Hop. apply in_map_iff in Hop.
    destruct Hop as [c0 [<- _]]. reflexivity. }
  assert (Count : List.length
                    (flat_map (discoverOps w) (runCandidates w psStdout))
                  <= 3 * List.length (runCandidates w psStdout)).
  { apply flat_map_length_le. intro cand. apply discoverOps_count. }
  assert (Early : forall e : Failure,
             exists tools jobs,
               snd (Throw (A := ResolvedEndpoint) e,
                    [OpExec (psCommand (platform w))]) =
                 OpExec (psCommand (platform w)) :: tools ++ map jobRequest jobs
               /\ (forall op, In op tools -> isExecOp op = true)
               /\ List.length tools <= 3 * List.length (runCandidates w psStdout)
               /\ NoDup (map fst jobs)
               /\ forall j, In j jobs ->
                            exists cand,
                              In cand (extractCandidates (platform w) psStdout)
                              /\ snd j = csrfToken cand
                              /\ In (fst j) (discoveredPorts w (pid cand))).
  { intro e. exists [], []. simpl. split; [reflexivity|].
    split; [intros op []|]. split; [lia|].
    split; [constructor|intros j []]. }
  destruct (negb (truthy (trim psStdout))); [apply Early|].
  destruct (Nat.eqb _ 0); [apply Early|].
  destruct (Nat.eqb (List.length (runPorts w psStdout)) 0).
  - exists (flat_map (discoverOps w) (runCandidates w psStdout)), [].
    simpl. rewrite app_nil_r. split; [reflexivity|].
    split; [exact Tools|]. split; [exact Count|].
    split; [constructor|intros j []].
  - exists (flat_map (discoverOps w) (runCandidates w psStdout)),
           (probeJobs (runPorts w psStdout)).
    rewrite probeStage_log. simpl.
    split; [reflexivity|]. split; [exact Tools|].
    split; [exact Count|]. split.
    + apply probeJobs_ports_from. apply setOf_NoDup.
    + intros j Hj. now apply job_source.
Qed.

Lemma main_trace_shape_witness :
  exists tools jobs,
    snd (main raceWorld []) =
      OpExec (psCommand (platform raceWorld)) :: tools ++ map jobRequest jobs
    /\ (forall op, In op tools -> isExecOp op = true)
    /\ List.length tools <= 3 * List.length (runCandidates raceWorld raceListing)
    /\ NoDup (map fst jobs)
    /\ forall j, In j jobs ->
                 exists cand,
                   In cand (extractCandidates (platform raceWorld) raceListing)
                   /\ snd j = csrfToken cand
                   /\ In (fst j) (discoveredPorts raceWorld (pid cand)).
Proof.
  apply (main_trace_shape raceWorld raceListing). reflexivity.
Defined.

(** ** Where a token and a pid come from *)

Lemma startsWithCI_split (p s : string) :
  startsWithCI p s = true ->
  exists f,
    s = (f ++ substringFrom (String.length p) s)%string
    /\ String.length f = String.length p
    /\ startsWithCI p f = true.
Proof.
  revert s. induction p as [|a p IH]; intros s H.
  - exists EmptyString. simpl. now destruct s.
  - destruct s as [|b s]; [discriminate|]. simpl in H.
    apply andb_true_iff in H. destruct H as [Hab H].
    destruct (IH s H) as [f [Hs [Hl Hf]]].
    exists (String b f). simpl. rewrite Hab, Hl, Hf. split; [|auto].
    f_equal. exact Hs.
Qed.

Lemma dropWhile_head (p : ascii -> bool) (s : string) :
  headSatisfies p (dropWhile p s) = false.
Proof.
  induction s as [|c s IH]; simpl; [reflexivity|].
  destruct (p c) eqn:E; [exact IH|]. simpl. exact E.
Qed.

Lemma csrfTokenHere_parts (s tok : string) :
  csrfTokenHere s = Some tok ->
  exists f seps rest,
    s = (f ++ seps ++ tok ++ rest)%string
    /\ String.length f = 12 /\ startsWithCI csrfFlag f = true
    /\ truthy seps = true /\ allChars isFlagSep seps = true
    /\ headSatisfies isTokenChar rest = false.
Proof.
  unfold csrfTokenHere.
  destruct (startsWithCI csrfFlag s) eqn:Hs; [|discriminate].
  cbv zeta. destruct (startsWithCI_split _ _ Hs) as [f [Hsf [Hl Hf]]].
  set (r := substringFrom (String.length csrfFlag) s) in *.
  destruct (isEmpty (takeWhile isFlagSep r)) eqn:E1; [discriminate|].
  destruct (isEmpty (takeWhile isTokenChar (dropWhile isFlagSep r))) eqn:E2;
    [discriminate|].
  intro H. injection H as <-.
  exists f, (takeWhile isFlagSep r),
         (dropWhile isTokenChar (dropWhile isFlagSep r)).
  rewrite takeWhile_dropWhile, takeWhile_dropWhile.
  split; [exact Hsf|]. split; [exact Hl|]. split; [exact Hf|].
  split; [unfold truthy; now rewrite E1|].
  split; [apply takeWhile_all|apply dropWhile_head].
Qed.

(** X10.  A token that the pattern extracts stands in the line: the line
    reads, from left to right, some prefix, the twelve characters of the flag
    (letters in either case), a non-empty run of equal signs and white
    spaces, the token, and a rest that does not begin with a token
    character. *)
Theorem csrfTokenMatch_sound (line tok : string) :
  csrfTokenMatch line = Some tok ->
  exists pre f seps rest,
    line = (pre ++ f ++ seps ++ tok ++ rest)%string
    /\ String.length f = 12 /\ startsWithCI csrfFlag f = true
    /\ truthy seps = true /\ allChars isFlagSep seps = true
    /\ headSatisfies isTokenChar rest = false.
Proof.
  induction line as [|c line IH]; cbn [csrfTokenMatch].
  - destruct (csrfTokenHere EmptyString) as [t|] eqn:E; [|discriminate].
    intro H. injection H as ->. apply csrfTokenHere_parts in E.
    destruct E as [f [seps [rest E]]]. now exists EmptyString, f, seps, rest.
  - destruct (csrfTokenHere (String c line)) as [t|] eqn:E.
    + intro H. injection H as ->. apply csrfTokenHere_parts in E.
      destruct E as [f [seps [rest E]]]. now exists EmptyString, f, seps, rest.
    + intro H. destruct (IH H) as [pre [f [seps [rest [E' R]]]]].
      exists (String c pre), f, seps, rest. split; [|exact R].
      simpl. now rewrite E'.
Qed.

Lemma csrfTokenMatch_sound_witness :
  exists pre f seps rest,
    "  42 /opt/x/ls --CSRF_token= AbC-12 --port 1"
    = (pre ++ f ++ seps ++ "AbC-12" ++ rest)%string
    /\ String.length f = 12 /\ startsWithCI csrfFlag f = true
    /\ truthy seps = true /\ allChars isFlagSep seps = true
    /\ headSatisfies isTokenChar rest = false.
Proof.
  apply (csrfTokenMatch_sound "  42 /opt/x/ls --CSRF_token= AbC-12 --port 1"
           "AbC-12").
  vm_compute. reflexivity.
Defined.

(** X11.  On a non-Windows listing every candidate has a numeric pid, and
    its pid and its token are read from one and the same line: the pid is
    the number that opens the line, the token is what the pattern extracts
    from that line. *)
Theorem unixCandidates_provenance (psStdout : string) (c : ProcessCandidate) :
  In c (unixCandidates psStdout) ->
  exists line z,
    In line (splitLF (trim psStdout))
    /\ pid c = Num z
    /\ parseInt (firstPart (splitWs (trim line))) = Num z
    /\ csrfTokenMatch line = Some (csrfToken c).
Proof.
  unfold unixCandidates. intro H. apply fold_pushOpt_In in H.
  destruct H as [[]|[line [Hl H]]].
  unfold unixLineCandidate in H.
  destruct (csrfTokenMatch line) as [tok|] eqn:M; [|discriminate].
  destruct (parseInt (firstPart (splitWs (trim line)))) as [|z] eqn:P;
    simpl in H; [discriminate|].
  injection H as <-. exists line, z. simpl.
  split; [exact Hl|]. split; [reflexivity|]. split; [exact P|exact M].
Qed.

Lemma unixCandidates_provenance_witness :
  exists line z,
    In line (splitLF (trim twiceListing))
    /\ pid (mkCandidate (Num 456) "99-aa") = Num z
    /\ parseInt (firstPart (splitWs (trim line))) = Num z
    /\ csrfTokenMatch line = Some (csrfToken (mkCandidate (Num 456) "99-aa")).
Proof.
  apply (unixCandidates_provenance twiceListing (mkCandidate (Num 456) "99-aa")).
  vm_compute. auto.
Defined.

(** ** The Windows listing *)

Lemma wmicStep_cmd (st : WmicState) (line : string) :
  startsWith "CommandLine=" line = true ->
  wmicStep st line =
  mkWmic (substringFrom 12 line) (currentPid st) (wmicCandidates st)
  /\ line = ("CommandLine=" ++ substringFrom 12 line)%string.
Proof.
  intro H. split; [unfold wmicStep; now rewrite H|].
  now apply (startsWith_split "CommandLine=" line).
Qed.

Lemma wmicStep_pid (st : WmicState) (line : string) :
  startsWith "CommandLine=" line = false ->
  startsWith "ProcessId=" line = true ->
  wmicStep st line =
  mkWmic EmptyString EmptyString
    (if truthy (currentCmd st) && truthy (substringFrom 10 line) then
       match csrfTokenMatch (currentCmd st) with
       | Some tok =>
           wmicCandidates st ++ [mkCandidate (parseInt (substringFrom 10 line)) tok]
       | None => wmicCandidates st
       end
     else wmicCandidates st)
  /\ line = ("ProcessId=" ++ substringFrom 10 line)%string.
Proof.
  intros H1 H2. split; [unfold wmicStep; now rewrite H1, H2|].
  now apply (startsWith_split "ProcessId=" line).
Qed.

Lemma wmicStep_other (st : WmicState) (line : string) :
  isOtherLine line = true -> wmicStep st line = st.
Proof.
  unfold isOtherLine, wmicStep. intro H. apply andb_true_iff in H.
  destruct H as [H1 H2].
  destruct (startsWith "CommandLine=" line); [discriminate|].
  destruct (startsWith "ProcessId=" line); [discriminate|reflexivity].
Qed.

Lemma line_kind (line : string) :
  startsWith "CommandLine=" line = true
  \/ (startsWith "CommandLine=" line = false
      /\ startsWith "ProcessId=" line = true)
  \/ isOtherLine line = true.
Proof.
  unfold isOtherLine.
  destruct (startsWith "CommandLine=" line); [now left|].
  destruct (startsWith "ProcessId=" line); [right; now left|right; now right].
Qed.

Lemma PairedIn_later (lines : list string) (line : string)
  (c : ProcessCandidate) :
  PairedIn lines c -> PairedIn (lines ++ [line]) c.
Proof.
  intros [b [cl [m [pl [a [E R]]]]]].
  exists b, cl, m, pl, (a ++ [line]). split; [|exact R].
  rewrite E. rewrite <- app_assoc. simpl. rewrite <- app_assoc. reflexivity.
Qed.

(** What the loop has established after the lines [done]. *)
Lemma wmic_fold_invariant (rest : list string) :
  forall (done : list string) (st : WmicState),
    (truthy (currentCmd st) = true ->
     exists b m, done = b ++ ("CommandLine=" ++ currentCmd st)%string :: m
                 /\ forallb isOtherLine m = true) ->
    (forall c, In c (wmicCandidates st) -> PairedIn done c) ->
    forall c, In c (wmicCandidates (fold_left wmicStep rest st)) ->
              PairedIn (done ++ rest) c.
Proof.
  induction rest as [|line rest IH]; intros done st Hcmd Hc c Hin.
  - rewrite app_nil_r. now apply Hc.
  - simpl in Hin.
    replace (done ++ line :: rest) with ((done ++ [line]) ++ rest)
      by (rewrite <- app_assoc; reflexivity).
    apply (IH (done ++ [line]) (wmicStep st line)); [| |exact Hin].
    + destruct (line_kind line) as [K|[[K1 K2]|K]].
      * destruct (wmicStep_cmd st line K) as [-> El]. cbn [currentCmd].
        intros _. exists done, []. split; [now rewrite <- El|reflexivity].
      * destruct (wmicStep_pid st line K1 K2) as [-> _]. cbn [currentCmd].
        discriminate.
      * rewrite (wmicStep_other st line K). intro T.
        destruct (Hcmd T) as [b [m [E F]]].
        exists b, (m ++ [line]). split.
        -- rewrite E, <- app_assoc. reflexivity.
        -- rewrite forallb_app, F. simpl. now rewrite K.
    + intros c0 H0. destruct (line_kind line) as [K|[[K1 K2]|K]].
      * destruct (wmicStep_cmd st line K) as [E _]. rewrite E in H0.
        cbn [wmicCandidates] in H0. apply PairedIn_later. now apply Hc.
      * destruct (wmicStep_pid st line K1 K2) as [E El]. rewrite E in H0.
        cbn [wmicCandidates] in H0.
        destruct (truthy (currentCmd st)) eqn:T; cbn [andb] in H0;
          [|apply PairedIn_later; now apply Hc].
        destruct (truthy (substringFrom 10 line)); cbn [andb] in H0;
          [|apply PairedIn_later; now apply Hc].
        destruct (csrfTokenMatch (currentCmd st)) as [tok|] eqn:M;
          [|apply PairedIn_later; now apply Hc].
        apply in_app_iff in H0. destruct H0 as [H0|[H0|[]]];
          [apply PairedIn_later; now apply Hc|].
        subst c0. destruct (Hcmd eq_refl) as [b [m [Ed F]]].
        exists b, (currentCmd st), m, (substringFrom 10 line), [].
        split; [|auto].
        rewrite Ed, <- El, <- app_assoc. reflexivity.
      * rewrite (wmicStep_other st line K) in H0.
        apply PairedIn_later. now apply Hc.
Qed.

(** X12.  On a Windows listing every candidate pairs a ProcessId line with
    the nearest CommandLine line before it: no other CommandLine or ProcessId
    line stands between the two, the token is what the pattern extracts from
    that command line and the pid is the number read from that ProcessId
    line. *)
Theorem win32Candidates_paired (psStdout : string) (c : ProcessCandidate) :
  In c (win32Candidates psStdout) -> PairedIn (wmicLines psStdout) c.
Proof.
  intro H. unfold win32Candidates in H. fold (wmicLines psStdout) in H.
  apply (wmic_fold_invariant (wmicLines psStdout) []
           (mkWmic EmptyString EmptyString [])); simpl.
  - discriminate.
  - intros c0 [].
  - exact H.
Qed.

Lemma win32Candidates_paired_witness :
  PairedIn (wmicLines wmicListing) (mkCandidate (Num 4321) "abcd-12").
Proof.
  apply (win32Candidates_paired wmicListing (mkCandidate (Num 4321) "abcd-12")).
  vm_compute. auto.
Defined.

Lemma countStarting_cons (prefix line : string) (lines : list string) :
  countStarting prefix (line :: lines) =
  (if startsWith prefix line then 1 else 0) + countStarting prefix lines.
Proof.
  unfold countStarting. cbn [filter].
  now destruct (startsWith prefix line).
Qed.

Lemma pendingCmd_le (st : WmicState) : pendingCmd st <= 1.
Proof. unfold pendingCmd. destruct (truthy (currentCmd st)); lia. Qed.

Lemma wmic_fold_count (lines : list string) :
  forall st : WmicState,
    List.length (wmicCandidates (fold_left wmicStep lines st))
      + pendingCmd (fold_left wmicStep lines st)
    <= List.length (wmicCandidates st) + pendingCmd st
       + countStarting "CommandLine=" lines
    /\ List.length (wmicCandidates (fold_left wmicStep lines st))
       <= List.length (wmicCandidates st) + countStarting "ProcessId=" lines.
Proof.
  induction lines as [|line lines IH]; intro st.
  - unfold countStarting. simpl. lia.
  - cbn [fold_left]. rewrite !countStarting_cons.
    destruct (IH (wmicStep st line)) as [I1 I2].
    destruct (line_kind line) as [K|[[K1 K2]|K]].
    + destruct (wmicStep_cmd st line K) as [E _]. rewrite E in *.
      cbn [wmicCandidates] in *. rewrite K.
      pose proof (pendingCmd_le
                    (mkWmic (substringFrom 12 line) (currentPid st)
                            (wmicCandidates st))).
      destruct (startsWith "ProcessId=" line); lia.
    + destruct (wmicStep_pid st line K1 K2) as [E _]. rewrite E in *.
      cbn [wmicCandidates] in *. rewrite K1, K2.
      assert (P : pendingCmd
                    (mkWmic EmptyString EmptyString
                       (if truthy (currentCmd st) && truthy (substringFrom 10 line)
                        then match csrfTokenMatch (currentCmd st) with
                             | Some tok =>
                                 wmicCandidates st ++
                                 [mkCandidate (parseInt (substringFrom 10 line)) tok]
                             | None => wmicCandidates st
                             end
                        else wmicCandidates st)) = 0) by reflexivity.
      rewrite P in I1.
      assert (L : List.length
                    (if truthy (currentCmd st) && truthy (substringFrom 10 line)
                     then match csrfTokenMatch (currentCmd st) with
                          | Some tok =>
                              wmicCandidates st ++
                              [mkCandidate (parseInt (substringFrom 10 line)) tok]
                          | None => wmicCandidates st
                          end
                     else wmicCandidates st)
                  <= List.length (wmicCandidates st) + pendingCmd st).
      { unfold pendingCmd. destruct (truthy (currentCmd st)); cbn [andb];
          [|lia].
        destruct (truthy (substringFrom 10 line)); [|lia].
        destruct (csrfTokenMatch (currentCmd st)); [|lia].
        rewrite length_app. simpl. lia. }
      pose proof (pendingCmd_le st). lia.
    + rewrite (wmicStep_other st line K) in *.
      unfold isOtherLine in K. apply andb_true_iff in K. destruct K as [K1 K2].
      destruct (startsWith "CommandLine=" line); [discriminate|].
      destruct (startsWith "ProcessId=" line); [discriminate|]. lia.
Qed.

(** X13.  A Windows listing yields at most as many candidates as it has
    CommandLine lines, and at most as many as it has ProcessId lines: a
    command line is used up by the first ProcessId line that follows it. *)
Theorem win32Candidates_bounded (psStdout : string) :
  List.length (win32Candidates psStdout)
    <= countStarting "CommandLine=" (wmicLines psStdout)
  /\ List.length (win32Candidates psStdout)
     <= countStarting "ProcessId=" (wmicLines psStdout).
Proof.
  unfold win32Candidates. fold (wmicLines psStdout).
  destruct (wmic_fold_count (wmicLines psStdout)
              (mkWmic EmptyString EmptyString [])) as [I1 I2].
  cbn [wmicCandidates List.length] in I1, I2.
  assert (P : pendingCmd (mkWmic EmptyString EmptyString []) = 0)
    by reflexivity.
  rewrite P in I1. lia.
Qed.

(** ** The fetcher *)

Section Fetcher.
Context {J : Type}.
Variable jsonParse : string -> option J.

Lemma fetch_settled_stays (events : list FetchEvent)
  (st : FetchState J) :
  fetchPromise st <> Unsettled ->
  fetchPromise (fold_left (fetchHandler jsonParse) events st) = fetchPromise st.
Proof.
  revert st. induction events as [|ev events IH]; intros st H; simpl.
  - reflexivity.
  - assert (E : fetchPromise (fetchHandler jsonParse st ev) = fetchPromise st).
    { destruct ev; simpl; try reflexivity.
      - destruct (fetchResponse st) as [[sc d]|]; reflexivity.
      - destruct (fetchResponse st) as [[sc d]|]; simpl; [|reflexivity].
        destruct (fetchPromise st); [contradiction|reflexivity|reflexivity].
      - destruct (fetchPromise st); [contradiction|reflexivity|reflexivity]. }
    rewrite IH; [exact E|]. now rewrite E.
Qed.

Lemma fetch_chunks (chunks : list string) :
  forall (p : Settled J FetchError) (sc : Z) (data : string),
    fold_left (fetchHandler jsonParse) (map FvData chunks)
              (mkFetch p (Some (sc, data)))
    = mkFetch p (Some (sc, (data ++ joinChunks chunks)%string)).
Proof.
  induction chunks as [|c chunks IH]; intros p sc data; simpl.
  - f_equal. f_equal. f_equal.
    clear. induction data as [|a data IH]; simpl; [reflexivity|].
    now rewrite <- IH.
  - rewrite IH. f_equal. f_equal. f_equal.
    clear. induction data as [|a data IH]; simpl; [reflexivity|].
    now rewrite IH.
Qed.

Lemma fetchOnEnd_settled (sc : Z) (data : string) :
  fetchOnEnd jsonParse sc data <> Unsettled.
Proof.
  unfold fetchOnEnd. destruct (Z.eqb sc 200); [|discriminate].
  destruct (jsonParse data); discriminate.
Qed.

(** X14.  An exchange that begins with the response, delivers the body in
    chunks and ends: the fetcher parses the chunks joined in their order of
    arrival when the status is 200, resolving with the parsed value or
    rejecting when the text does not parse; with any other status it rejects
    with that status and the body is not parsed.  Events that come after the
    end change nothing. *)
Theorem fetchUserStatus_reassembles_body
  (server : jsnum -> string -> list FetchEvent) (p : jsnum) (tok : string)
  (sc : Z) (chunks : list string) (later : list FetchEvent) :
  server p tok = FvResponse sc :: map FvData chunks ++ FvEnd :: later ->
  fetchUserStatus jsonParse server p tok =
  if Z.eqb sc 200 then
    match jsonParse (joinChunks chunks) with
    | Some v => ResolvedWith v
    | None => RejectedWith JsonParseFailed
    end
  else RejectedWith (ApiRequestFailed sc).
Proof.
  intro H. unfold fetchUserStatus. rewrite H.
  cbn [fold_left fetchHandler fetchPromise]. rewrite fold_left_app.
  rewrite fetch_chunks.
  cbn [fold_left fetchHandler fetchResponse fetchPromise settle String.append].
  rewrite fetch_settled_stays; [reflexivity|].
  apply fetchOnEnd_settled.
Qed.

(** X15.  The fetcher sets no timeout.  As long as the request emits
    neither the end of a body nor an error, the promise stays unsettled,
    however many chunks arrive; and when the first event is an error, the
    promise is rejected with it whatever follows. *)
Theorem fetchUserStatus_waits_for_end
  (server : jsnum -> string -> list FetchEvent) (p : jsnum) (tok : string) :
  (forallb isBodyEvent (server p tok) = true ->
   fetchUserStatus jsonParse server p tok = Unsettled)
  /\ (forall later, server p tok = FvError :: later ->
                    fetchUserStatus jsonParse server p tok
                    = RejectedWith RequestError).
Proof.
  split.
  - unfold fetchUserStatus.
    assert (G : forall events st,
               forallb isBodyEvent events = true ->
               fetchPromise (fold_left (fetchHandler jsonParse) events st)
               = fetchPromise st).
    { induction events as [|ev events IH]; intros st H; simpl in *.
      - reflexivity.
      - apply andb_true_iff in H. destruct H as [Hev H].
        rewrite IH by exact H.
        destruct ev; simpl in *; try discriminate; try reflexivity.
        destruct (fetchResponse st) as [[sc d]|]; reflexivity. }
    intro H. now rewrite G.
  - intros later H. unfold fetchUserStatus. rewrite H.
    cbn [fold_left fetchHandler fetchPromise settle fetchResponse].
    rewrite fetch_settled_stays; [reflexivity|discriminate].
Qed.

End Fetcher.

Lemma fetchUserStatus_reassembles_body_witness :
  fetchUserStatus bracesParse chunkedServer (Num 42100) "abcd-1234-ef00" =
  if Z.eqb 200 200 then
    match bracesParse (joinChunks ["{userStatus:"; "{}}"]) with
    | Some v => ResolvedWith v
    | None => RejectedWith JsonParseFailed
    end
  else RejectedWith (ApiRequestFailed 200).
Proof.
  apply (fetchUserStatus_reassembles_body bracesParse chunkedServer
           (Num 42100) "abcd-1234-ef00" 200 ["{userStatus:"; "{}}"] []).
  reflexivity.
Defined.

Lemma fetchUserStatus_waits_for_end_witness :
  fetchUserStatus bracesParse stallingServer (Num 42100) "abcd-1234-ef00"
  = Unsettled.
Proof.
  destruct (fetchUserStatus_waits_for_end bracesParse stallingServer
              (Num 42100) "abcd-1234-ef00") as [H _].
  apply H. reflexivity.
Defined.

(** ** The run up to the fetch *)

Lemma main_success_job (w : World) (e : ResolvedEndpoint) :
  fst (main w []) = Ok e ->
  probeSucceeds w (workingPort e, validToken e) = true
  /\ In (OpRequest (workingPort e) (validToken e)) (snd (main w [])).
Proof.
  rewrite main_unfold.
  destruct (execAsync w (psCommand (platform w))) as [psStdout|];
    [|discriminate].
  destruct (negb (truthy (trim psStdout))); [discriminate|].
  destruct (Nat.eqb _ 0); [discriminate|].
  destruct (Nat.eqb _ 0); [discriminate|].
  intro H. apply probeStage_success in H.
  apply firstSuccess_source in H. destruct H as [Hj Hs].
  split; [exact Hs|].
  rewrite probeStage_log. apply in_app_iff. right.
  apply in_map_iff. exists (workingPort e, validToken e). auto.
Qed.

Lemma filter_fetch_core (log : list Op) :
  filter isFetchOp (map CoreOp log) = [].
Proof. induction log as [|op log IH]; simpl; [reflexivity|exact IH]. Qed.

(** X16.  The request that fetches the quota, which carries the token, is
    sent at most once in a run, and only when the resolver has returned: it
    goes to the port and with the token of the returned endpoint, after the
    probe of that very port with that very token, which was answered with
    status 200.  A run in which the resolver fails or never returns sends no
    such request. *)
Theorem mainWithFetch_fetches_probed_endpoint
  {J : Type} (jsonParse : string -> option J) (w : World)
  (server : jsnum -> string -> list FetchEvent) :
  List.length (filter isFetchOp (snd (mainWithFetch jsonParse w server))) <= 1
  /\ (forall p tok,
         In (OpFetch p tok) (snd (mainWithFetch jsonParse w server)) ->
         fst (main w []) = Ok (mkEndpoint p tok)
         /\ (exists before,
                snd (mainWithFetch jsonParse w server)
                = map CoreOp before ++ [OpFetch p tok]
                /\ In (OpRequest p tok) before)
         /\ exists rest, httpsRequest w p tok = EvResponse 200 :: rest)
  /\ ((forall e, fst (main w []) <> Ok e) ->
      filter isFetchOp (snd (mainWithFetch jsonParse w server)) = []).
Proof.
  unfold mainWithFetch.
  destruct (main w []) as [[e|err|] log] eqn:M; cbn [fst snd].
  - assert (Me : fst (main w []) = Ok e) by now rewrite M.
    destruct (main_success_job w e Me) as [Hs Hin]. rewrite M in Hin.
    cbn [snd] in Hin. split; [|split].
    + rewrite filter_app, filter_fetch_core. simpl. lia.
    + intros p tok H. apply in_app_iff in H. destruct H as [H|[H|[]]].
      * apply in_map_iff in H. destruct H as [op [H _]]. discriminate.
      * injection H as <- <-. split; [now destruct e|]. split.
        -- exists log. auto.
        -- now apply (probeSucceeds_status w (workingPort e, validToken e)).
    + intro H. exfalso. now apply (H e).
  - split; [|split].
    + rewrite filter_fetch_core. simpl. lia.
    + intros p tok H. apply in_map_iff in H. destruct H as [op [H _]].
      discriminate.
    + intros _. apply filter_fetch_core.
  - split; [|split].
    + rewrite filter_fetch_core. simpl. lia.
    + intros p tok H. apply in_map_iff in H. destruct H as [op [H _]].
      discriminate.
    + intros _. apply filter_fetch_core.
Qed.

(** ** One port for each line *)

Lemma portHere_form (form ds rest : string) :
  In form addressForms ->
  truthy ds = true ->
  allChars isDigit ds = true ->
  headSatisfies isDigit rest = false ->
  portHere (form ++ ":" ++ ds ++ rest)%string = Some ds.
Proof.
  intros Hin Ht Hd Hr.
  destruct (takeWhile_app isDigit ds rest Hd Hr) as [Htw _].
  assert (He : isEmpty ds = false)
    by (unfold truthy in Ht; now destruct (isEmpty ds)).
  unfold addressForms in Hin.
  destruct Hin as [<-|[<-|[<-|[<-|[<-|[]]]]]];
    unfold portHere, addressForms, portAfter; cbn; rewrite Htw, He;
    reflexivity.
Qed.

Lemma portIndex_succ (c : ascii) (s : string) (n : nat) :
  portIndex (String c s) = Some (S n) ->
  portHere (String c s) = None /\ portIndex s = Some n.
Proof.
  cbn [portIndex]. destruct (portHere (String c s)); [discriminate|].
  destruct (portIndex s) as [m|]; [|discriminate].
  simpl. intro H. injection H as ->. auto.
Qed.

Lemma portMatch_at_index (pre s ds : string) :
  portIndex (pre ++ s)%string = Some (String.length pre) ->
  portHere s = Some ds ->
  portMatch (pre ++ s)%string = Some ds.
Proof.
  intros Hi Hh. induction pre as [|c pre IH];
    cbn [String.append String.length] in *.
  - destruct s; cbn [portMatch]; now rewrite Hh.
  - apply portIndex_succ in Hi. destruct Hi as [Hn Hi].
    cbn [portMatch]. rewrite Hn. now apply IH.
Qed.

Lemma setOf_length_from (xs s : list jsnum) :
  List.length (fold_left setAdd xs s) <= List.length s + List.length xs.
Proof.
  revert s. induction xs as [|x xs IH]; intro s; simpl; [lia|].
  specialize (IH (setAdd s x)). unfold setAdd in *.
  destruct (existsb (sameValueZero x) s); [lia|].
  rewrite length_app in IH. simpl in IH. lia.
Qed.

(** X17.  A line gives at most one port, the leftmost one.  When the
    leftmost match of a line is an address form followed by a colon and a
    run of digits, the port of the line is what [parseInt] reads from that
    run (its value, for a run of at most 15 digits), whatever stands to its
    right: further addresses on the same line, such as the foreign address
    of a netstat line, are not read.  A text therefore gives at most as many
    ports as it has lines. *)
Theorem portMatch_leftmost_only (pre form ds rest : string) :
  In form addressForms ->
  truthy ds = true ->
  allChars isDigit ds = true ->
  headSatisfies isDigit rest = false ->
  portIndex (pre ++ form ++ ":" ++ ds ++ rest)%string
    = Some (String.length pre) ->
  portMatch (pre ++ form ++ ":" ++ ds ++ rest)%string = Some ds
  /\ linePorts (pre ++ form ++ ":" ++ ds ++ rest)%string = [parseInt ds]
  /\ (String.length ds <= 15 ->
      linePorts (pre ++ form ++ ":" ++ ds ++ rest)%string
      = [Num (digitsValue ds)]
      /\ (0 <= digitsValue ds < 2 ^ 53)%Z)
  /\ forall portStdout,
       List.length (parsePorts portStdout)
       <= List.length (splitLF portStdout).
Proof.
  intros Hin Ht Hd Hr Hi.
  assert (M : portMatch (pre ++ form ++ ":" ++ ds ++ rest)%string = Some ds).
  { apply portMatch_at_index; [exact Hi|]. now apply portHere_form. }
  assert (L : linePorts (pre ++ form ++ ":" ++ ds ++ rest)%string
              = [parseInt ds]).
  { unfold linePorts. rewrite M. try rewrite Ht. reflexivity. }
  split; [exact M|]. split; [exact L|]. split.
  - intro Hlen. split.
    + rewrite L. now destruct (parseInt_digits ds Hd Ht) as [-> _].
    + now apply digitsValue_below_2_53.
  - intro portStdout.
    assert (E : parsePorts portStdout =
                setOf (flat_map linePorts (splitLF portStdout))).
    { unfold parsePorts, setOf. destruct portStdout as [|c r];
        [reflexivity|].
      cbn [truthy isEmpty negb]. apply fold_addPort_setAdd. }
    rewrite E. unfold setOf.
    pose proof (setOf_length_from (flat_map linePorts (splitLF portStdout)) [])
      as L1.
    assert (L2 : List.length (flat_map linePorts (splitLF portStdout))
                 <= 1 * List.length (splitLF portStdout)).
    { apply flat_map_length_le. intro line. unfold linePorts.
      destruct (portMatch line); simpl; lia. }
    simpl in L1. lia.
Qed.

Lemma portMatch_leftmost_only_witness :
  portMatch netstatWindowsLine = Some "42100"
  /\ linePorts netstatWindowsLine = [parseInt "42100"]
  /\ (String.length "42100" <= 15 ->
      linePorts netstatWindowsLine = [Num (digitsValue "42100")]
      /\ (0 <= digitsValue "42100" < 2 ^ 53)%Z)
  /\ forall portStdout,
       List.length (parsePorts portStdout)
       <= List.length (splitLF portStdout).
Proof.
  apply (portMatch_leftmost_only "  TCP    " "127.0.0.1" "42100"
           "    0.0.0.0:0    LISTENING    4321");
    try reflexivity.
  simpl. auto.
Defined.
